(** * Guitar Hero: the state-transition engine

    A shallow embedding of the game rules of [src/types.ts] (types and
    constants), [src/state.ts] (actions and reducer) and [src/util.ts]
    (random numbers, list helpers), followed by the properties of the
    specification that concern them.

    Conventions of the embedding.
    - A JavaScript [number] is a finite IEEE-754 binary64 value, kept as the
      rational it denotes ([num]); every arithmetic operator rounds its exact
      result to the nearest binary64 value, ties to even ([Float64.rnd]).
      Overflow to an infinity and NaN are outside the model; the one place
      where the source can divide by zero is written out.  The two zeros
      are one rational: there the sign of a zero divisor is taken from the
      difference it was computed from, and a zero given as an argument
      counts as +0.
      A [num] is kept in lowest terms, and every operation returns one in
      lowest terms, so that equal numbers are equal terms.
    - A string that carries a number for the renderer ([cy], [y1], [y2],
      [r]) is kept as that number: [Number(s)] and the template literal
      around a number are inverse to each other on such strings.
    - [objCount] is a number like the others: [objCount + 1] is rounded,
      and the string concatenation that builds an id writes the number as
      [String] does ([Number_toString]).
    - Readonly arrays are lists; object spread with overrides is a record
      built field by field. *)

From Stdlib Require Import ZArith NArith QArith Qround Qabs Qpower Qreduction Qcanon.
From Stdlib Require Import List String Ascii Bool Lia Lqa DecimalString DecimalN.
From Stdlib Require Import Permutation.
Import ListNotations.

Set Warnings "-notation-for-abbreviation".
Local Open Scope Q_scope.

(** ** Binary64 arithmetic on rationals *)

Module Float64.

Definition num := Q.

Definition pow2 (k : Z) : Q := (2 # 1) ^ k.

(** [ilog2 q] is the binary exponent of a non-zero [q]: the [e] with
    [2^e <= |q| < 2^(e+1)]. *)
Definition ilog2 (q : Q) : Z :=
  let e := (Z.log2 (Z.abs (Qnum q)) - Z.log2 (Zpos (Qden q)))%Z in
  if Qle_bool (pow2 e) (Qabs q) then e else (e - 1)%Z.

Definition roundHalfEven (q : Q) : Z :=
  let f := Qfloor q in
  match Qcompare (q - inject_Z f) (1 # 2) with
  | Lt => f
  | Gt => (f + 1)%Z
  | Eq => if Z.even f then f else (f + 1)%Z
  end.

(** Exponent of the unit in the last place: 53 significant bits, smallest
    exponent -1074 (subnormal numbers). *)
Definition ulpExp (q : Q) : Z := Z.max (ilog2 q - 52) (-1074).

(** Round to nearest binary64 value, ties to even.  The argument is put
    in lowest terms first, and so is the result: equal numbers have equal
    representations. *)
Definition rndReduced (q : Q) : num :=
  if Qeq_bool q 0 then 0
  else Qred (inject_Z (roundHalfEven (q / pow2 (ulpExp q))) * pow2 (ulpExp q)).

Definition rnd (q : Q) : num := rndReduced (Qred q).

Definition fadd (x y : num) : num := rnd (x + y).
Definition fsub (x y : num) : num := rnd (x - y).
Definition fmul (x y : num) : num := rnd (x * y).
Definition fdiv (x y : num) : num := rnd (x / y).

(** Truncation toward zero. *)
Definition Qtrunc (q : Q) : Z := if Qle_bool 0 q then Qfloor q else Qceiling q.

(** The [%] operator: the remainder has the sign of the dividend and is
    always representable, so nothing is rounded. *)
Definition fmod (x y : num) : num := Qred (x - y * inject_Z (Qtrunc (x / y))).

Definition eqb (x y : num) : bool := Qeq_bool x y.
Definition leb (x y : num) : bool := Qle_bool x y.
Definition geb (x y : num) : bool := Qle_bool y x.
Definition gtb (x y : num) : bool := negb (Qle_bool x y).

(** [Math.floor] and [Math.round] (ties toward +infinity) are exact. *)
Definition Math_floor (x : num) : num := inject_Z (Qfloor x).
Definition Math_round (x : num) : num := inject_Z (Qfloor (x + (1 # 2))).

(** [x.toFixed(1)] as a decimal number: the integer [n] with [n / 10]
    nearest to the magnitude of [x], the larger [n] on a tie, with the sign
    of [x] put back. *)
Definition toFixed1 (x : num) : Q :=
  let n := Qfloor (Qabs x * 10 + (1 # 2)) in
  if Qle_bool 0 x then inject_Z n / 10 else - (inject_Z n / 10).

(** [Number(x.toFixed(1))]: the decimal text is read back as a number. *)
Definition Number_toFixed1 (x : num) : num := rnd (toFixed1 x).

(** [arr.length] as a number. *)
Definition len {A : Type} (l : list A) : num := inject_Z (Z.of_nat (List.length l)).

#[global] Arguments rnd : simpl never.
#[global] Arguments fadd : simpl never.
#[global] Arguments fsub : simpl never.
#[global] Arguments fmul : simpl never.
#[global] Arguments fdiv : simpl never.
#[global] Arguments fmod : simpl never.
#[global] Arguments Number_toFixed1 : simpl never.

End Float64.
Import Float64.

(** ** Numbers as text *)

(** The decimal digits of a natural number. *)
Definition decimal (n : N) : string := NilEmpty.string_of_uint (N.to_uint n).

Definition pow10 (k : Z) : Q := (10 # 1) ^ k.

(** The decimal exponent of a positive [x]: the [e] with
    [10^e <= x < 10^(e+1)], found from an estimate. *)
Fixpoint exponentUp (fuel : nat) (x : Q) (e : Z) : Z :=
  match fuel with
  | O => e
  | S fuel => if Qle_bool (pow10 (e + 1)) x then exponentUp fuel x (e + 1)%Z else e
  end.

Fixpoint exponentDown (fuel : nat) (x : Q) (e : Z) : Z :=
  match fuel with
  | O => e
  | S fuel => if Qle_bool (pow10 e) x then e else exponentDown fuel x (e - 1)%Z
  end.

Definition ilog10 (x : Q) : Z :=
  exponentUp 4 x (exponentDown 4 x (ilog2 x * 1233 / 4096)%Z).

(** The [k]-digit decimals next to [x]: [s * 10^(n-k)] with [s] the floor
    of [x / 10^(n-k)] or the integer after it.  The result is the one that
    rounds to [x], the closer to [x] if both do (the even one on a tie),
    as the pair of its digits and the position of its decimal point. *)
Definition digitsOfLength (x : Q) (n k : Z) : option (Z * Z) :=
  let unit := pow10 (n - k) in
  let lo := Qfloor (x / unit) in
  let hi := (lo + 1)%Z in
  let isX (s : Z) := Qeq_bool (rnd (inject_Z s * unit)) x in
  let normal (s : Z) := if (s =? 10 ^ k)%Z then (10 ^ (k - 1), n + 1)%Z else (s, n) in
  match isX lo, isX hi with
  | true, true =>
      match Qcompare (x - inject_Z lo * unit) (inject_Z hi * unit - x) with
      | Lt => Some (normal lo)
      | Gt => Some (normal hi)
      | Eq => Some (normal (if Z.even lo then lo else hi))
      end
  | true, false => Some (normal lo)
  | false, true => Some (normal hi)
  | false, false => None
  end.

(** The shortest digits that round to [x], trying 1, 2, ... digits. *)
Fixpoint shortestDigits (fuel : nat) (x : Q) (n k : Z) : Z * Z * Z :=
  match fuel with
  | O => (Qfloor (x / pow10 (n - k)), n, k)
  | S fuel =>
      match digitsOfLength x n k with
      | Some (s, n') => (s, n', k)
      | None => shortestDigits fuel x n (k + 1)%Z
      end
  end.

Definition zeros (n : Z) : string :=
  string_of_list_ascii (repeat "0"%char (Z.to_nat n)).

(** The text of the number [s * 10^(n-k)], [s] having [k] digits. *)
Definition digitsToString (s n k : Z) : string :=
  let digits := decimal (Z.to_N s) in
  if (k <=? n)%Z && (n <=? 21)%Z then String.append digits (zeros (n - k))
  else if (0 <? n)%Z && (n <=? 21)%Z then
    String.append (substring 0 (Z.to_nat n) digits)
      (String.append "." (substring (Z.to_nat n) (Z.to_nat (k - n)) digits))
  else if (-6 <? n)%Z && (n <=? 0)%Z then
    String.append "0." (String.append (zeros (- n)) digits)
  else
    let e := (n - 1)%Z in
    let exponent :=
      String.append (if (0 <=? e)%Z then "e+" else "e-")
        (decimal (Z.to_N (Z.abs e))) in
    if (k =? 1)%Z then String.append digits exponent
    else
      String.append (substring 0 1 digits)
        (String.append "."
           (String.append (substring 1 (Z.to_nat (k - 1)) digits) exponent)).

(** The text of a positive number from the fewest digits that round to
    it. *)
Definition shortestToString (x : num) : string :=
  let '(s, n, k) := shortestDigits 17 x (ilog10 x + 1) 1 in
  digitsToString s n k.

(** [String(x)] for a positive number.  An integer up to 2^53 is written
    with all its digits: every shorter decimal of that size is another
    integer, which is a number itself.  Any other number is written with
    the fewest digits that still round to it. *)
Definition positiveToString (x : num) : string :=
  if Qeq_bool x (inject_Z (Qfloor x)) && Qle_bool x (inject_Z (2 ^ 53))
  then decimal (Z.to_N (Qfloor x))
  else shortestToString x.

(** [String(x)], the text of a number inside a template literal or after
    [+] with a string. *)
Definition Number_toString (x : num) : string :=
  if Qeq_bool x 0 then "0"%string
  else if Qle_bool 0 x then positiveToString x
  else String.append "-" (positiveToString (- x)).

(** ** Constants ([src/types.ts]) *)

Module Viewport.
Definition CANVAS_WIDTH : num := 200.
Definition CANVAS_HEIGHT : num := 400.
End Viewport.

Module Constants.
Definition TICK_RATE_MS : num := 5.
Definition VELOCITY_NORMALISATION_FACTOR : num := 1000.
Definition STARTING_OBJ_COUNT : num := 0.
Definition TARGET_CY : num := 350.
Definition TARGET_RANGE : num := 20.
Definition EXPIRE_LIMIT : num := 400.
Definition STARTING_SCORE : num := 0.
Definition SCORE_INCREASE : num := 10.
Definition BASE_CONSECUTIVE_HITS : num := 0.
Definition BASE_MULTIPLIER : num := 1.
Definition MULTIPLIER_INCREASE : num := rnd (2 # 10).
Definition HITS_PER_MULTIPLIER_INCREASE : num := 10.
Definition STARTING_RANDOM_NUMBER : num := rnd (1 # 10).
End Constants.

Module Note.
Definition START_CY : num := 0.
Definition RADIUS : num := fmul (rnd (7 # 100)) Viewport.CANVAS_WIDTH.
Definition TAIL_WIDTH : string := "10".
Definition MOVEMENT : num := 1.
Definition DURATION_FOR_TAIL : num := 1.
End Note.

(** ** Data model ([src/types.ts]) *)

Inductive ColumnKey : Type := KeyH | KeyJ | KeyK | KeyL.

Definition keyToColumn (k : ColumnKey) : string :=
  match k with
  | KeyH => "20%"
  | KeyJ => "40%"
  | KeyK => "60%"
  | KeyL => "80%"
  end.

Record NoteData : Type := mkNoteData {
  userPlayed : bool;
  instrumentName : string;
  velocity : num;
  pitch : num;
  start : num;
  end_ : num
}.

Module Circle.
Record t : Type := mk {
  id : string;
  r : num;
  cx : string;
  cy : num;
  style : string;
  class : string;
  note : NoteData;
  hasTail : bool
}.
End Circle.
Notation Circle := Circle.t.

Module BgCircle.
Record t : Type := mk {
  cy : num;
  note : NoteData
}.
End BgCircle.
Notation BgCircle := BgCircle.t.

Module Tail.
Record t : Type := mk {
  id : string;
  x1 : string;
  y1 : num;
  x2 : string;
  y2 : num;
  style : string;
  isPlayed : bool;
  isStartNote : bool;
  circle : Circle;
  class : string
}.
End Tail.
Notation Tail := Tail.t.

Record State : Type := mkState {
  backgroundCircles : list BgCircle;
  circles : list Circle;
  playedCircles : list Circle;
  tails : list Tail;
  finishedTails : list Tail;
  exit : list (Circle + Tail);
  objCount : num;
  score : num;
  consecutiveHits : num;
  multiplier : num;
  randomNumber : num;
  gameEnd : bool
}.

(** Actions: one constructor per class implementing [Action], carrying the
    constructor arguments of the class. *)
Inductive Action : Type :=
| Tick (elapsed : num)
| CreateCircle (noteData : NoteData) (minPitch maxPitch : num)
| CreateBgCircle (noteData : NoteData)
| PressKey (key : ColumnKey)
| HoldKey (key : ColumnKey)
| ReleaseKey (key : ColumnKey)
| EndGame.

(** ** Utilities ([src/util.ts]) *)

(** Reading [arr[i]] where [i] is an integral number: [undefined] off the
    array, which a template literal (and the instrument lookup of the audio
    code) sees as the text "undefined". *)
Definition arrayAt (arr : list string) (i : Z) : string :=
  if (i <? 0)%Z then "undefined"%string
  else nth (Z.to_nat i) arr "undefined"%string.

(** Linear congruential generator with GCC's constants. *)
Module RNG.
Definition m : num := inject_Z (2 ^ 31).
Definition a : num := 1103515245.
Definition c : num := 12345.

Definition hash (seed : num) : num := fmod (fadd (fmul a seed) c) m.

Definition scale (hash : num) : num :=
  fsub (fdiv (fmul 2 hash) (fsub m 1)) 1.

Definition scaleToRange (hash min max : num) : num :=
  fadd min (fmul (fdiv hash (fsub m 1)) (fsub max min)).
End RNG.

Definition instruments : list string :=
  ["bass-electric"; "violin"; "piano"; "trumpet"; "saxophone"; "trombone";
   "flute"]%string.

Definition generateRandomNote (seed : num) : BgCircle :=
  let instrumentIndex :=
    Qfloor (RNG.scaleToRange seed 0 (len instruments)) in
  let instrumentName := arrayAt instruments instrumentIndex in
  let velocity := Math_floor (RNG.scaleToRange seed 30 127) in
  let pitch := Math_floor (RNG.scaleToRange seed 30 90) in
  let length := RNG.scaleToRange seed 0 (rnd (5 # 10)) in
  let randomNoteData :=
    {| userPlayed := false;
       instrumentName := instrumentName;
       velocity := velocity;
       pitch := pitch;
       start := 0;
       end_ := length |} in
  {| BgCircle.cy := Constants.TARGET_CY; BgCircle.note := randomNoteData |}.

Module Util.
Definition not {T : Type} (f : T -> bool) (x : T) : bool := negb (f x).

Definition elem {T : Type} (eq : T -> T -> bool) (a : list T) (e : T) : bool :=
  existsb (eq e) a.

Definition except {T : Type} (eq : T -> T -> bool) (a b : list T) : list T :=
  filter (not (elem eq b)) a.
End Util.

(** ** Initial state and helper functions ([src/state.ts]) *)

Definition initialState : State :=
  {| backgroundCircles := [];
     circles := [];
     playedCircles := [];
     tails := [];
     finishedTails := [];
     exit := [];
     objCount := Constants.STARTING_OBJ_COUNT;
     score := Constants.STARTING_SCORE;
     consecutiveHits := Constants.BASE_CONSECUTIVE_HITS;
     multiplier := Constants.BASE_MULTIPLIER;
     randomNumber := Constants.STARTING_RANDOM_NUMBER;
     gameEnd := false |}.

(** [(noteData.pitch - minPitch) / intervalSize] divides by zero when
    [intervalSize] is zero: when the two pitches agree (+0), or when a
    quarter of their difference is too small for a number and is rounded
    to a zero with the sign of the difference.  The quotient is then
    +Infinity (index 3 after [Math.min]) when the offset has the sign of
    that zero, and -Infinity or NaN (no array element) otherwise. *)
Definition getColumnAndColour (noteData : NoteData) (minPitch maxPitch : num)
  : string * string :=
  let columnArray := ["20%"; "40%"; "60%"; "80%"]%string in
  let colourArray := ["green"; "red"; "blue"; "yellow"]%string in
  let intervalSize := fdiv (fsub maxPitch minPitch) 4 in
  let offset := fsub (pitch noteData) minPitch in
  let index : option Z :=
    if eqb intervalSize 0
    then
      if gtb 0 (fsub maxPitch minPitch)
      then (if gtb 0 offset then Some 3%Z else None)
      else (if gtb offset 0 then Some 3%Z else None)
    else Some (Z.min (Qfloor (fdiv offset intervalSize)) 3) in
  match index with
  | Some i => (arrayAt columnArray i, arrayAt colourArray i)
  | None => ("undefined"%string, "undefined"%string)
  end.

Definition isCircleAligned (circle : Circle) (cx : string) : bool :=
  String.eqb (Circle.cx circle) cx
  && geb (Circle.cy circle) (fsub Constants.TARGET_CY Constants.TARGET_RANGE)
  && leb (Circle.cy circle) (fadd Constants.TARGET_CY Constants.TARGET_RANGE).

Definition isTailEndAligned (tail : Tail) (cx : string) : bool :=
  String.eqb (Tail.x1 tail) cx
  && geb (Tail.y2 tail) (fsub Constants.TARGET_CY Constants.TARGET_RANGE)
  && leb (Tail.y2 tail) Constants.TARGET_CY.

(** The three lists computed by [initialisePressAndHoldKey]. *)
Record PressAndHold : Type := mkPressAndHold {
  alignedCircles : list Circle;
  alignedTailCircles : list Circle;
  remainingCircles : list Circle
}.

Definition initialisePressAndHoldKey (s : State) (key : ColumnKey) : PressAndHold :=
  let cx := keyToColumn key in
  let alignedCircles := filter (fun c => isCircleAligned c cx) (circles s) in
  let alignedTailCircles := filter Circle.hasTail alignedCircles in
  let remainingCircles :=
    filter (fun c => negb (isCircleAligned c cx)) (circles s) in
  {| alignedCircles := alignedCircles;
     alignedTailCircles := alignedTailCircles;
     remainingCircles := remainingCircles |}.

Definition calculateNewMultiplier (newConsecutiveHits : num) : num :=
  Number_toFixed1
    (fadd Constants.BASE_MULTIPLIER
       (fmul
          (Math_floor
             (fdiv newConsecutiveHits Constants.HITS_PER_MULTIPLIER_INCREASE))
          Constants.MULTIPLIER_INCREASE)).

(** Returns the pair [(newConsecutiveHits, newMultiplier)]. *)
Definition updateHitsAndMultiplier (isMiss : bool)
    (consecutiveHits additionalHits : num) : num * num :=
  let newConsecutiveHits :=
    if isMiss then Constants.BASE_CONSECUTIVE_HITS
    else fadd consecutiveHits additionalHits in
  let newMultiplier :=
    if isMiss then Constants.BASE_MULTIPLIER
    else calculateNewMultiplier newConsecutiveHits in
  (newConsecutiveHits, newMultiplier).

(** Returns the pair [(newRandomNumber, newBgCircles)]. *)
Definition addRandomBgCircle (isMiss : bool) (randomNumber : num)
    (backgroundCircles : list BgCircle) : num * list BgCircle :=
  let newRandomNumber :=
    if isMiss then RNG.hash randomNumber else randomNumber in
  let newBgCircles :=
    if isMiss
    then backgroundCircles ++ [generateRandomNote newRandomNumber]
    else backgroundCircles in
  (newRandomNumber, newBgCircles).

(** ** State updates ([src/state.ts]) *)

(** [moveCircle] is generic in any record with a [cy] field. *)
Class HasCy (T : Type) : Type := {
  getCy : T -> num;
  setCy : num -> T -> T
}.

#[export] Instance Circle_HasCy : HasCy Circle := {
  getCy := Circle.cy;
  setCy v c :=
    {| Circle.id := Circle.id c; Circle.r := Circle.r c;
       Circle.cx := Circle.cx c; Circle.cy := v;
       Circle.style := Circle.style c; Circle.class := Circle.class c;
       Circle.note := Circle.note c; Circle.hasTail := Circle.hasTail c |}
}.

#[export] Instance BgCircle_HasCy : HasCy BgCircle := {
  getCy := BgCircle.cy;
  setCy v c := {| BgCircle.cy := v; BgCircle.note := BgCircle.note c |}
}.

Module Tick.

Definition isCircleExpired (c : Circle) : bool :=
  gtb (Circle.cy c) Constants.EXPIRE_LIMIT.

Definition isMissed (c : Circle) : bool :=
  gtb (Circle.cy c) (fadd Constants.TARGET_CY Constants.TARGET_RANGE).

Definition isTailExpired (t : Tail) : bool :=
  gtb (Tail.y2 t) Constants.EXPIRE_LIMIT.

Definition isTailFullyPlayed (t : Tail) : bool :=
  eqb (Tail.y2 t) (Tail.y1 t).

Definition moveCircle {T : Type} `{HasCy T} (c : T) : T :=
  setCy (fadd (getCy c) Note.MOVEMENT) c.

Definition incrementY (y : num) : num := fadd y Note.MOVEMENT.

(** [{...t, y1: ..., y2: ...}] *)
Definition setY (y1 y2 : num) (t : Tail) : Tail :=
  {| Tail.id := Tail.id t; Tail.x1 := Tail.x1 t; Tail.y1 := y1;
     Tail.x2 := Tail.x2 t; Tail.y2 := y2; Tail.style := Tail.style t;
     Tail.isPlayed := Tail.isPlayed t; Tail.isStartNote := Tail.isStartNote t;
     Tail.circle := Tail.circle t; Tail.class := Tail.class t |}.

Definition movePlayedTail (t : Tail) : Tail :=
  setY (if geb (Tail.y1 t) Constants.TARGET_CY
        then Tail.y1 t else incrementY (Tail.y1 t))
       (if eqb (Tail.y2 t) (Tail.y1 t)
        then Tail.y2 t else incrementY (Tail.y2 t))
       t.

Definition moveUnplayedTail (t : Tail) : Tail :=
  setY (incrementY (Tail.y1 t)) (incrementY (Tail.y2 t)) t.

Definition moveTail (t : Tail) : Tail :=
  if Tail.isPlayed t then movePlayedTail t else moveUnplayedTail t.

(** [{...t, isStartNote: false}] *)
Definition clearStartNote (t : Tail) : Tail :=
  {| Tail.id := Tail.id t; Tail.x1 := Tail.x1 t; Tail.y1 := Tail.y1 t;
     Tail.x2 := Tail.x2 t; Tail.y2 := Tail.y2 t; Tail.style := Tail.style t;
     Tail.isPlayed := Tail.isPlayed t; Tail.isStartNote := false;
     Tail.circle := Tail.circle t; Tail.class := Tail.class t |}.

Definition apply (elapsed : num) (s : State) : State :=
  let expiredCircles := filter isCircleExpired (circles s) in
  let activeCircles := filter (Util.not isCircleExpired) (circles s) in
  let missedCircles := filter isMissed (circles s) in
  let expiredTails := filter isTailExpired (tails s) in
  let fullyPlayedTails := filter isTailFullyPlayed (tails s) in
  let activeTails :=
    map clearStartNote
      (filter (Util.not isTailFullyPlayed)
         (filter (Util.not isTailExpired) (tails s))) in
  let isMissedCircles := Nat.ltb 0 (List.length missedCircles) in
  let '(newConsecutiveHits, newMultiplier) :=
    updateHitsAndMultiplier isMissedCircles (consecutiveHits s)
      (len fullyPlayedTails) in
  let newScore :=
    fadd (score s)
      (fmul (fmul (len fullyPlayedTails) Constants.SCORE_INCREASE)
         newMultiplier) in
  let newBgCircles :=
    filter (fun c => leb (BgCircle.cy c) Constants.TARGET_CY)
      (map moveCircle (backgroundCircles s)) in
  let newCircles := map moveCircle activeCircles in
  let newTails := map moveTail activeTails in
  {| backgroundCircles := newBgCircles;
     circles := newCircles;
     playedCircles := [];
     tails := newTails;
     finishedTails := fullyPlayedTails;
     exit := map inl expiredCircles ++ map inr expiredTails;
     objCount := objCount s;
     score := newScore;
     consecutiveHits := newConsecutiveHits;
     multiplier := newMultiplier;
     randomNumber := randomNumber s;
     gameEnd := gameEnd s |}.

End Tick.

Module CreateCircle.

Definition apply (noteData : NoteData) (minPitch maxPitch : num) (s : State)
  : State :=
  let '(column, colour) := getColumnAndColour noteData minPitch maxPitch in
  let newCircle :=
    {| Circle.id := String.append "circle" (Number_toString (objCount s));
       Circle.r := Note.RADIUS;
       Circle.cx := column;
       Circle.cy := Note.START_CY;
       Circle.style := String.append "fill: " colour;
       Circle.class := "playable";
       Circle.note := noteData;
       Circle.hasTail :=
         gtb (fsub (end_ noteData) (start noteData)) Note.DURATION_FOR_TAIL |} in
  let tailLength :=
    Math_round
      (fdiv
         (fmul (fmul (fsub (end_ noteData) (start noteData)) 1000)
            Note.MOVEMENT)
         Constants.TICK_RATE_MS) in
  let updatedTails :=
    if Circle.hasTail newCircle
    then tails s ++
         [{| Tail.id := String.append "tail" (Number_toString (objCount s));
             Tail.x1 := column;
             Tail.y1 := Note.START_CY;
             Tail.x2 := column;
             Tail.y2 := fsub Note.START_CY tailLength;
             Tail.style :=
               String.append "stroke:"
                 (String.append colour
                    (String.append ";stroke-width:" Note.TAIL_WIDTH));
             Tail.isPlayed := false;
             Tail.isStartNote := false;
             Tail.circle := newCircle;
             Tail.class := "playable" |}]
    else tails s in
  {| backgroundCircles := backgroundCircles s;
     circles := circles s ++ [newCircle];
     playedCircles := playedCircles s;
     tails := updatedTails;
     finishedTails := finishedTails s;
     exit := exit s;
     objCount := fadd (objCount s) 1;
     score := score s;
     consecutiveHits := consecutiveHits s;
     multiplier := multiplier s;
     randomNumber := randomNumber s;
     gameEnd := gameEnd s |}.

End CreateCircle.

Module CreateBgCircle.

Definition apply (noteData : NoteData) (s : State) : State :=
  {| backgroundCircles :=
       backgroundCircles s ++
       [{| BgCircle.cy := Note.START_CY; BgCircle.note := noteData |}];
     circles := circles s;
     playedCircles := playedCircles s;
     tails := tails s;
     finishedTails := finishedTails s;
     exit := exit s;
     objCount := objCount s;
     score := score s;
     consecutiveHits := consecutiveHits s;
     multiplier := multiplier s;
     randomNumber := randomNumber s;
     gameEnd := gameEnd s |}.

End CreateBgCircle.

Module PressKey.

Definition apply (key : ColumnKey) (s : State) : State :=
  let init := initialisePressAndHoldKey s key in
  if Nat.ltb 0 (List.length (alignedTailCircles init)) then s
  else
    let isMiss := Nat.eqb (List.length (alignedCircles init)) 0 in
    let '(newConsecutiveHits, newMultiplier) :=
      updateHitsAndMultiplier isMiss (consecutiveHits s) 1 in
    let newScore :=
      fadd (score s)
        (fmul (fmul (len (alignedCircles init)) Constants.SCORE_INCREASE)
           newMultiplier) in
    let '(newRandomNumber, newBgCircles) :=
      addRandomBgCircle isMiss (randomNumber s) (backgroundCircles s) in
    {| backgroundCircles := newBgCircles;
       circles := remainingCircles init;
       playedCircles := alignedCircles init;
       tails := tails s;
       finishedTails := finishedTails s;
       exit := exit s;
       objCount := objCount s;
       score := newScore;
       consecutiveHits := newConsecutiveHits;
       multiplier := newMultiplier;
       randomNumber := newRandomNumber;
       gameEnd := gameEnd s |}.

End PressKey.

(** [{...t, isPlayed: ..., isStartNote: ...}] *)
Definition setPlayed (isPlayed isStartNote : bool) (t : Tail) : Tail :=
  {| Tail.id := Tail.id t; Tail.x1 := Tail.x1 t; Tail.y1 := Tail.y1 t;
     Tail.x2 := Tail.x2 t; Tail.y2 := Tail.y2 t; Tail.style := Tail.style t;
     Tail.isPlayed := isPlayed; Tail.isStartNote := isStartNote;
     Tail.circle := Tail.circle t; Tail.class := Tail.class t |}.

Module HoldKey.

Definition apply (key : ColumnKey) (s : State) : State :=
  let init := initialisePressAndHoldKey s key in
  if Nat.eqb (List.length (alignedTailCircles init)) 0 then s
  else
    let alignedTails :=
      filter
        (fun t =>
           existsb
             (fun c => String.eqb (Circle.id c) (Circle.id (Tail.circle t)))
             (alignedTailCircles init))
        (tails s) in
    let playedTails := map (setPlayed true true) alignedTails in
    let remainingTails :=
      Util.except (fun a b => String.eqb (Tail.id a) (Tail.id b))
        (tails s) playedTails in
    {| backgroundCircles := backgroundCircles s;
       circles := remainingCircles init;
       playedCircles := playedCircles s ++ alignedTailCircles init;
       tails := playedTails ++ remainingTails;
       finishedTails := finishedTails s;
       exit := exit s;
       objCount := objCount s;
       score := score s;
       consecutiveHits := consecutiveHits s;
       multiplier := multiplier s;
       randomNumber := randomNumber s;
       gameEnd := gameEnd s |}.

End HoldKey.

Module ReleaseKey.

(** The played tails of the column, [playedTails] in the source. *)
Definition playedTailsOf (cx : string) (s : State) : list Tail :=
  filter (fun t => String.eqb (Tail.x1 t) cx) (filter Tail.isPlayed (tails s)).

Definition apply (key : ColumnKey) (s : State) : State :=
  let cx := keyToColumn key in
  let playedTails := playedTailsOf cx s in
  if Nat.eqb (List.length playedTails) 0
     && Nat.eqb (List.length (finishedTails s)) 0
  then s
  else
    let updatedPlayedTails :=
      map
        (fun t =>
           setPlayed (if isTailEndAligned t cx then true else false)
             (Tail.isStartNote t) t)
        playedTails in
    let alignedPlayedTails :=
      filter (fun t => isTailEndAligned t cx) updatedPlayedTails in
    let isMiss := Nat.eqb (List.length alignedPlayedTails) 0 in
    let '(newConsecutiveHits, newMultiplier) :=
      updateHitsAndMultiplier isMiss (consecutiveHits s) 0 in
    let remainingTails :=
      filter
        (fun t =>
           negb
             (existsb
                (fun playedTail => String.eqb (Tail.id playedTail) (Tail.id t))
                playedTails))
        (tails s) in
    let '(newRandomNumber, newBgCircles) :=
      addRandomBgCircle isMiss (randomNumber s) (backgroundCircles s) in
    {| backgroundCircles := newBgCircles;
       circles := circles s;
       playedCircles := playedCircles s;
       tails := updatedPlayedTails ++ remainingTails;
       finishedTails := finishedTails s;
       exit := exit s;
       objCount := objCount s;
       score := score s;
       consecutiveHits := newConsecutiveHits;
       multiplier := newMultiplier;
       randomNumber := newRandomNumber;
       gameEnd := gameEnd s |}.

End ReleaseKey.

Module EndGame.

Definition apply (s : State) : State :=
  {| backgroundCircles := backgroundCircles s;
     circles := circles s;
     playedCircles := playedCircles s;
     tails := tails s;
     finishedTails := finishedTails s;
     exit := exit s;
     objCount := objCount s;
     score := score s;
     consecutiveHits := consecutiveHits s;
     multiplier := multiplier s;
     randomNumber := randomNumber s;
     gameEnd := true |}.

End EndGame.

(** [action.apply(s)]: dispatch on the class of the action. *)
Definition apply (action : Action) (s : State) : State :=
  match action with
  | Tick elapsed => Tick.apply elapsed s
  | CreateCircle noteData minPitch maxPitch =>
      CreateCircle.apply noteData minPitch maxPitch s
  | CreateBgCircle noteData => CreateBgCircle.apply noteData s
  | PressKey key => PressKey.apply key s
  | HoldKey key => HoldKey.apply key s
  | ReleaseKey key => ReleaseKey.apply key s
  | EndGame => EndGame.apply s
  end.

Definition reduceState (s : State) (action : Action) : State :=
  let reducedState := apply action s in
  if gameEnd s then s else reducedState.

(** ** Sample notes, entities and states used to exercise the rules *)

Definition shortNote : NoteData :=
  {| userPlayed := true; instrumentName := "piano"; velocity := 80;
     pitch := 60; start := 1; end_ := rnd (15 # 10) |}.

Definition longNote : NoteData :=
  {| userPlayed := true; instrumentName := "violin"; velocity := 64;
     pitch := 52; start := 2; end_ := 4 |}.

Definition ambientNote : NoteData :=
  {| userPlayed := false; instrumentName := "flute"; velocity := 40;
     pitch := 72; start := 0; end_ := 1 |}.

(** A playable circle as [CreateCircle] builds it when the counter is [n],
    moved to height [cy]. *)
Definition sampleCircle (n : N) (cx : string) (cy : num) (hasTail : bool)
  : Circle :=
  {| Circle.id := String.append "circle" (decimal n);
     Circle.r := Note.RADIUS;
     Circle.cx := cx;
     Circle.cy := cy;
     Circle.style := "fill: green";
     Circle.class := "playable";
     Circle.note := if hasTail then longNote else shortNote;
     Circle.hasTail := hasTail |}.

Definition sampleTail (n : N) (cx : string) (y1 y2 : num) (isPlayed : bool)
  : Tail :=
  {| Tail.id := String.append "tail" (decimal n);
     Tail.x1 := cx;
     Tail.y1 := y1;
     Tail.x2 := cx;
     Tail.y2 := y2;
     Tail.style := "stroke:green;stroke-width:10";
     Tail.isPlayed := isPlayed;
     Tail.isStartNote := false;
     Tail.circle := sampleCircle n cx 0 true;
     Tail.class := "playable" |}.

(** A running game with a combo of 25 hits (multiplier 1.4) and the given
    entities on the board. *)
Definition comboState (cs : list Circle) (ts fs : list Tail) : State :=
  {| backgroundCircles := [];
     circles := cs;
     playedCircles := [];
     tails := ts;
     finishedTails := fs;
     exit := [];
     objCount := 40;
     score := 300;
     consecutiveHits := 25;
     multiplier := rnd (14 # 10);
     randomNumber := Constants.STARTING_RANDOM_NUMBER;
     gameEnd := false |}.

(** Nine hits in a row, a tailless circle on the target line of the first
    column: the next press is the tenth hit. *)
Definition tenthHitState : State :=
  {| backgroundCircles := [];
     circles := [sampleCircle 9 "20%" 350 false];
     playedCircles := [];
     tails := [];
     finishedTails := [];
     exit := [];
     objCount := 10;
     score := 90;
     consecutiveHits := 9;
     multiplier := 1;
     randomNumber := Constants.STARTING_RANDOM_NUMBER;
     gameEnd := false |}.

(** [n] clock ticks in a row. *)
Definition ticks (n : nat) (s : State) : State := Nat.iter n (Tick.apply 0) s.

(** What one [Tick] does to the list of active tails. *)
Definition tickTails (ts : list Tail) : list Tail :=
  map Tick.moveTail
    (map Tick.clearStartNote
       (filter (Util.not Tick.isTailFullyPlayed)
          (filter (Util.not Tick.isTailExpired) ts))).

(** The only tail on the board is held, with [y1 = 100] and [y2 = 80]. *)
Definition heldTailState : State :=
  comboState [] [sampleTail 0 "20%" 100 80 true] [].

(** The only tail on the board is held, with its head on the target line
    and its end 20 units above. *)
Definition heldAtTargetState : State :=
  comboState [] [sampleTail 0 "20%" 350 330 true] [].

(** The multiplier as the specification words it,
    [round(1 + floor(h/10)*0.2, 1)], in exact decimal arithmetic. *)
Definition round1 (q : Q) : Q := inject_Z (Qfloor (q * 10 + (1 # 2))) / 10.

Definition multiplierFor (h : Z) : Q :=
  round1 (1 + inject_Z (h / 10) * (2 # 10)).

(** The generator as the specification words it: [(a*seed + c) mod m] in
    exact arithmetic. *)
Definition hashExact (seed : Q) : Q :=
  let x := 1103515245 * seed + 12345 in
  x - inject_Z (2 ^ 31) * inject_Z (Qfloor (x / inject_Z (2 ^ 31))).

(** ** Object ids *)

(** The actions that create entities. *)
Definition isCreate (action : Action) : bool :=
  match action with
  | CreateCircle _ _ _ | CreateBgCircle _ => true
  | _ => false
  end.

(** A sequence of actions applied one after the other. *)
Definition applyAll (actions : list Action) (s : State) : State :=
  fold_left (fun s action => apply action s) actions s.

(** Ids of the live circles and tails. *)
Definition liveIds (s : State) : list string :=
  map Circle.id (circles s) ++ map Tail.id (tails s).

(** Every live id is "circle" or "tail" followed by the digits of a
    counter value below [objCount]. *)
Definition idsBelowCount (s : State) : Prop :=
  (forall c, In c (circles s) ->
     exists k : N, inject_Z (Z.of_N k) < objCount s /\
                   Circle.id c = String.append "circle" (decimal k)) /\
  (forall t, In t (tails s) ->
     exists k : N, inject_Z (Z.of_N k) < objCount s /\
                   Tail.id t = String.append "tail" (decimal k)).

(** The number of [CreateCircle] actions in a sequence. *)
Definition circlesCreated (actions : list Action) : nat :=
  List.length
    (filter (fun action =>
               match action with CreateCircle _ _ _ => true | _ => false end)
       actions).

(** An empty board with the counter at 2^53, where [objCount + 1] is
    rounded back to [objCount]. *)
Definition stalledCounterState : State :=
  {| backgroundCircles := [];
     circles := [];
     playedCircles := [];
     tails := [];
     finishedTails := [];
     exit := [];
     objCount := inject_Z (2 ^ 53);
     score := 0;
     consecutiveHits := 0;
     multiplier := 1;
     randomNumber := Constants.STARTING_RANDOM_NUMBER;
     gameEnd := false |}.

(** * Definitions for the further properties *)

(** ** Binary64 values *)

(** [z] is a binary64 value: an integer of at most 53 bits times a power
    of two not below the smallest subnormal. *)
Definition representable (z : Q) : Prop :=
  exists (M t : Z),
    (Z.abs M < 2 ^ 53)%Z /\ (-1074 <= t)%Z /\ z == inject_Z M * pow2 t.

(** ** States reached in play *)

(** The state after a sequence of actions folded through the reducer from
    [initialState], as [scan(reduceState, initialState)] produces it. *)
Definition play (actions : list Action) : State :=
  fold_left reduceState actions initialState.

(** Combo, multiplier, score and seed are in step with each other. *)
Definition comboInvariant (s : State) : Prop :=
  (exists h : Z, (0 <= h)%Z /\ consecutiveHits s = inject_Z h) /\
  multiplier s = calculateNewMultiplier (consecutiveHits s) /\
  1 <= multiplier s /\
  representable (score s) /\
  0 <= score s /\
  0 <= randomNumber s < inject_Z (2 ^ 31).

(** The number under [toFixed(1)] in [calculateNewMultiplier]. *)
Definition rawMultiplier (h : num) : num :=
  fadd Constants.BASE_MULTIPLIER
    (fmul (Math_floor (fdiv h Constants.HITS_PER_MULTIPLIER_INCREASE))
       Constants.MULTIPLIER_INCREASE).

(** Every tail carries the counter value of the circle it was created
    with. *)
Definition tailsPaired (s : State) : Prop :=
  forall t, In t (tails s) ->
    exists k, Tail.id t = String.append "tail" (decimal k) /\
              Circle.id (Tail.circle t) = String.append "circle" (decimal k).

(** Ids are well formed: built from counters below [objCount], pairwise
    distinct, and each tail is paired with its circle. *)
Definition idInvariant (s : State) : Prop :=
  idsBelowCount s /\ NoDup (liveIds s) /\ tailsPaired s.

(** The counter is a natural number, at most [bound] and at most 2^53,
    where it stops advancing; below 2^53 the ids are well formed. *)
Definition countedIdInvariant (bound : nat) (s : State) : Prop :=
  exists n : N,
    objCount s = inject_Z (Z.of_N n) /\
    (n <= N.of_nat bound)%N /\
    (Z.of_N n <= 2 ^ 53)%Z /\
    ((Z.of_N n < 2 ^ 53)%Z -> idInvariant s).

(** A tailed and a tailless circle on the target line of the first column
    at the same time, with the tail of the first. *)
Definition chordState : State :=
  comboState
    [sampleCircle 7 "20%" 350 true; sampleCircle 8 "20%" 350 false]
    [sampleTail 7 "20%" 350 (-50) false; sampleTail 5 "40%" 100 (-300) false]
    [].

(** ** Entities at integer heights *)

(** The circle [c] at height [z]. *)
Definition circleAt (c : Circle) (z : Z) : Circle := setCy (inject_Z z) c.

(** The background circle [b] at height [z]. *)
Definition bgCircleAt (b : BgCircle) (z : Z) : BgCircle := setCy (inject_Z z) b.

(** The height of a background circle, when it is an integer. *)
Definition bgHeight (b : BgCircle) : Z := Qfloor (BgCircle.cy b).

(** The background circles all sit at integer heights (as those created by
    [CreateBgCircle] and [generateRandomNote] do) above [-2^52]. *)
Definition bgIntegerHeights (l : list BgCircle) : Prop :=
  forall b, In b l ->
    BgCircle.cy b = inject_Z (bgHeight b) /\ (- 2 ^ 52 < bgHeight b)%Z.

(** A state with one scripted background circle at the top and, after a
    stray key press, a filler on the target line. *)
Definition fillerState : State :=
  PressKey.apply KeyH (CreateBgCircle.apply ambientNote initialState).

(** ** The pitch range of a song ([src/main.ts]) *)

(** [Math.min(...l)] and [Math.max(...l)] on numbers; on the empty list
    they are [Infinity] and [-Infinity], which are not numbers of the
    model: [None]. *)
Fixpoint Math_min (l : list num) : option num :=
  match l with
  | [] => None
  | x :: r =>
      match Math_min r with
      | None => Some x
      | Some m => Some (if Qle_bool x m then x else m)
      end
  end.

Fixpoint Math_max (l : list num) : option num :=
  match l with
  | [] => None
  | x :: r =>
      match Math_max r with
      | None => Some x
      | Some m => Some (if Qle_bool m x then x else m)
      end
  end.

(** [pitches] in [main]: the pitches of the user-played notes. *)
Definition pitches (arrayOfNoteData : list NoteData) : list num :=
  map pitch (filter userPlayed arrayOfNoteData).

(** A song with a user-played note on each boundary of the four bins. *)
Definition sampleSong : list NoteData :=
  [shortNote; longNote; ambientNote;
   {| userPlayed := true; instrumentName := "piano"; velocity := 70;
      pitch := 80; start := 3; end_ := rnd (35 # 10) |}].

(** ** Tails at integer heights *)

(** The tail [t] after a tick, with its ends at heights [y1] and [y2]. *)
Definition tailAt (t : Tail) (y1 y2 : Z) : Tail :=
  Tick.setY (inject_Z y1) (inject_Z y2) (Tick.clearStartNote t).

(** * Properties *)

(** ** Facts about the binary64 model *)

Module Float64Facts.

Lemma pow2_pos k : 0 < pow2 k.
Proof. apply Qpower_0_lt. reflexivity. Qed.

Lemma pow2_add a b : pow2 (a + b) == pow2 a * pow2 b.
Proof. apply Qpower_plus. discriminate. Qed.

Lemma pow2_Z k : (0 <= k)%Z -> pow2 k == inject_Z (2 ^ k).
Proof. intros H. unfold pow2. now rewrite Zpower_Qpower. Qed.

Lemma pow2_le a b : (a <= b)%Z -> pow2 a <= pow2 b.
Proof. intros H. apply Qpower_le_compat_l; [exact H | discriminate]. Qed.

Lemma pow2_lt_inv a b : pow2 a < pow2 b -> (a < b)%Z.
Proof. intros H. apply (Qpower_lt_compat_l_inv (2#1)); [exact H | reflexivity]. Qed.

Lemma pow2_half k : pow2 (k - 1) == pow2 k * (1 # 2).
Proof. unfold Z.sub. rewrite pow2_add. reflexivity. Qed.

(** The exponent found by [ilog2] is not too large. *)
Lemma ilog2_lower q : ~ q == 0 -> pow2 (ilog2 q) <= Qabs q.
Proof.
  intros Hq. unfold ilog2.
  set (n := Z.abs (Qnum q)). set (d := Zpos (Qden q)).
  destruct (Qle_bool _ _) eqn:E; [now apply Qle_bool_iff|]. clear E.
  assert (Hn : (0 < n)%Z).
  { unfold n. destruct q as [[|p|p] dq]; simpl; try lia.
    exfalso; apply Hq; reflexivity. }
  assert (Hd : (0 < d)%Z) by (unfold d; lia).
  pose proof (Z.log2_spec n Hn) as [Hn1 _].
  pose proof (Z.log2_spec d Hd) as [_ Hd2].
  pose proof (Z.log2_nonneg n) as Hln. pose proof (Z.log2_nonneg d) as Hld.
  replace (Z.log2 n - Z.log2 d - 1)%Z
    with (Z.log2 n + - Z.succ (Z.log2 d))%Z by lia.
  rewrite pow2_add. unfold pow2 at 2. rewrite Qpower_opp.
  fold (pow2 (Z.succ (Z.log2 d))).
  rewrite !pow2_Z by lia.
  assert (HA : Qabs q == inject_Z n / inject_Z d).
  { destruct q as [qn qd]. unfold n, d. simpl. apply Qmake_Qdiv. }
  rewrite HA.
  assert (H1 : inject_Z (2 ^ Z.log2 n) <= inject_Z n)
    by (rewrite <- Zle_Qle; exact Hn1).
  assert (H2 : inject_Z d <= inject_Z (2 ^ Z.succ (Z.log2 d)))
    by (rewrite <- Zle_Qle; lia).
  assert (H3 : 0 < inject_Z d)
    by (change 0 with (inject_Z 0); rewrite <- Zlt_Qlt; lia).
  assert (H4 : 0 < inject_Z (2 ^ Z.log2 n)).
  { change 0 with (inject_Z 0); rewrite <- Zlt_Qlt.
    apply Z.pow_pos_nonneg; lia. }
  apply Qle_shift_div_l; [exact H3|].
  rewrite <- Qmult_assoc, (Qmult_comm (/ _)), Qmult_assoc.
  apply Qle_shift_div_r; [lra|].
  apply Qmult_le_compat_nonneg; split; lra.
Qed.

(** and not too small: [ilog2 q] is the binary exponent of [q]. *)
Lemma ilog2_upper q : ~ q == 0 -> Qabs q < pow2 (ilog2 q + 1).
Proof.
  intros Hq. unfold ilog2.
  set (n := Z.abs (Qnum q)). set (d := Zpos (Qden q)).
  destruct (Qle_bool _ _) eqn:E.
  - clear E.
    assert (Hn : (0 < n)%Z).
    { unfold n. destruct q as [[|p|p] dq]; simpl; try lia.
      exfalso; apply Hq; reflexivity. }
    assert (Hd : (0 < d)%Z) by (unfold d; lia).
    pose proof (Z.log2_spec n Hn) as [_ Hn2].
    pose proof (Z.log2_spec d Hd) as [Hd1 _].
    pose proof (Z.log2_nonneg n) as Hln. pose proof (Z.log2_nonneg d) as Hld.
    replace (Z.log2 n - Z.log2 d + 1)%Z
      with (Z.succ (Z.log2 n) + - Z.log2 d)%Z by lia.
    rewrite pow2_add. unfold pow2 at 2. rewrite Qpower_opp.
    fold (pow2 (Z.log2 d)). rewrite !pow2_Z by lia.
    assert (HA : Qabs q == inject_Z n / inject_Z d).
    { destruct q as [qn qd]. unfold n, d. simpl. apply Qmake_Qdiv. }
    rewrite HA.
    assert (H1 : inject_Z n < inject_Z (2 ^ Z.succ (Z.log2 n)))
      by (rewrite <- Zlt_Qlt; exact Hn2).
    assert (H2 : inject_Z (2 ^ Z.log2 d) <= inject_Z d)
      by (rewrite <- Zle_Qle; exact Hd1).
    assert (H3 : 0 < inject_Z d)
      by (change 0 with (inject_Z 0); rewrite <- Zlt_Qlt; lia).
    assert (H4 : 0 < inject_Z (2 ^ Z.log2 d)).
    { change 0 with (inject_Z 0); rewrite <- Zlt_Qlt.
      apply Z.pow_pos_nonneg; lia. }
    assert (H5 : 0 < inject_Z n)
      by (change 0 with (inject_Z 0); rewrite <- Zlt_Qlt; lia).
    apply Qlt_shift_div_r; [exact H3|].
    rewrite <- Qmult_assoc, (Qmult_comm (/ _)), Qmult_assoc.
    apply Qlt_shift_div_l; [exact H4|].
    apply Qle_lt_trans with (inject_Z n * inject_Z d).
    + apply Qmult_le_l; [exact H5 | exact H2].
    + apply Qmult_lt_r; [exact H3 | exact H1].
  - replace (Z.log2 n - Z.log2 d - 1 + 1)%Z with (Z.log2 n - Z.log2 d)%Z by lia.
    apply Qnot_le_lt. intros H. apply Qle_bool_iff in H. congruence.
Qed.

Lemma ilog2_lt q n : ~ q == 0 -> Qabs q < pow2 n -> (ilog2 q < n)%Z.
Proof.
  intros Hq H. apply pow2_lt_inv.
  eapply Qle_lt_trans; [apply ilog2_lower; exact Hq | exact H].
Qed.

Lemma roundHalfEven_comp x y : x == y -> roundHalfEven x = roundHalfEven y.
Proof.
  intros H. unfold roundHalfEven. rewrite (Qfloor_comp _ _ H).
  assert (E : Qcompare (x - inject_Z (Qfloor y)) (1 # 2)
              = Qcompare (y - inject_Z (Qfloor y)) (1 # 2)).
  { apply Qcompare_comp; [rewrite H|]; reflexivity. }
  now rewrite E.
Qed.

Lemma roundHalfEven_Z z : roundHalfEven (inject_Z z) = z.
Proof.
  unfold roundHalfEven. rewrite Qfloor_Z.
  replace (Qcompare _ _) with Lt; [reflexivity|].
  symmetry. apply Qlt_alt.
  assert (E : inject_Z z - inject_Z z == 0) by ring.
  rewrite E. reflexivity.
Qed.

Lemma roundHalfEven_err x : Qabs (inject_Z (roundHalfEven x) - x) <= 1 # 2.
Proof.
  pose proof (Qfloor_le x) as H1. pose proof (Qlt_floor x) as H2.
  rewrite inject_Z_plus in H2. change (inject_Z 1) with 1 in H2.
  apply Qabs_Qle_condition. unfold roundHalfEven.
  destruct (Qcompare _ _) eqn:E.
  - apply Qeq_alt in E.
    destruct (Z.even _);
      [|rewrite inject_Z_plus; change (inject_Z 1) with 1]; lra.
  - apply Qlt_alt in E. lra.
  - apply Qgt_alt in E. rewrite inject_Z_plus; change (inject_Z 1) with 1. lra.
Qed.

Lemma Qred_inject_Z z : Qred (inject_Z z) = inject_Z z.
Proof. apply Qred_identity. simpl. apply Z.gcd_1_r. Qed.

(** Equal numbers round to the same representation. *)
Lemma rnd_comp q q' : q == q' -> rnd q = rnd q'.
Proof. intros H. unfold rnd. now rewrite (Qred_complete _ _ H). Qed.

Lemma rndReduced_correct q : ~ q == 0 ->
  rndReduced q
  == inject_Z (roundHalfEven (q / pow2 (ulpExp q))) * pow2 (ulpExp q).
Proof.
  intros Hq. unfold rndReduced. destruct (Qeq_bool q 0) eqn:E.
  - apply Qeq_bool_iff in E. contradiction.
  - apply Qred_correct.
Qed.

Lemma rndReduced_int q z :
  (Z.abs z < 2 ^ 53)%Z -> q == inject_Z z -> rndReduced q = inject_Z z.
Proof.
  intros Hz Hq. unfold rndReduced. destruct (Qeq_bool q 0) eqn:E.
  - apply Qeq_bool_iff in E. rewrite Hq in E.
    apply (proj1 (inject_Z_injective z 0)) in E. now subst.
  - apply Qeq_bool_neq in E.
    assert (Hs : (ulpExp q <= 0)%Z).
    { unfold ulpExp. assert (ilog2 q < 53)%Z; [|lia].
      apply ilog2_lt; [exact E|]. rewrite Hq.
      rewrite pow2_Z by (apply Z.leb_le; reflexivity).
      change (Qabs (inject_Z z)) with (inject_Z (Z.abs z)).
      rewrite <- Zlt_Qlt. exact Hz. }
    set (s := ulpExp q) in *.
    assert (Hinv : pow2 (- s) == / pow2 s) by apply Qpower_opp.
    pose proof (pow2_pos s) as Hpos.
    assert (Hd : q / pow2 s == inject_Z (z * 2 ^ (- s))).
    { rewrite inject_Z_mult, <- pow2_Z by lia. rewrite Hinv, Hq. reflexivity. }
    rewrite (roundHalfEven_comp _ _ Hd), roundHalfEven_Z.
    transitivity (Qred (inject_Z z)); [apply Qred_complete | apply Qred_inject_Z].
    rewrite inject_Z_mult, <- pow2_Z by lia. rewrite Hinv. field. lra.
Qed.

(** Integers below 2^53 in magnitude are binary64 values: rounding keeps
    them. *)
Lemma rnd_int q z : (Z.abs z < 2 ^ 53)%Z -> q == inject_Z z -> rnd q = inject_Z z.
Proof.
  intros Hz Hq. unfold rnd. apply rndReduced_int; [exact Hz|].
  transitivity q; [apply Qred_correct | exact Hq].
Qed.

Lemma rndReduced_err q n : (-1021 <= n)%Z -> Qabs q < pow2 n ->
  Qabs (rndReduced q - q) <= pow2 (n - 54).
Proof.
  intros Hn Hq. destruct (Qeq_dec q 0) as [E|E].
  - assert (rndReduced q = 0) as ->.
    { unfold rndReduced. apply Qeq_bool_iff in E. now rewrite E. }
    rewrite E. pose proof (pow2_pos (n - 54)). simpl. lra.
  - rewrite (rndReduced_correct q E).
    assert (Hs : (ulpExp q - 1 <= n - 54)%Z).
    { unfold ulpExp. pose proof (ilog2_lt q n E Hq). lia. }
    apply pow2_le in Hs. rewrite pow2_half in Hs.
    set (s := ulpExp q) in *. set (x := q / pow2 s).
    pose proof (roundHalfEven_err x) as Hr. pose proof (pow2_pos s) as Hp.
    assert (Hx : q == x * pow2 s) by (unfold x; field; lra).
    apply Qabs_Qle_condition in Hr. apply Qabs_Qle_condition.
    set (r := inject_Z (roundHalfEven x)) in *.
    clearbody r x s. rewrite Hx. destruct Hr as [Hr1 Hr2]. split; nra.
Qed.

(** Rounding moves a number of magnitude below [2^n] by at most half a unit
    in the last place, [2^(n-54)]. *)
Lemma rnd_err q n : (-1021 <= n)%Z -> Qabs q < pow2 n ->
  Qabs (rnd q - q) <= pow2 (n - 54).
Proof.
  intros Hn Hq. unfold rnd.
  pose proof (Qred_correct q) as Hr.
  assert (E : rndReduced (Qred q) - q == rndReduced (Qred q) - Qred q)
    by (apply Qplus_comp; [reflexivity | apply Qopp_comp; symmetry; exact Hr]).
  rewrite E. apply rndReduced_err; [exact Hn|].
  eapply Qle_lt_trans; [|exact Hq]. rewrite Hr. apply Qle_refl.
Qed.

End Float64Facts.
Import Float64Facts.

(** ** List helpers *)

Lemma length_zero_nil {A : Type} (l : list A) :
  Nat.eqb (List.length l) 0 = true <-> l = [].
Proof. destruct l; simpl; split; intros H; congruence. Qed.

Lemma filter_all {A : Type} (f : A -> bool) (l : list A) :
  (forall x, In x l -> f x = true) -> filter f l = l.
Proof.
  induction l as [|x l IH]; simpl; intros H; [reflexivity|].
  rewrite (H x (or_introl eq_refl)). f_equal. apply IH. auto.
Qed.

Lemma filter_none {A : Type} (f : A -> bool) (l : list A) :
  (forall x, In x l -> f x = false) -> filter f l = [].
Proof.
  induction l as [|x l IH]; simpl; intros H; [reflexivity|].
  rewrite (H x (or_introl eq_refl)). apply IH. auto.
Qed.

Lemma filter_some {A : Type} (f : A -> bool) (l : list A) (x : A) :
  In x l -> f x = true -> Nat.ltb 0 (List.length (filter f l)) = true.
Proof.
  intros Hin Hf. assert (H : In x (filter f l)) by (apply filter_In; auto).
  destruct (filter f l); [contradiction | reflexivity].
Qed.

Lemma app_one_neq {A : Type} (l : list A) (x : A) : l ++ [x] <> l.
Proof.
  intros H. apply (f_equal (@List.length A)) in H.
  rewrite length_app in H. simpl in H. lia.
Qed.

(** ** The reducer *)

Lemma reduceState_running (s : State) (a : Action) :
  gameEnd s = false -> reduceState s a = apply a s.
Proof. intros H. unfold reduceState. now rewrite H. Qed.

(** C1. Once [gameEnd] is true the reducer returns the state it was given,
    whatever the action; the test reads the state before the action, so the
    end-of-game snapshot survives any further sequence of actions. *)
Theorem reduceState_gameEnd_stable (s : State) (a : Action) :
  gameEnd s = true ->
  reduceState s a = s /\ forall actions, fold_left reduceState actions s = s.
Proof.
  intros H.
  assert (H1 : forall b, reduceState s b = s)
    by (intros b; unfold reduceState; now rewrite H).
  split; [apply H1|].
  induction actions as [|b actions IH]; simpl; [reflexivity|].
  now rewrite H1.
Qed.

Lemma reduceState_gameEnd_stable_witness :
  gameEnd (EndGame.apply initialState) = true /\
  reduceState (EndGame.apply initialState) (PressKey KeyH)
  = EndGame.apply initialState.
Proof.
  split; [reflexivity|].
  apply (reduceState_gameEnd_stable (EndGame.apply initialState) (PressKey KeyH)).
  reflexivity.
Defined.

(** ** Misses *)

Lemma updateHitsAndMultiplier_miss h extra :
  updateHitsAndMultiplier true h extra
  = (Constants.BASE_CONSECUTIVE_HITS, Constants.BASE_MULTIPLIER).
Proof. reflexivity. Qed.

Lemma filter_map_same {A : Type} (f : A -> bool) (g : A -> A) (l : list A) :
  (forall x, f (g x) = f x) -> filter f (map g l) = map g (filter f l).
Proof.
  intros H. induction l as [|x l IH]; simpl; [reflexivity|].
  rewrite H. destruct (f x); simpl; now rewrite IH.
Qed.

(** What [PressKey] does when no circle is aligned in the column. *)
Lemma PressKey_miss key s :
  filter (fun c => isCircleAligned c (keyToColumn key)) (circles s) = [] ->
  let s' := PressKey.apply key s in
  consecutiveHits s' = 0 /\ multiplier s' = 1 /\
  randomNumber s' = RNG.hash (randomNumber s) /\
  backgroundCircles s'
  = backgroundCircles s ++ [generateRandomNote (RNG.hash (randomNumber s))].
Proof.
  intros H. unfold PressKey.apply, initialisePressAndHoldKey. simpl.
  rewrite H. simpl. repeat split; reflexivity.
Qed.

(** What [ReleaseKey] does when it goes past its guard and no released tail
    has its end in the window. *)
Lemma ReleaseKey_miss key s :
  ReleaseKey.playedTailsOf (keyToColumn key) s <> [] \/ finishedTails s <> [] ->
  (forall t, In t (ReleaseKey.playedTailsOf (keyToColumn key) s) ->
             isTailEndAligned t (keyToColumn key) = false) ->
  let s' := ReleaseKey.apply key s in
  consecutiveHits s' = 0 /\ multiplier s' = 1 /\
  randomNumber s' = RNG.hash (randomNumber s) /\
  backgroundCircles s'
  = backgroundCircles s ++ [generateRandomNote (RNG.hash (randomNumber s))].
Proof.
  intros Hguard Hna. unfold ReleaseKey.apply.
  set (cx := keyToColumn key) in *.
  set (pts := ReleaseKey.playedTailsOf cx s) in *.
  assert (G : Nat.eqb (List.length pts) 0
              && Nat.eqb (List.length (finishedTails s)) 0 = false).
  { apply andb_false_iff.
    destruct Hguard as [Hg|Hg]; [left|right];
      (apply not_true_is_false; intros E; apply length_zero_nil in E;
       contradiction). }
  rewrite G.
  rewrite (filter_map_same (fun t => isTailEndAligned t cx)
             (fun t => setPlayed (if isTailEndAligned t cx then true else false)
                         (Tail.isStartNote t) t)) by reflexivity.
  rewrite (filter_none _ pts Hna). simpl. repeat split; reflexivity.
Qed.

(** What [Tick] does when some circle is past the window. *)
Lemma Tick_miss elapsed s c :
  In c (circles s) -> Tick.isMissed c = true ->
  let s' := Tick.apply elapsed s in
  consecutiveHits s' = 0 /\ multiplier s' = 1 /\
  randomNumber s' = randomNumber s /\
  backgroundCircles s'
  = filter (fun b => leb (BgCircle.cy b) Constants.TARGET_CY)
      (map Tick.moveCircle (backgroundCircles s)).
Proof.
  intros Hin Hm. unfold Tick.apply.
  rewrite (filter_some Tick.isMissed (circles s) c Hin Hm).
  simpl. repeat split; reflexivity.
Qed.

(** C3. Every path that computes [isMiss = true] leaves
    [consecutiveHits = 0] and [multiplier = 1], whatever they were before:
    [updateHitsAndMultiplier] itself, [PressKey] with no aligned circle,
    [ReleaseKey] (past its guard) with no aligned played tail, and [Tick]
    with a missed circle. *)
Theorem miss_resets_combo :
  (forall h extra : num, updateHitsAndMultiplier true h extra = (0, 1)) /\
  (forall key s,
     filter (fun c => isCircleAligned c (keyToColumn key)) (circles s) = [] ->
     consecutiveHits (PressKey.apply key s) = 0 /\
     multiplier (PressKey.apply key s) = 1) /\
  (forall key s,
     ReleaseKey.playedTailsOf (keyToColumn key) s <> [] \/ finishedTails s <> [] ->
     (forall t, In t (ReleaseKey.playedTailsOf (keyToColumn key) s) ->
                isTailEndAligned t (keyToColumn key) = false) ->
     consecutiveHits (ReleaseKey.apply key s) = 0 /\
     multiplier (ReleaseKey.apply key s) = 1) /\
  (forall elapsed s c,
     In c (circles s) -> Tick.isMissed c = true ->
     consecutiveHits (Tick.apply elapsed s) = 0 /\
     multiplier (Tick.apply elapsed s) = 1).
Proof.
  split; [reflexivity|]. split; [|split].
  - intros key s H. destruct (PressKey_miss key s H) as (H1 & H2 & _). auto.
  - intros key s Hg Hna.
    destruct (ReleaseKey_miss key s Hg Hna) as (H1 & H2 & _). auto.
  - intros elapsed s c Hin Hm.
    destruct (Tick_miss elapsed s c Hin Hm) as (H1 & H2 & _). auto.
Qed.

Lemma miss_resets_combo_witness :
  (consecutiveHits (PressKey.apply KeyJ (comboState [] [] [])) = 0 /\
   multiplier (PressKey.apply KeyJ (comboState [] [] [])) = 1) /\
  (consecutiveHits
     (ReleaseKey.apply KeyH
        (comboState [] [sampleTail 7 "20%" 350 300 true] [])) = 0 /\
   multiplier
     (ReleaseKey.apply KeyH
        (comboState [] [sampleTail 7 "20%" 350 300 true] [])) = 1) /\
  (consecutiveHits
     (Tick.apply 0 (comboState [sampleCircle 3 "60%" 371 false] [] [])) = 0 /\
   multiplier
     (Tick.apply 0 (comboState [sampleCircle 3 "60%" 371 false] [] [])) = 1).
Proof.
  destruct miss_resets_combo as (_ & HP & HR & HT).
  split; [|split].
  - apply HP. reflexivity.
  - apply HR.
    + left. discriminate.
    + intros t [<-|[]]. reflexivity.
  - apply (HT 0 _ (sampleCircle 3 "60%" 371 false)).
    + left. reflexivity.
    + reflexivity.
Defined.

(** C9. When no tail of the released column is being played but
    [finishedTails] is not empty, [ReleaseKey] goes past its guard and
    counts a miss: combo and multiplier are reset, the seed is rehashed and
    one filler circle is appended, so the state changes although the tail
    in [finishedTails] was completed. *)
Theorem ReleaseKey_after_finished_tail_is_miss (key : ColumnKey) (s : State) :
  (forall t, In t (tails s) -> Tail.x1 t = keyToColumn key ->
             Tail.isPlayed t = false) ->
  finishedTails s <> [] ->
  let s' := ReleaseKey.apply key s in
  s' <> s /\
  consecutiveHits s' = 0 /\
  multiplier s' = 1 /\
  randomNumber s' = RNG.hash (randomNumber s) /\
  backgroundCircles s'
  = backgroundCircles s ++ [generateRandomNote (RNG.hash (randomNumber s))].
Proof.
  intros Hnone Hfin.
  assert (Hp : ReleaseKey.playedTailsOf (keyToColumn key) s = []).
  { unfold ReleaseKey.playedTailsOf. apply filter_none.
    intros t Ht. apply filter_In in Ht. destruct Ht as [Ht Hplayed].
    destruct (String.eqb_spec (Tail.x1 t) (keyToColumn key)) as [E|E];
      [|reflexivity].
    rewrite (Hnone t Ht E) in Hplayed. discriminate. }
  destruct (ReleaseKey_miss key s) as (H1 & H2 & H3 & H4).
  - right. exact Hfin.
  - rewrite Hp. intros t [].
  - cbv zeta. repeat split; try assumption.
    intros E. rewrite E in H4. symmetry in H4.
    exact (app_one_neq _ _ H4).
Qed.

Lemma ReleaseKey_after_finished_tail_is_miss_witness :
  let s := comboState [] [sampleTail 5 "40%" 200 100 false]
             [sampleTail 4 "20%" 350 350 true] in
  ReleaseKey.apply KeyH s <> s /\
  consecutiveHits (ReleaseKey.apply KeyH s) = 0 /\
  multiplier (ReleaseKey.apply KeyH s) = 1 /\
  randomNumber (ReleaseKey.apply KeyH s) = RNG.hash (randomNumber s) /\
  backgroundCircles (ReleaseKey.apply KeyH s)
  = backgroundCircles s ++ [generateRandomNote (RNG.hash (randomNumber s))].
Proof.
  apply (ReleaseKey_after_finished_tail_is_miss KeyH
           (comboState [] [sampleTail 5 "40%" 200 100 false]
              [sampleTail 4 "20%" 350 350 true])).
  - intros t [<-|[]] E. reflexivity.
  - discriminate.
Defined.

(** C10. A [Tick] that finds a missed circle resets the combo but leaves
    the seed alone and adds no filler: the background circles are the
    previous ones, moved and filtered.  A miss found by [PressKey] or by
    [ReleaseKey] rehashes the seed and appends a filler. *)
Theorem Tick_miss_adds_no_filler (elapsed : num) (s : State) (c : Circle) :
  In c (circles s) ->
  fadd Constants.TARGET_CY Constants.TARGET_RANGE < Circle.cy c ->
  (let s' := Tick.apply elapsed s in
   consecutiveHits s' = 0 /\
   multiplier s' = 1 /\
   randomNumber s' = randomNumber s /\
   backgroundCircles s'
   = filter (fun b => leb (BgCircle.cy b) Constants.TARGET_CY)
       (map Tick.moveCircle (backgroundCircles s))) /\
  (forall key,
     filter (fun c => isCircleAligned c (keyToColumn key)) (circles s) = [] ->
     let s' := PressKey.apply key s in
     randomNumber s' = RNG.hash (randomNumber s) /\
     backgroundCircles s'
     = backgroundCircles s ++ [generateRandomNote (RNG.hash (randomNumber s))]) /\
  (forall key,
     ReleaseKey.playedTailsOf (keyToColumn key) s <> [] \/ finishedTails s <> [] ->
     (forall t, In t (ReleaseKey.playedTailsOf (keyToColumn key) s) ->
                isTailEndAligned t (keyToColumn key) = false) ->
     let s' := ReleaseKey.apply key s in
     randomNumber s' = RNG.hash (randomNumber s) /\
     backgroundCircles s'
     = backgroundCircles s ++ [generateRandomNote (RNG.hash (randomNumber s))]).
Proof.
  intros Hin Hpast. split; [|split].
  - apply (Tick_miss elapsed s c Hin).
    unfold Tick.isMissed, gtb.
    destruct (Qle_bool _ _) eqn:E; [|reflexivity].
    apply Qle_bool_iff in E. exfalso. exact (Qlt_not_le _ _ Hpast E).
  - intros key H. destruct (PressKey_miss key s H) as (_ & _ & H3 & H4). auto.
  - intros key Hg Hna.
    destruct (ReleaseKey_miss key s Hg Hna) as (_ & _ & H3 & H4). auto.
Qed.

Lemma Tick_miss_adds_no_filler_witness :
  let s := comboState [sampleCircle 3 "60%" 371 false] [] [] in
  consecutiveHits (Tick.apply 0 s) = 0 /\
  multiplier (Tick.apply 0 s) = 1 /\
  randomNumber (Tick.apply 0 s) = randomNumber s /\
  backgroundCircles (Tick.apply 0 s) = [].
Proof.
  destruct (Tick_miss_adds_no_filler 0
              (comboState [sampleCircle 3 "60%" 371 false] [] [])
              (sampleCircle 3 "60%" 371 false)) as [H _].
  - left. reflexivity.
  - vm_compute. reflexivity.
  - exact H.
Defined.

(** ** Background circles *)

Lemma generateRandomNote_cy (seed : num) :
  BgCircle.cy (generateRandomNote seed) = Constants.TARGET_CY.
Proof. reflexivity. Qed.

(** C5 fails as stated: the circle appended by [CreateBgCircle] is not at
    the target row. *)
Lemma CreateBgCircle_not_at_target :
  ~ (exists b,
       backgroundCircles (CreateBgCircle.apply ambientNote initialState)
       = backgroundCircles initialState ++ [b] /\
       BgCircle.cy b == Constants.TARGET_CY).
Proof.
  intros (b & H & Hcy). simpl in H. injection H as <-.
  simpl in Hcy. discriminate Hcy.
Qed.

(** C5, amended. [CreateBgCircle] appends exactly one background circle,
    placed at the top of the board ([START_CY], not [TARGET_CY]) and
    carrying the note, and changes no other field; the circles placed at
    [TARGET_CY] are the fillers built by [generateRandomNote]. *)
Theorem CreateBgCircle_appends_at_start (s : State) (n : NoteData) :
  let s' := CreateBgCircle.apply n s in
  backgroundCircles s'
  = backgroundCircles s
    ++ [{| BgCircle.cy := Note.START_CY; BgCircle.note := n |}] /\
  ~ Note.START_CY == Constants.TARGET_CY /\
  (forall seed, BgCircle.cy (generateRandomNote seed) = Constants.TARGET_CY) /\
  circles s' = circles s /\
  playedCircles s' = playedCircles s /\
  tails s' = tails s /\
  finishedTails s' = finishedTails s /\
  exit s' = exit s /\
  objCount s' = objCount s /\
  score s' = score s /\
  consecutiveHits s' = consecutiveHits s /\
  multiplier s' = multiplier s /\
  randomNumber s' = randomNumber s /\
  gameEnd s' = gameEnd s.
Proof.
  cbv zeta. split; [reflexivity|]. split; [discriminate|].
  repeat split; reflexivity.
Qed.

(** ** Clean hit *)

(** C4 fails as stated: on the tenth hit in a row the score grows by
    [10 * 1.2], not by 10 times the multiplier of the state before. *)
Lemma PressKey_tenth_hit_uses_new_multiplier :
  filter (fun c => isCircleAligned c "20%") (circles tenthHitState)
  = [sampleCircle 9 "20%" 350 false] /\
  score (PressKey.apply KeyH tenthHitState) - score tenthHitState == 12 /\
  ~ score (PressKey.apply KeyH tenthHitState) - score tenthHitState
    == 10 * multiplier tenthHitState.
Proof.
  split; [vm_compute; reflexivity|].
  split; [vm_compute; reflexivity | vm_compute; discriminate].
Qed.

(** C4, amended. With exactly one circle aligned in column "20%" and that
    circle tailless, [PressKey KeyH] adds [10 * newMultiplier] to the score,
    where [newMultiplier] is the multiplier for [consecutiveHits + 1] (the
    one stored in the resulting state), moves the circle to [playedCircles]
    and removes it from [circles]. *)
Theorem PressKey_clean_hit (s : State) (c : Circle) :
  filter (fun x => isCircleAligned x "20%") (circles s) = [c] ->
  Circle.hasTail c = false ->
  let s' := PressKey.apply KeyH s in
  let newMultiplier := calculateNewMultiplier (fadd (consecutiveHits s) 1) in
  score s' = fadd (score s) (fmul 10 newMultiplier) /\
  multiplier s' = newMultiplier /\
  consecutiveHits s' = fadd (consecutiveHits s) 1 /\
  playedCircles s' = [c] /\
  circles s' = filter (fun x => negb (isCircleAligned x "20%")) (circles s) /\
  ~ In c (circles s').
Proof.
  intros Hone Htail. cbv zeta.
  assert (Hal : isCircleAligned c "20%" = true).
  { assert (Hin : In c (filter (fun x => isCircleAligned x "20%") (circles s)))
      by (rewrite Hone; left; reflexivity).
    apply filter_In in Hin. tauto. }
  unfold PressKey.apply, initialisePressAndHoldKey. simpl.
  rewrite Hone. simpl. rewrite Htail. simpl.
  repeat split.
  intros Hin. apply filter_In in Hin. destruct Hin as [_ Hn].
  rewrite Hal in Hn. discriminate.
Qed.

Lemma PressKey_clean_hit_witness :
  score (PressKey.apply KeyH tenthHitState)
  = fadd (score tenthHitState)
      (fmul 10 (calculateNewMultiplier (fadd (consecutiveHits tenthHitState) 1))) /\
  playedCircles (PressKey.apply KeyH tenthHitState)
  = [sampleCircle 9 "20%" 350 false] /\
  circles (PressKey.apply KeyH tenthHitState) = [].
Proof.
  destruct (PressKey_clean_hit tenthHitState (sampleCircle 9 "20%" 350 false))
    as (H1 & _ & _ & H4 & H5 & _).
  - vm_compute. reflexivity.
  - reflexivity.
  - split; [exact H1 | split; [exact H4 | exact H5]].
Defined.

(** ** Held tails under the clock *)

Lemma Tick_elapsed_unused elapsed elapsed' s :
  Tick.apply elapsed s = Tick.apply elapsed' s.
Proof. reflexivity. Qed.

Lemma tails_Tick elapsed s : tails (Tick.apply elapsed s) = tickTails (tails s).
Proof.
  unfold Tick.apply. destruct (updateHitsAndMultiplier _ _ _). reflexivity.
Qed.

Lemma finishedTails_Tick elapsed s :
  finishedTails (Tick.apply elapsed s)
  = filter Tick.isTailFullyPlayed (tails s).
Proof.
  unfold Tick.apply. destruct (updateHitsAndMultiplier _ _ _). reflexivity.
Qed.

Lemma tails_ticks n s : tails (ticks n s) = Nat.iter n tickTails (tails s).
Proof.
  induction n as [|n IH]; [reflexivity|].
  change (ticks (S n) s) with (Tick.apply 0 (ticks n s)).
  rewrite tails_Tick, IH. reflexivity.
Qed.

Lemma finishedTails_ticks n s :
  finishedTails (ticks (S n) s)
  = filter Tick.isTailFullyPlayed (Nat.iter n tickTails (tails s)).
Proof.
  change (ticks (S n) s) with (Tick.apply 0 (ticks n s)).
  rewrite finishedTails_Tick, tails_ticks. reflexivity.
Qed.

Lemma iter_tickTails_nil n : Nat.iter n tickTails [] = [].
Proof. induction n as [|n IH]; simpl; [reflexivity | now rewrite IH]. Qed.

(** With the literal heights [y1 = 100], [y2 = 80] the head is above the
    target line and both ends move: after 20 ticks the tail is at 120 and
    100. *)
Lemma held_tail_100_80_after_20_ticks :
  tails (ticks 20 heldTailState) ++ finishedTails (ticks 20 heldTailState)
  = [Tick.clearStartNote (sampleTail 0 "20%" 120 100 true)].
Proof. vm_compute. reflexivity. Qed.

(** C6 fails as stated: with the head on the target line and the end 20
    units above, the ends meet after 20 ticks, but at that tick the tail is
    still among the active tails and [finishedTails] is empty; the tail is
    finished by tick 21. *)
Lemma held_tail_not_finished_when_ends_meet :
  (exists t, tails (ticks 20 heldAtTargetState) = [t] /\
             Tail.y1 t = 350 /\ Tail.y2 t = 350) /\
  finishedTails (ticks 20 heldAtTargetState) = [] /\
  (exists t, finishedTails (ticks 21 heldAtTargetState) = [t] /\
             Tail.y1 t = 350 /\ Tail.y2 t = 350).
Proof.
  vm_compute. split; [|split; [reflexivity|]];
    eexists; repeat split; reflexivity.
Qed.

(** From [y1 = 100], [y2 = 80] the two ends meet after 270 ticks, and the
    tick after that one finishes the tail. *)
Lemma held_tail_100_80_done_after_270_ticks :
  tails (ticks 20 heldTailState)
  = [Tick.clearStartNote (sampleTail 0 "20%" 120 100 true)] /\
  tails (ticks 269 heldTailState)
  = [Tick.clearStartNote (sampleTail 0 "20%" 350 349 true)] /\
  tails (ticks 270 heldTailState)
  = [Tick.clearStartNote (sampleTail 0 "20%" 350 350 true)] /\
  finishedTails (ticks 270 heldTailState) = [] /\
  finishedTails (ticks 271 heldTailState)
  = [Tick.clearStartNote (sampleTail 0 "20%" 350 350 true)] /\
  tails (ticks 271 heldTailState) = [].
Proof. vm_compute. repeat split; reflexivity. Qed.

Ltac first_ticks n tac :=
  match goal with
  | H : (n <= _)%nat |- _ => repeat (destruct n as [|n]; [tac|]); exfalso; lia
  end.

(** C6, amended. Take a state whose only tail is held
    ([isPlayed = true]) with its head on the target line ([y1 = 350]) and
    its end 20 units above ([y2 = 330]).  Each [Tick] moves only [y2]; the
    ends first meet after exactly 20 ticks, the tail being still active
    then; the following tick, the 21st, puts it in [finishedTails] and
    removes it from [tails], where it never comes back. *)
Theorem held_tail_completes (s : State) (t : Tail) :
  tails s = [t] ->
  Tail.isPlayed t = true ->
  Tail.y1 t = Constants.TARGET_CY ->
  Tail.y2 t = 330 ->
  (forall n, (n <= 20)%nat ->
     exists t', tails (ticks n s) = [t'] /\
                Tail.id t' = Tail.id t /\
                Tail.y1 t' = 350 /\
                Tail.y2 t' = inject_Z (330 + Z.of_nat n)) /\
  (forall n, (1 <= n <= 20)%nat -> finishedTails (ticks n s) = []) /\
  (exists t', finishedTails (ticks 21 s) = [t'] /\
              Tail.id t' = Tail.id t /\
              Tail.y1 t' = 350 /\ Tail.y2 t' = 350) /\
  (forall n, (21 <= n)%nat -> tails (ticks n s) = []) /\
  (forall n, (22 <= n)%nat -> finishedTails (ticks n s) = []).
Proof.
  intros Hs Hp H1 H2. destruct t as [tid tx1 ty1 tx2 ty2 tst tpl tsn tc tcl].
  simpl in Hp, H1, H2. subst tpl ty1 ty2.
  assert (H21 : Nat.iter 21 tickTails (tails s) = []).
  { rewrite Hs. vm_compute. reflexivity. }
  assert (Hlate : forall n, (21 <= n)%nat -> Nat.iter n tickTails (tails s) = []).
  { intros n Hn. replace n with ((n - 21) + 21)%nat by lia.
    rewrite Nat.iter_add, H21. apply iter_tickTails_nil. }
  repeat split.
  - intros n Hn. rewrite tails_ticks, Hs.
    first_ticks n ltac:(vm_compute; eexists; repeat split; reflexivity).
  - intros n [Hn1 Hn]. destruct n as [|n]; [lia|].
    rewrite finishedTails_ticks, Hs. apply le_S_n in Hn.
    first_ticks n ltac:(vm_compute; reflexivity).
  - rewrite finishedTails_ticks, Hs. vm_compute.
    eexists; repeat split; reflexivity.
  - intros n Hn. rewrite tails_ticks. apply Hlate, Hn.
  - intros n Hn. destruct n as [|n]; [lia|].
    rewrite finishedTails_ticks, Hlate by lia. reflexivity.
Qed.

Lemma held_tail_completes_witness :
  let s := comboState [] [sampleTail 0 "20%" 350 330 true] [] in
  (exists t', tails (ticks 20 s) = [t'] /\
              Tail.id t' = "tail0"%string /\
              Tail.y1 t' = 350 /\ Tail.y2 t' = 350) /\
  (exists t', finishedTails (ticks 21 s) = [t'] /\
              Tail.id t' = "tail0"%string /\
              Tail.y1 t' = 350 /\ Tail.y2 t' = 350) /\
  tails (ticks 21 s) = [].
Proof.
  destruct (held_tail_completes
              (comboState [] [sampleTail 0 "20%" 350 330 true] [])
              (sampleTail 0 "20%" 350 330 true))
    as (Ha & _ & Hc & Hd & _); try reflexivity.
  split; [exact (Ha 20%nat (le_n 20)) | split; [exact Hc | exact (Hd 21%nat (le_n 21))]].
Defined.

(** ** The multiplier *)

Lemma Zle_to_Q (a b : Z) : (a <= b)%Z -> inject_Z a <= inject_Z b.
Proof. now rewrite <- Zle_Qle. Qed.

Lemma Zlt_to_Q (a b : Z) : (a < b)%Z -> inject_Z a < inject_Z b.
Proof. now rewrite <- Zlt_Qlt. Qed.

Lemma Qfloor_unique (x : Q) (k : Z) :
  inject_Z k <= x -> x < inject_Z (k + 1) -> Qfloor x = k.
Proof.
  intros H1 H2. pose proof (Qfloor_le x) as H3. pose proof (Qlt_floor x) as H4.
  assert (A : (Qfloor x < k + 1)%Z).
  { rewrite Zlt_Qlt. eapply Qle_lt_trans; eassumption. }
  assert (B : (k < Qfloor x + 1)%Z).
  { rewrite Zlt_Qlt. eapply Qle_lt_trans; eassumption. }
  lia.
Qed.

Lemma pow2_50 : pow2 50 == 1125899906842624.
Proof. reflexivity. Qed.

Lemma pow2_48 : pow2 48 == 281474976710656.
Proof. reflexivity. Qed.

Lemma pow2_m4 : pow2 (50 - 54) == 1 # 16.
Proof. reflexivity. Qed.

Lemma pow2_m6 : pow2 (48 - 54) == 1 # 64.
Proof. reflexivity. Qed.

(** [Math.floor(h / 10)] is the integer quotient for every integer counter
    a number can hold exactly. *)
Lemma floor_div10 (h : Z) :
  (0 <= h < 2 ^ 53)%Z ->
  Math_floor (fdiv (inject_Z h) Constants.HITS_PER_MULTIPLIER_INCREASE)
  = inject_Z (h / 10).
Proof.
  intros Hh. unfold Math_floor, fdiv, Constants.HITS_PER_MULTIPLIER_INCREASE.
  f_equal.
  pose proof (Z.div_mod h 10 ltac:(lia)) as Hdm.
  pose proof (Z.mod_pos_bound h 10 ltac:(lia)) as Hr.
  set (k := (h / 10)%Z) in *. set (r := (h mod 10)%Z) in *.
  unfold Qdiv. change (/ 10) with (1 # 10).
  assert (Hq : inject_Z h * (1 # 10) == inject_Z k + inject_Z r * (1 # 10)).
  { rewrite Hdm, inject_Z_plus, inject_Z_mult. ring. }
  destruct (Z.eq_dec r 0) as [E|E].
  - rewrite (rnd_int _ k); [apply Qfloor_Z | lia |].
    rewrite Hq, E. ring.
  - assert (Hr1 : 1 <= inject_Z r) by (apply (Zle_to_Q 1 r); lia).
    assert (Hr9 : inject_Z r <= 9) by (apply (Zle_to_Q r 9); lia).
    assert (Hk0 : 0 <= inject_Z k) by (apply (Zle_to_Q 0 k); lia).
    assert (Hk : inject_Z h < 9007199254740992)
      by (apply (Zlt_to_Q h 9007199254740992); lia).
    assert (Hh0 : 0 <= inject_Z h) by (apply (Zle_to_Q 0 h); lia).
    pose proof (rnd_err (inject_Z h * (1 # 10)) 50 ltac:(lia)) as He.
    rewrite pow2_50, pow2_m4 in He.
    assert (Hb : Qabs (inject_Z h * (1 # 10)) < 1125899906842624).
    { apply Qabs_Qlt_condition. split; lra. }
    specialize (He Hb). apply Qabs_Qle_condition in He.
    apply Qfloor_unique;
      [|rewrite inject_Z_plus; change (inject_Z 1) with 1]; lra.
Qed.

Lemma MULTIPLIER_INCREASE_value :
  Constants.MULTIPLIER_INCREASE == 3602879701896397 # 18014398509481984.
Proof. vm_compute. reflexivity. Qed.

(** The computed multiplier is the binary64 value nearest to the
    one-decimal number of the formula. *)
Lemma calculateNewMultiplier_nearest (h : Z) :
  (0 <= h < 2 ^ 53)%Z ->
  calculateNewMultiplier (inject_Z h) = rnd (multiplierFor h).
Proof.
  intros Hh. unfold calculateNewMultiplier. rewrite (floor_div10 h Hh).
  set (k := (h / 10)%Z).
  assert (Hk : (0 <= k < 900719925474100)%Z).
  { unfold k. split; [apply Z.div_pos; lia|].
    apply Z.div_lt_upper_bound; lia. }
  assert (Hk0 : 0 <= inject_Z k) by (apply (Zle_to_Q 0 k); lia).
  assert (Hk1 : inject_Z k < 900719925474100)
    by (apply (Zlt_to_Q k 900719925474100); lia).
  pose proof MULTIPLIER_INCREASE_value as Hd.
  set (d := Constants.MULTIPLIER_INCREASE) in *.
  unfold Constants.BASE_MULTIPLIER, fadd, fmul.
  (* the product *)
  pose proof (rnd_err (inject_Z k * d) 48 ltac:(lia)) as Ep.
  rewrite pow2_48, pow2_m6 in Ep.
  assert (Bp : Qabs (inject_Z k * d) < 281474976710656).
  { apply Qabs_Qlt_condition. rewrite Hd. split; lra. }
  specialize (Ep Bp). apply Qabs_Qle_condition in Ep.
  set (p := rnd (inject_Z k * d)) in *.
  (* the sum *)
  pose proof (rnd_err (1 + p) 48 ltac:(lia)) as Ex.
  rewrite pow2_48, pow2_m6 in Ex.
  assert (Bx : Qabs (1 + p) < 281474976710656).
  { apply Qabs_Qlt_condition. rewrite Hd in Ep. split; lra. }
  specialize (Ex Bx). apply Qabs_Qle_condition in Ex.
  set (x := rnd (1 + p)) in *.
  rewrite Hd in Ep.
  assert (Hx : 0 <= x) by lra.
  (* the decimal text *)
  assert (Hn : Qfloor (Qabs x * 10 + (1 # 2)) = (10 + 2 * k)%Z).
  { apply Qfloor_unique; rewrite (Qabs_pos x Hx);
      rewrite ?inject_Z_plus, ?inject_Z_mult;
      change (inject_Z 10) with 10; change (inject_Z 2) with 2;
      change (inject_Z 1) with 1; lra. }
  unfold Number_toFixed1, toFixed1. rewrite Hn.
  assert (Hpos : Qle_bool 0 x = true) by (apply Qle_bool_iff; exact Hx).
  rewrite Hpos. apply rnd_comp.
  unfold multiplierFor, round1. fold k.
  assert (Hm : Qfloor ((1 + inject_Z k * (2 # 10)) * 10 + (1 # 2))
               = (10 + 2 * k)%Z).
  { apply Qfloor_unique;
      rewrite ?inject_Z_plus, ?inject_Z_mult;
      change (inject_Z 10) with 10; change (inject_Z 2) with 2;
      change (inject_Z 1) with 1; lra. }
  rewrite Hm. reflexivity.
Qed.

(** C2, amended. For every non-negative integer [h] below 2^53, the
    multiplier computed for [h] consecutive hits is the number written
    [round(1 + floor(h/10)*0.2, 1)]: the binary64 value nearest to that
    one-decimal number.  In particular it is 1.0 for 0 hits, 1.2 for 10
    hits and 2.8 for 95 hits. *)
Theorem calculateNewMultiplier_formula :
  (forall h : Z, (0 <= h < 2 ^ 53)%Z ->
     calculateNewMultiplier (inject_Z h) = rnd (multiplierFor h)) /\
  calculateNewMultiplier 0 = 1 /\
  calculateNewMultiplier 10 = rnd (12 # 10) /\
  calculateNewMultiplier 95 = rnd (28 # 10).
Proof.
  split; [exact calculateNewMultiplier_nearest|].
  vm_compute. repeat split; reflexivity.
Qed.

Lemma calculateNewMultiplier_formula_witness :
  (0 <= 95 < 2 ^ 53)%Z /\
  calculateNewMultiplier (inject_Z 95) = rnd (multiplierFor 95%Z).
Proof.
  split; [lia|].
  apply (proj1 calculateNewMultiplier_formula 95%Z). lia.
Defined.

(** C2 fails as stated: not every non-negative integer is below 2^53.  At
    [h = 16888602518895960], an integer that a number holds exactly, the
    code computes 337772050377920.3125 and the formula gives the number
    nearest to 337772050377920.2, which is 337772050377920.1875. *)
Lemma calculateNewMultiplier_not_formula_above_2_53 :
  rnd (inject_Z 16888602518895960) = inject_Z 16888602518895960 /\
  calculateNewMultiplier (inject_Z 16888602518895960)
  = 5404352806046725 # 16 /\
  rnd (multiplierFor 16888602518895960) = 5404352806046723 # 16 /\
  calculateNewMultiplier (inject_Z 16888602518895960)
  <> rnd (multiplierFor 16888602518895960).
Proof.
  assert (E1 : calculateNewMultiplier (inject_Z 16888602518895960)
               = 5404352806046725 # 16) by (vm_compute; reflexivity).
  assert (E2 : rnd (multiplierFor 16888602518895960)
               = 5404352806046723 # 16) by (vm_compute; reflexivity).
  split; [vm_compute; reflexivity|]. split; [exact E1|]. split; [exact E2|].
  rewrite E1, E2. discriminate.
Qed.

(** The formula at the quoted numbers of hits: 1, 12/10 and 28/10. *)
Lemma multiplierFor_examples :
  multiplierFor 0 == 1 /\ multiplierFor 10 == 12 # 10 /\
  multiplierFor 95 == 28 # 10.
Proof. vm_compute. repeat split; reflexivity. Qed.

(** ** The random number generator *)

Lemma Qred_to_inject_Z (q : Q) (z : Z) : q == inject_Z z -> Qred q = inject_Z z.
Proof.
  intros H. rewrite <- (Qred_inject_Z z). apply Qred_complete. exact H.
Qed.

(** On non-negative integers [%] is the integer remainder. *)
Lemma fmod_int (w m : Z) :
  (0 <= w)%Z -> (0 < m)%Z ->
  fmod (inject_Z w) (inject_Z m) = inject_Z (w mod m).
Proof.
  intros Hw Hm. unfold fmod, Qtrunc.
  assert (Hq : 0 <= inject_Z w / inject_Z m).
  { apply Qle_shift_div_l.
    - change 0 with (inject_Z 0). rewrite <- Zlt_Qlt. exact Hm.
    - rewrite Qmult_0_l. change 0 with (inject_Z 0).
      rewrite <- Zle_Qle. exact Hw. }
  apply Qle_bool_iff in Hq. rewrite Hq. rewrite <- Zdiv_Qdiv.
  apply Qred_to_inject_Z.
  rewrite Z.mod_eq by lia. unfold Z.sub.
  rewrite inject_Z_plus, inject_Z_opp, inject_Z_mult. ring.
Qed.

(** As long as [a*seed + c] stays below 2^53 nothing is rounded. *)
Lemma hash_int (z : Z) :
  (0 <= z)%Z -> (1103515245 * z + 12345 < 2 ^ 53)%Z ->
  RNG.hash (inject_Z z) = inject_Z ((1103515245 * z + 12345) mod 2 ^ 31).
Proof.
  intros Hz Hb. unfold RNG.hash, RNG.a, RNG.c, RNG.m, fadd, fmul.
  assert (E1 : rnd (1103515245 * inject_Z z) = inject_Z (1103515245 * z)).
  { apply rnd_int; [lia|]. rewrite inject_Z_mult. reflexivity. }
  rewrite E1.
  assert (E2 : rnd (inject_Z (1103515245 * z) + 12345)
               = inject_Z (1103515245 * z + 12345)).
  { apply rnd_int; [lia|]. rewrite inject_Z_plus. reflexivity. }
  rewrite E2. apply fmod_int; lia.
Qed.

Lemma hashExact_int (z : Z) :
  hashExact (inject_Z z) == inject_Z ((1103515245 * z + 12345) mod 2 ^ 31).
Proof.
  unfold hashExact. cbv zeta.
  set (w := (1103515245 * z + 12345)%Z).
  assert (E : 1103515245 * inject_Z z + 12345 == inject_Z w).
  { unfold w. rewrite inject_Z_plus, inject_Z_mult. reflexivity. }
  assert (F : Qfloor ((1103515245 * inject_Z z + 12345) / inject_Z (2 ^ 31))
              = (w / 2 ^ 31)%Z).
  { rewrite Zdiv_Qdiv. apply Qfloor_comp. rewrite E. reflexivity. }
  rewrite F, E, Z.mod_eq by lia. unfold Z.sub.
  rewrite inject_Z_plus, inject_Z_opp, inject_Z_mult. ring.
Qed.

Lemma scaleToRange_comp (seed seed' lo hi : num) :
  seed == seed' -> RNG.scaleToRange seed lo hi = RNG.scaleToRange seed' lo hi.
Proof.
  intros H. unfold RNG.scaleToRange.
  assert (E : fdiv seed (fsub RNG.m 1) = fdiv seed' (fsub RNG.m 1)).
  { unfold fdiv. apply rnd_comp. rewrite H. reflexivity. }
  now rewrite E.
Qed.

Lemma hash_comp (seed seed' : num) :
  seed == seed' -> RNG.hash seed = RNG.hash seed'.
Proof.
  intros H. unfold RNG.hash.
  assert (E : fmul RNG.a seed = fmul RNG.a seed').
  { unfold fmul. apply rnd_comp. rewrite H. reflexivity. }
  now rewrite E.
Qed.

Lemma generateRandomNote_comp (seed seed' : num) :
  seed == seed' -> generateRandomNote seed = generateRandomNote seed'.
Proof.
  intros H. unfold generateRandomNote.
  now rewrite !(scaleToRange_comp seed seed' _ _ H).
Qed.

(** C7 fails as stated: for the seed 2^31 - 1 the product [a * seed] needs
    more than 53 bits, its low bits are rounded away, and [hash] differs
    from the exact remainder. *)
Lemma hash_not_exact :
  RNG.hash 2147483647 == 1043980800 /\
  hashExact 2147483647 == 1043980748 /\
  ~ RNG.hash 2147483647 == hashExact 2147483647.
Proof. vm_compute. repeat split; discriminate. Qed.

(** The same happens in play: the seed after the first miss is
    110363869.5, and the hash of it is not the exact remainder. *)
Lemma hash_not_exact_in_play :
  RNG.hash Constants.STARTING_RANDOM_NUMBER == 220727739 # 2 /\
  ~ RNG.hash (RNG.hash Constants.STARTING_RANDOM_NUMBER)
    == hashExact (RNG.hash Constants.STARTING_RANDOM_NUMBER).
Proof. vm_compute. split; [reflexivity | discriminate]. Qed.

(** C7, amended. [hash(seed)] is [(a*seed + c) % m] in binary64
    arithmetic.  For every integer seed [z >= 0] with [a*z + c < 2^53] it is
    the exact remainder [(1103515245*z + 12345) mod 2^31]; for larger seeds
    the product is rounded first.  [hash] and [generateRandomNote] depend on
    the seed alone: equal seeds give identical results. *)
Theorem hash_exact_in_range :
  (forall z : Z,
     (0 <= z)%Z -> (1103515245 * z + 12345 < 2 ^ 53)%Z ->
     RNG.hash (inject_Z z) = inject_Z ((1103515245 * z + 12345) mod 2 ^ 31) /\
     RNG.hash (inject_Z z) == hashExact (inject_Z z)) /\
  (forall seed : num,
     RNG.hash seed
     = fmod (rnd (rnd (1103515245 * seed) + 12345)) (inject_Z (2 ^ 31))) /\
  (forall seed seed' : num,
     seed == seed' ->
     RNG.hash seed = RNG.hash seed' /\
     generateRandomNote seed = generateRandomNote seed').
Proof.
  split; [|split].
  - intros z Hz Hb. split; [apply hash_int; assumption|].
    rewrite (hash_int z Hz Hb), hashExact_int. reflexivity.
  - reflexivity.
  - intros seed seed' H. split;
      [apply hash_comp | apply generateRandomNote_comp]; exact H.
Qed.

Lemma hash_exact_in_range_witness :
  (0 <= 8000000)%Z /\ (1103515245 * 8000000 + 12345 < 2 ^ 53)%Z /\
  RNG.hash (inject_Z 8000000)
  = inject_Z ((1103515245 * 8000000 + 12345) mod 2 ^ 31) /\
  RNG.hash (inject_Z 8000000) = 1366678073.
Proof.
  split; [lia|]. split; [lia|].
  destruct (proj1 hash_exact_in_range 8000000%Z) as [H _]; [lia | lia |].
  split; [exact H | vm_compute; reflexivity].
Defined.

(** ** Object ids *)

(** [String] at some numbers: digits only up to 21 integer digits, the
    shortest digits that round to the number, exponents elsewhere. *)
Lemma Number_toString_examples :
  Number_toString 0 = "0"%string /\
  Number_toString 41 = "41"%string /\
  Number_toString (- (7)) = "-7"%string /\
  Number_toString (inject_Z (2 ^ 53)) = "9007199254740992"%string /\
  Number_toString (inject_Z (2 ^ 60)) = "1152921504606847000"%string /\
  Number_toString (inject_Z (10 ^ 21)) = "1e+21"%string /\
  Number_toString (rnd (1 # 10)) = "0.1"%string /\
  Number_toString (3 # 2) = "1.5"%string /\
  Number_toString (rnd (1 # 10000000)) = "1e-7"%string.
Proof. vm_compute. repeat split; reflexivity. Qed.

(** The text of a counter value up to 2^53 is its decimal digits. *)
Lemma Number_toString_counter (n : N) :
  (Z.of_N n <= 2 ^ 53)%Z ->
  Number_toString (inject_Z (Z.of_N n)) = decimal n.
Proof.
  intros Hn. unfold Number_toString.
  destruct (Qeq_bool (inject_Z (Z.of_N n)) 0) eqn:E0.
  - apply Qeq_bool_iff in E0.
    apply (proj1 (inject_Z_injective (Z.of_N n) 0)) in E0.
    assert (n = 0%N) as -> by lia. reflexivity.
  - assert (Hpos : Qle_bool 0 (inject_Z (Z.of_N n)) = true).
    { apply Qle_bool_iff. change 0 with (inject_Z 0). rewrite <- Zle_Qle. lia. }
    rewrite Hpos. unfold positiveToString. rewrite Qfloor_Z.
    assert (Hint : Qeq_bool (inject_Z (Z.of_N n)) (inject_Z (Z.of_N n)) = true)
      by (apply Qeq_bool_iff; reflexivity).
    assert (Hle : Qle_bool (inject_Z (Z.of_N n)) (inject_Z (2 ^ 53)) = true)
      by (apply Qle_bool_iff; rewrite <- Zle_Qle; exact Hn).
    rewrite Hint, Hle. cbn [andb]. now rewrite N2Z.id.
Qed.

(** Below 2^53 the counter advances by one. *)
Lemma counter_advances (n : N) :
  (Z.of_N n < 2 ^ 53)%Z ->
  fadd (inject_Z (Z.of_N n)) 1 = inject_Z (Z.of_N (n + 1)).
Proof.
  intros Hn. destruct (N.eq_dec n 9007199254740991) as [->|Hne].
  - vm_compute. reflexivity.
  - unfold fadd. apply rnd_int; [lia|].
    rewrite N2Z.inj_add, inject_Z_plus. reflexivity.
Qed.

(** At 2^53 the counter stays where it is: 2^53 + 1 is rounded to 2^53. *)
Lemma counter_stalls : fadd (inject_Z (2 ^ 53)) 1 = inject_Z (2 ^ 53).
Proof. vm_compute. reflexivity. Qed.

Lemma counter_lt (k n : N) :
  inject_Z (Z.of_N k) < inject_Z (Z.of_N n) <-> (k < n)%N.
Proof. rewrite <- Zlt_Qlt. lia. Qed.

Lemma decimal_inj (k k' : N) : decimal k = decimal k' -> k = k'.
Proof.
  unfold decimal. intros H. apply DecimalN.Unsigned.to_uint_inj.
  apply (f_equal NilEmpty.uint_of_string) in H.
  rewrite !NilEmpty.usu in H. now injection H.
Qed.

Lemma append_inj (p x y : string) :
  String.append p x = String.append p y -> x = y.
Proof.
  induction p as [|a p IH]; simpl; intros H; [exact H|].
  injection H as H. exact (IH H).
Qed.

Lemma circle_id_inj (k k' : N) :
  String.append "circle" (decimal k) = String.append "circle" (decimal k') ->
  k = k'.
Proof. intros H. apply decimal_inj, (append_inj "circle"), H. Qed.

Lemma tail_id_inj (k k' : N) :
  String.append "tail" (decimal k) = String.append "tail" (decimal k') ->
  k = k'.
Proof. intros H. apply decimal_inj, (append_inj "tail"), H. Qed.

Lemma circle_id_not_tail_id (x y : string) :
  String.append "circle" x <> String.append "tail" y.
Proof. simpl. discriminate. Qed.

(** An id built from the current counter is not among the live ids. *)
Lemma fresh_circle_id (s : State) (n : N) :
  objCount s = inject_Z (Z.of_N n) -> idsBelowCount s ->
  ~ In (String.append "circle" (decimal n)) (liveIds s).
Proof.
  intros Hn [Hc Ht] Hin. unfold liveIds in Hin. apply in_app_or in Hin.
  destruct Hin as [Hin|Hin]; apply in_map_iff in Hin;
    destruct Hin as (x & Hid & Hx).
  - destruct (Hc x Hx) as (k & Hk & E). rewrite E in Hid.
    apply circle_id_inj in Hid. rewrite Hn in Hk. apply counter_lt in Hk. lia.
  - destruct (Ht x Hx) as (k & Hk & E). rewrite E in Hid.
    symmetry in Hid. exact (circle_id_not_tail_id _ _ Hid).
Qed.

Lemma fresh_tail_id (s : State) (n : N) :
  objCount s = inject_Z (Z.of_N n) -> idsBelowCount s ->
  ~ In (String.append "tail" (decimal n)) (liveIds s).
Proof.
  intros Hn [Hc Ht] Hin. unfold liveIds in Hin. apply in_app_or in Hin.
  destruct Hin as [Hin|Hin]; apply in_map_iff in Hin;
    destruct Hin as (x & Hid & Hx).
  - destruct (Hc x Hx) as (k & Hk & E). rewrite E in Hid.
    exact (circle_id_not_tail_id _ _ Hid).
  - destruct (Ht x Hx) as (k & Hk & E). rewrite E in Hid.
    apply tail_id_inj in Hid. rewrite Hn in Hk. apply counter_lt in Hk. lia.
Qed.

Lemma NoDup_snoc_both {A : Type} (l1 l2 : list A) (a b : A) :
  NoDup (l1 ++ l2) -> ~ In a (l1 ++ l2) -> ~ In b (l1 ++ l2) -> a <> b ->
  NoDup ((l1 ++ [a]) ++ (l2 ++ [b])).
Proof.
  intros Hnd Ha Hb Hab.
  apply (Permutation_NoDup (l := a :: b :: l1 ++ l2)).
  - rewrite <- app_assoc. simpl.
    apply Permutation_cons_app. rewrite app_assoc.
    apply Permutation_cons_append.
  - constructor; [|constructor; assumption].
    intros [E|H]; [exact (Hab (eq_sym E)) | exact (Ha H)].
Qed.

Lemma NoDup_snoc_left {A : Type} (l1 l2 : list A) (a : A) :
  NoDup (l1 ++ l2) -> ~ In a (l1 ++ l2) -> NoDup ((l1 ++ [a]) ++ l2).
Proof.
  intros Hnd Ha.
  apply (Permutation_NoDup (l := a :: l1 ++ l2)).
  - rewrite <- app_assoc. simpl. apply Permutation_cons_app. reflexivity.
  - constructor; assumption.
Qed.

Lemma idsBelowCount_weaken (cs : list Circle) (ts : list Tail) (s : State)
    (n : N) :
  objCount s = inject_Z (Z.of_N n) ->
  idsBelowCount s ->
  (forall c, In c cs -> In c (circles s) \/
     Circle.id c = String.append "circle" (decimal n)) ->
  (forall t, In t ts -> In t (tails s) \/
     Tail.id t = String.append "tail" (decimal n)) ->
  (forall c, In c cs ->
     exists k : N, inject_Z (Z.of_N k) < inject_Z (Z.of_N (n + 1)) /\
                   Circle.id c = String.append "circle" (decimal k)) /\
  (forall t, In t ts ->
     exists k : N, inject_Z (Z.of_N k) < inject_Z (Z.of_N (n + 1)) /\
                   Tail.id t = String.append "tail" (decimal k)).
Proof.
  intros Hn [Hc Ht] Hcs Hts. split.
  - intros c Hin. destruct (Hcs c Hin) as [H|H].
    + destruct (Hc c H) as (k & Hk & E). exists k. split; [|exact E].
      rewrite Hn in Hk. apply counter_lt in Hk. apply counter_lt. lia.
    + exists n. split; [apply counter_lt; lia | exact H].
  - intros t Hin. destruct (Hts t Hin) as [H|H].
    + destruct (Ht t H) as (k & Hk & E). exists k. split; [|exact E].
      rewrite Hn in Hk. apply counter_lt in Hk. apply counter_lt. lia.
    + exists n. split; [apply counter_lt; lia | exact H].
Qed.

(** One [CreateCircle] from a counter below 2^53 keeps the ids distinct and
    below the counter, which it advances by one. *)
Lemma CreateCircle_ids noteData minPitch maxPitch (s : State) (n : N) :
  objCount s = inject_Z (Z.of_N n) -> (Z.of_N n < 2 ^ 53)%Z ->
  idsBelowCount s -> NoDup (liveIds s) ->
  let s' := CreateCircle.apply noteData minPitch maxPitch s in
  objCount s' = inject_Z (Z.of_N (n + 1)) /\
  idsBelowCount s' /\ NoDup (liveIds s').
Proof.
  intros Hn Hlt Hids Hnd. cbv zeta. unfold CreateCircle.apply.
  destruct (getColumnAndColour noteData minPitch maxPitch) as [column colour].
  cbn [Circle.hasTail]. rewrite Hn, (counter_advances n Hlt).
  rewrite (Number_toString_counter n) by lia.
  destruct (gtb (fsub (end_ noteData) (start noteData)) Note.DURATION_FOR_TAIL).
  - split; [reflexivity|]. split.
    + unfold idsBelowCount. cbn [circles tails objCount].
      apply (idsBelowCount_weaken _ _ s n Hn Hids);
        intros x Hin; apply in_app_or in Hin;
        (destruct Hin as [Hin|[<-|[]]]; [left; exact Hin | right; reflexivity]).
    + unfold liveIds. cbn [circles tails]. rewrite !map_app. cbn [map Circle.id Tail.id].
      apply NoDup_snoc_both;
        [exact Hnd | apply (fresh_circle_id s n Hn Hids)
        | apply (fresh_tail_id s n Hn Hids) | apply circle_id_not_tail_id].
  - split; [reflexivity|]. split.
    + unfold idsBelowCount. cbn [circles tails objCount].
      apply (idsBelowCount_weaken _ _ s n Hn Hids).
      * intros x Hin; apply in_app_or in Hin.
        destruct Hin as [Hin|[<-|[]]]; [left; exact Hin | right; reflexivity].
      * intros x Hin. left. exact Hin.
    + unfold liveIds. cbn [circles tails]. rewrite map_app. cbn [map Circle.id].
      apply NoDup_snoc_left; [exact Hnd | apply (fresh_circle_id s n Hn Hids)].
Qed.

Lemma CreateBgCircle_ids noteData (s : State) :
  idsBelowCount s -> NoDup (liveIds s) ->
  let s' := CreateBgCircle.apply noteData s in
  objCount s' = objCount s /\ idsBelowCount s' /\ NoDup (liveIds s').
Proof. intros Hids Hnd. cbv zeta. repeat split; try apply Hids; exact Hnd. Qed.

Lemma applyAll_create_ids (actions : list Action) :
  forall (s : State) (n : N),
  forallb isCreate actions = true ->
  objCount s = inject_Z (Z.of_N n) ->
  (Z.of_N n + Z.of_nat (circlesCreated actions) <= 2 ^ 53)%Z ->
  idsBelowCount s -> NoDup (liveIds s) ->
  objCount (applyAll actions s)
  = inject_Z (Z.of_N n + Z.of_nat (circlesCreated actions)) /\
  idsBelowCount (applyAll actions s) /\
  NoDup (liveIds (applyAll actions s)).
Proof.
  induction actions as [|a actions IH]; intros s n Hall Hn Hb Hids Hnd.
  - cbn. rewrite Z.add_0_r. auto.
  - simpl in Hall. apply andb_true_iff in Hall. destruct Hall as [Ha Hall].
    change (applyAll (a :: actions) s) with (applyAll actions (apply a s)).
    destruct a; try discriminate Ha.
    + change (circlesCreated (CreateCircle noteData minPitch maxPitch :: actions))
        with (S (circlesCreated actions)) in *.
      destruct (CreateCircle_ids noteData minPitch maxPitch s n Hn ltac:(lia)
                  Hids Hnd) as (Hn' & Hids' & Hnd').
      destruct (IH _ (n + 1)%N Hall Hn' ltac:(lia) Hids' Hnd') as (Hc & H1 & H2).
      cbn [apply]. split; [|split; assumption].
      rewrite Hc. f_equal. lia.
    + change (circlesCreated (CreateBgCircle noteData :: actions))
        with (circlesCreated actions) in *.
      destruct (CreateBgCircle_ids noteData s Hids Hnd) as (Hn' & Hids' & Hnd').
      rewrite Hn in Hn'.
      exact (IH _ n Hall Hn' Hb Hids' Hnd').
Qed.

(** A tailed circle and its tail are built from the same counter value,
    and the counter advances once. *)
Lemma CreateCircle_pair noteData minPitch maxPitch (s : State) (n : N) :
  gtb (fsub (end_ noteData) (start noteData)) Note.DURATION_FOR_TAIL = true ->
  objCount s = inject_Z (Z.of_N n) -> (Z.of_N n < 2 ^ 53)%Z ->
  let s' := CreateCircle.apply noteData minPitch maxPitch s in
  exists c t,
    circles s' = circles s ++ [c] /\
    tails s' = tails s ++ [t] /\
    Circle.hasTail c = true /\
    Tail.circle t = c /\
    Circle.id c = String.append "circle" (decimal n) /\
    Tail.id t = String.append "tail" (decimal n) /\
    objCount s' = inject_Z (Z.of_N (n + 1)).
Proof.
  intros Hlong Hn Hlt. cbv zeta. unfold CreateCircle.apply.
  destruct (getColumnAndColour noteData minPitch maxPitch) as [column colour].
  cbn [Circle.hasTail]. rewrite Hlong.
  rewrite Hn, (counter_advances n Hlt), (Number_toString_counter n) by lia.
  eexists. eexists. cbn [circles tails objCount].
  repeat split; reflexivity.
Qed.

Lemma stalled_counter_ids :
  objCount (applyAll [CreateCircle shortNote 40 80; CreateCircle shortNote 40 80]
              stalledCounterState)
  = objCount stalledCounterState /\
  map Circle.id
    (circles (applyAll [CreateCircle shortNote 40 80; CreateCircle shortNote 40 80]
                stalledCounterState))
  = ["circle9007199254740992"; "circle9007199254740992"]%string /\
  liveIds (applyAll [CreateCircle shortNote 40 80; CreateCircle shortNote 40 80]
             stalledCounterState)
  = ["circle9007199254740992"; "circle9007199254740992"]%string /\
  String.append "circle" (decimal 9007199254740992)
  = "circle9007199254740992"%string.
Proof. vm_compute. repeat split; reflexivity. Qed.

(** C8 fails as stated: [objCount] is a number, and at 2^53 adding 1
    leaves it as it is.  From an empty board with the counter at 2^53, two
    [CreateCircle] actions leave the counter unchanged and issue the same
    id twice. *)
Lemma create_at_2_53_repeats_id :
  let actions :=
    [CreateCircle shortNote 40 80; CreateCircle shortNote 40 80] in
  forallb isCreate actions = true /\
  idsBelowCount stalledCounterState /\
  NoDup (liveIds stalledCounterState) /\
  objCount (applyAll actions stalledCounterState)
  = objCount stalledCounterState /\
  ~ NoDup (liveIds (applyAll actions stalledCounterState)) /\
  ~ idsBelowCount (applyAll actions stalledCounterState).
Proof.
  cbv zeta. destruct stalled_counter_ids as (E1 & Ec & E2 & Ed).
  split; [reflexivity|]. split; [split; intros x []|].
  split; [constructor|].
  set (s' := applyAll _ stalledCounterState) in *. clearbody s'.
  split; [exact E1|]. split.
  - rewrite E2. intros H. inversion H as [|x l Hx _]. apply Hx. left. reflexivity.
  - intros [Hc _].
    assert (Hm : In "circle9007199254740992"%string
                   ["circle9007199254740992"; "circle9007199254740992"]%string)
      by (left; reflexivity).
    rewrite <- Ec in Hm. apply in_map_iff in Hm. destruct Hm as (c & Eid & Hin).
    destruct (Hc c Hin) as (k & Hk & E). rewrite E1 in Hk.
    rewrite Eid, <- Ed in E.
    apply circle_id_inj in E. subst k.
    exact (Qlt_irrefl _ Hk).
Qed.

(** C8, amended. Start from [initialState], or from any state whose counter
    is a natural number [n] and whose live ids are distinct and carry
    counters below it, and apply any sequence of [CreateCircle] and
    [CreateBgCircle] actions that takes the counter to 2^53 at most.  Then
    [objCount] has not decreased (it is [n] plus the number of
    [CreateCircle] actions), every live circle or tail id is "circle" or
    "tail" followed by a counter value below the final [objCount], and no
    two live entities share an id.  A tailed circle and its tail carry the
    same counter value and [objCount] advances once for the pair. *)
Theorem create_ids_fresh :
  (forall (s : State) (n : N) (actions : list Action),
     forallb isCreate actions = true ->
     objCount s = inject_Z (Z.of_N n) ->
     (Z.of_N n + Z.of_nat (circlesCreated actions) <= 2 ^ 53)%Z ->
     idsBelowCount s -> NoDup (liveIds s) ->
     objCount (applyAll actions s)
     = inject_Z (Z.of_N n + Z.of_nat (circlesCreated actions)) /\
     objCount s <= objCount (applyAll actions s) /\
     idsBelowCount (applyAll actions s) /\
     NoDup (liveIds (applyAll actions s))) /\
  (objCount initialState = inject_Z (Z.of_N 0) /\
   idsBelowCount initialState /\ NoDup (liveIds initialState)) /\
  (forall noteData minPitch maxPitch (s : State) (n : N),
     gtb (fsub (end_ noteData) (start noteData)) Note.DURATION_FOR_TAIL = true ->
     objCount s = inject_Z (Z.of_N n) -> (Z.of_N n < 2 ^ 53)%Z ->
     let s' := CreateCircle.apply noteData minPitch maxPitch s in
     exists c t,
       circles s' = circles s ++ [c] /\
       tails s' = tails s ++ [t] /\
       Circle.hasTail c = true /\
       Tail.circle t = c /\
       Circle.id c = String.append "circle" (decimal n) /\
       Tail.id t = String.append "tail" (decimal n) /\
       objCount s' = inject_Z (Z.of_N (n + 1))).
Proof.
  split; [|split].
  - intros s n actions Hall Hn Hb Hids Hnd.
    destruct (applyAll_create_ids actions s n Hall Hn Hb Hids Hnd)
      as (Hc & H1 & H2).
    split; [exact Hc|]. split; [|split; assumption].
    rewrite Hc, Hn. rewrite <- Zle_Qle. lia.
  - split; [reflexivity|]. split; [split; intros x []|constructor].
  - exact CreateCircle_pair.
Qed.

Lemma create_ids_fresh_witness :
  let actions :=
    [CreateCircle longNote 40 80; CreateBgCircle ambientNote;
     CreateCircle shortNote 40 80] in
  forallb isCreate actions = true /\
  objCount (applyAll actions initialState) = 2 /\
  idsBelowCount (applyAll actions initialState) /\
  NoDup (liveIds (applyAll actions initialState)) /\
  liveIds (applyAll actions initialState)
  = ["circle0"; "circle1"; "tail0"]%string.
Proof.
  cbv zeta. split; [reflexivity|].
  destruct create_ids_fresh as (Hseq & (Hi0 & Hi1 & Hi2) & _).
  destruct (Hseq initialState 0%N
              [CreateCircle longNote 40 80; CreateBgCircle ambientNote;
               CreateCircle shortNote 40 80] eq_refl Hi0 ltac:(cbn; lia)
              Hi1 Hi2)
    as (H1 & _ & H2 & H3).
  split; [exact H1|]. split; [exact H2|]. split; [exact H3|].
  vm_compute. reflexivity.
Defined.

(** * Further properties *)

(** ** Rounding is monotone and keeps binary64 values *)

Lemma roundHalfEven_le (x : Q) (K : Z) :
  x <= inject_Z K -> (roundHalfEven x <= K)%Z.
Proof.
  intros H. unfold roundHalfEven.
  pose proof (Qfloor_le x) as Hf. pose proof (Qlt_floor x) as Hl.
  assert (Hfk : (Qfloor x <= K)%Z).
  { rewrite Zle_Qle. eapply Qle_trans; eassumption. }
  destruct (Z.eq_dec (Qfloor x) K) as [E|E].
  - replace (Qcompare _ _) with Lt; [lia|].
    symmetry. apply (proj1 (Qlt_alt _ _)). rewrite E in Hf |- *. lra.
  - destruct (Qcompare _ _); [destruct (Z.even _)| |]; lia.
Qed.

Lemma roundHalfEven_ge (x : Q) (K : Z) :
  inject_Z K <= x -> (K <= roundHalfEven x)%Z.
Proof.
  intros H. unfold roundHalfEven.
  assert (Hfk : (K <= Qfloor x)%Z).
  { rewrite <- (Qfloor_Z K). apply Qfloor_resp_le. exact H. }
  destruct (Qcompare _ _); [destruct (Z.even _)| |]; lia.
Qed.

Lemma pow2_inv (s : Z) : pow2 (- s) == / pow2 s.
Proof. apply Qpower_opp. Qed.

Lemma pow2_sub (a b : Z) : pow2 (a - b) == pow2 a / pow2 b.
Proof. unfold Z.sub. rewrite pow2_add, pow2_inv. reflexivity. Qed.

Lemma pow2_lt (a b : Z) : (a < b)%Z -> pow2 a < pow2 b.
Proof. intros H. apply Qpower_lt_compat_l; [exact H | reflexivity]. Qed.

Lemma Qabs_inject_Z (z : Z) : Qabs (inject_Z z) = inject_Z (Z.abs z).
Proof. reflexivity. Qed.

(** A binary64 value scaled by a power of two below its own is an
    integer. *)
Lemma repr_scaled (M t s : Z) :
  (s <= t)%Z ->
  inject_Z M * pow2 t / pow2 s == inject_Z (M * 2 ^ (t - s)).
Proof.
  intros H. rewrite inject_Z_mult, <- pow2_Z by lia. rewrite pow2_sub.
  pose proof (pow2_pos s). field. lra.
Qed.

Lemma repr_abs_lt (M t : Z) :
  (Z.abs M < 2 ^ 53)%Z -> Qabs (inject_Z M * pow2 t) < pow2 (t + 53).
Proof.
  intros H. rewrite Qabs_Qmult, Qabs_inject_Z.
  rewrite (Qabs_pos (pow2 t)) by (apply Qlt_le_weak, pow2_pos).
  rewrite Z.add_comm, pow2_add, (pow2_Z 53) by lia.
  apply Qmult_lt_r; [apply pow2_pos|]. rewrite <- Zlt_Qlt. exact H.
Qed.

Lemma ulpExp_ge (q : Q) : (-1074 <= ulpExp q)%Z /\ (ilog2 q - 52 <= ulpExp q)%Z.
Proof. unfold ulpExp. lia. Qed.

(** When the unit in the last place of [q] is above [2^t], [q] is beyond
    every binary64 value with exponent [t]. *)
Lemma ulpExp_above (q : Q) (t : Z) :
  ~ q == 0 -> (-1074 <= t)%Z -> (t < ulpExp q)%Z ->
  ulpExp q = (ilog2 q - 52)%Z /\ pow2 (t + 53) <= pow2 (ilog2 q) /\
  pow2 (ilog2 q) <= Qabs q.
Proof.
  intros Hq Ht Hs. unfold ulpExp in *.
  split; [lia|]. split; [apply pow2_le; lia | apply ilog2_lower, Hq].
Qed.

Lemma rndReduced_le_repr (q : Q) (M t : Z) :
  (Z.abs M < 2 ^ 53)%Z -> (-1074 <= t)%Z ->
  q <= inject_Z M * pow2 t -> rndReduced q <= inject_Z M * pow2 t.
Proof.
  intros HM Ht Hle. destruct (Qeq_dec q 0) as [E|E].
  - assert (rndReduced q = 0) as ->.
    { unfold rndReduced. apply Qeq_bool_iff in E. now rewrite E. }
    rewrite E in Hle. exact Hle.
  - rewrite (rndReduced_correct q E). set (s := ulpExp q).
    pose proof (pow2_pos s) as Hp.
    destruct (Z_le_gt_dec s t) as [Hst|Hst].
    + assert (Hx : q / pow2 s <= inject_Z (M * 2 ^ (t - s))).
      { rewrite <- (repr_scaled M t s Hst).
        apply Qmult_le_compat_r; [exact Hle|].
        apply Qlt_le_weak, Qinv_lt_0_compat, Hp. }
      apply roundHalfEven_le in Hx. rewrite Zle_Qle in Hx.
      rewrite <- (repr_scaled M t s Hst) in Hx.
      apply (Qmult_le_r _ _ (pow2 s) Hp) in Hx.
      eapply Qle_trans; [exact Hx|]. apply Qle_lteq. right. field. lra.
    + destruct (ulpExp_above q t E Ht ltac:(fold s; lia)) as (Hs & Hpw & Hlow).
      fold s in Hs.
      pose proof (repr_abs_lt M t HM) as Hz.
      assert (Hneg : q <= - pow2 (ilog2 q)).
      { destruct (Qlt_le_dec q 0) as [Hn|Hn].
        - rewrite (Qabs_neg q) in Hlow by lra. lra.
        - rewrite (Qabs_pos q Hn) in Hlow.
          apply Qabs_Qlt_condition in Hz. lra. }
      assert (Hx : q / pow2 s <= inject_Z (- 2 ^ 52)).
      { apply Qle_shift_div_r; [exact Hp|].
        rewrite inject_Z_opp, <- pow2_Z by lia.
        assert (Hsp : pow2 52 * pow2 s == pow2 (ilog2 q)).
        { rewrite <- pow2_add. replace (52 + s)%Z with (ilog2 q) by lia.
          reflexivity. }
        lra. }
      apply roundHalfEven_le in Hx. rewrite Zle_Qle in Hx.
      apply (Qmult_le_r _ _ (pow2 s) Hp) in Hx.
      eapply Qle_trans; [exact Hx|].
      rewrite inject_Z_opp, <- pow2_Z by lia.
      assert (Hsp : pow2 52 * pow2 s == pow2 (ilog2 q)).
      { rewrite <- pow2_add. replace (52 + s)%Z with (ilog2 q) by lia.
        reflexivity. }
      apply Qabs_Qlt_condition in Hz. lra.
Qed.

Lemma rndReduced_ge_repr (q : Q) (M t : Z) :
  (Z.abs M < 2 ^ 53)%Z -> (-1074 <= t)%Z ->
  inject_Z M * pow2 t <= q -> inject_Z M * pow2 t <= rndReduced q.
Proof.
  intros HM Ht Hle. destruct (Qeq_dec q 0) as [E|E].
  - assert (rndReduced q = 0) as ->.
    { unfold rndReduced. apply Qeq_bool_iff in E. now rewrite E. }
    rewrite E in Hle. exact Hle.
  - rewrite (rndReduced_correct q E). set (s := ulpExp q).
    pose proof (pow2_pos s) as Hp.
    destruct (Z_le_gt_dec s t) as [Hst|Hst].
    + assert (Hx : inject_Z (M * 2 ^ (t - s)) <= q / pow2 s).
      { rewrite <- (repr_scaled M t s Hst).
        apply Qmult_le_compat_r; [exact Hle|].
        apply Qlt_le_weak, Qinv_lt_0_compat, Hp. }
      apply roundHalfEven_ge in Hx. rewrite Zle_Qle in Hx.
      rewrite <- (repr_scaled M t s Hst) in Hx.
      apply (Qmult_le_r _ _ (pow2 s) Hp) in Hx.
      eapply Qle_trans; [|exact Hx]. apply Qle_lteq. right. field. lra.
    + destruct (ulpExp_above q t E Ht ltac:(fold s; lia)) as (Hs & Hpw & Hlow).
      fold s in Hs.
      pose proof (repr_abs_lt M t HM) as Hz.
      assert (Hpos : pow2 (ilog2 q) <= q).
      { destruct (Qlt_le_dec q 0) as [Hn|Hn].
        - rewrite (Qabs_neg q) in Hlow by lra.
          apply Qabs_Qlt_condition in Hz. lra.
        - rewrite (Qabs_pos q Hn) in Hlow. exact Hlow. }
      assert (Hsp : pow2 52 * pow2 s == pow2 (ilog2 q)).
      { rewrite <- pow2_add. replace (52 + s)%Z with (ilog2 q) by lia.
        reflexivity. }
      assert (Hx : inject_Z (2 ^ 52) <= q / pow2 s).
      { apply Qle_shift_div_l; [exact Hp|]. rewrite <- pow2_Z by lia. lra. }
      apply roundHalfEven_ge in Hx. rewrite Zle_Qle in Hx.
      apply (Qmult_le_r _ _ (pow2 s) Hp) in Hx.
      eapply Qle_trans; [|exact Hx].
      rewrite <- pow2_Z by lia.
      apply Qabs_Qlt_condition in Hz. lra.
Qed.

(** Rounding never crosses a binary64 value. *)
Lemma rnd_le_repr (q z : Q) : representable z -> q <= z -> rnd q <= z.
Proof.
  intros (M & t & HM & Ht & Hz) Hle. unfold rnd. rewrite Hz.
  apply rndReduced_le_repr; [exact HM | exact Ht |].
  rewrite <- Hz. eapply Qle_trans; [|exact Hle].
  rewrite (Qred_correct q). apply Qle_refl.
Qed.

Lemma rnd_ge_repr (q z : Q) : representable z -> z <= q -> z <= rnd q.
Proof.
  intros (M & t & HM & Ht & Hz) Hle. unfold rnd. rewrite Hz.
  apply rndReduced_ge_repr; [exact HM | exact Ht |].
  rewrite <- Hz. eapply Qle_trans; [exact Hle|].
  rewrite (Qred_correct q). apply Qle_refl.
Qed.

Lemma representable_int (z : Z) : (Z.abs z < 2 ^ 53)%Z -> representable (inject_Z z).
Proof.
  intros H. exists z, 0%Z. split; [exact H|]. split; [lia|].
  change (pow2 0) with 1. ring.
Qed.

Lemma representable_comp (x y : Q) : x == y -> representable x -> representable y.
Proof.
  intros E (M & t & HM & Ht & Hz). exists M, t. split; [exact HM|].
  split; [exact Ht|]. rewrite <- E. exact Hz.
Qed.

(** A binary64 value rounds to itself. *)
Lemma rnd_repr (z : Q) : representable z -> rnd z == z.
Proof.
  intros H. apply Qle_antisym.
  - apply rnd_le_repr; [exact H | apply Qle_refl].
  - apply rnd_ge_repr; [exact H | apply Qle_refl].
Qed.

Lemma rnd_nonneg (q : Q) : 0 <= q -> 0 <= rnd q.
Proof. apply (rnd_ge_repr q 0). apply (representable_int 0). lia. Qed.

Lemma rnd_nonpos (q : Q) : q <= 0 -> rnd q <= 0.
Proof. apply (rnd_le_repr q 0). apply (representable_int 0). lia. Qed.

Lemma rnd_le_int (q : Q) (z : Z) :
  (Z.abs z < 2 ^ 53)%Z -> q <= inject_Z z -> rnd q <= inject_Z z.
Proof. intros H. apply rnd_le_repr, representable_int, H. Qed.

Lemma rnd_ge_int (q : Q) (z : Z) :
  (Z.abs z < 2 ^ 53)%Z -> inject_Z z <= q -> inject_Z z <= rnd q.
Proof. intros H. apply rnd_ge_repr, representable_int, H. Qed.

Lemma roundHalfEven_nearest (x : Q) (K : Z) :
  Qabs (inject_Z (roundHalfEven x) - x) <= Qabs (inject_Z K - x).
Proof.
  pose proof (Qfloor_le x) as Hf. pose proof (Qlt_floor x) as Hl.
  rewrite inject_Z_plus in Hl. change (inject_Z 1) with 1 in Hl.
  assert (HK : inject_Z K <= inject_Z (Qfloor x)
               \/ inject_Z (Qfloor x) + 1 <= inject_Z K).
  { destruct (Z_le_gt_dec K (Qfloor x)) as [H|H].
    - left. rewrite <- Zle_Qle. exact H.
    - right. change 1 with (inject_Z 1). rewrite <- inject_Z_plus, <- Zle_Qle.
      lia. }
  unfold roundHalfEven. set (f := inject_Z (Qfloor x)) in *.
  set (k := inject_Z K) in *.
  assert (G : forall r : Q,
             (r == f /\ x - f <= 1 # 2) \/ (r == f + 1 /\ (1 # 2) <= x - f) ->
             Qabs (r - x) <= Qabs (k - x)).
  { intros r Hr. apply Qabs_Qle_condition.
    destruct (Qlt_le_dec (k - x) 0) as [Hn|Hn].
    - rewrite (Qabs_neg (k - x)) by lra.
      destruct Hr as [[E H]|[E H]]; destruct HK; split; lra.
    - rewrite (Qabs_pos (k - x) Hn).
      destruct Hr as [[E H]|[E H]]; destruct HK; split; lra. }
  destruct (Qcompare _ _) eqn:E.
  - apply Qeq_alt in E. destruct (Z.even _); apply G.
    + left. split; [reflexivity|]. fold f in E. lra.
    + right. split; [rewrite inject_Z_plus; reflexivity|]. fold f in E. lra.
  - apply Qlt_alt in E. apply G. left. split; [reflexivity|]. fold f in E. lra.
  - apply Qgt_alt in E. apply G. right.
    split; [rewrite inject_Z_plus; reflexivity|]. fold f in E. lra.
Qed.

(** [rndReduced q] is a binary64 value nearest to [q]. *)
Lemma rndReduced_nearest (q : Q) (M t : Z) :
  (Z.abs M < 2 ^ 53)%Z -> (-1074 <= t)%Z ->
  Qabs (rndReduced q - q) <= Qabs (inject_Z M * pow2 t - q).
Proof.
  intros HM Ht. destruct (Qeq_dec q 0) as [E|E].
  - assert (rndReduced q = 0) as ->.
    { unfold rndReduced. apply Qeq_bool_iff in E. now rewrite E. }
    rewrite E. setoid_replace (0 - 0) with 0 by ring. apply Qabs_nonneg.
  - rewrite (rndReduced_correct q E). set (s := ulpExp q).
    pose proof (pow2_pos s) as Hp.
    assert (Scale : forall K : Z,
              Qabs (inject_Z (roundHalfEven (q / pow2 s)) * pow2 s - q)
              <= Qabs (inject_Z K * pow2 s - q)).
    { intros K. pose proof (roundHalfEven_nearest (q / pow2 s) K) as Hn.
      assert (E1 : forall r : Q, r * pow2 s - q == (r - q / pow2 s) * pow2 s)
        by (intros r; field; lra).
      rewrite !E1, !Qabs_Qmult. apply Qmult_le_compat_r; [exact Hn|].
      apply Qabs_nonneg. }
    destruct (Z_le_gt_dec s t) as [Hst|Hst].
    + assert (Ez : inject_Z M * pow2 t == inject_Z (M * 2 ^ (t - s)) * pow2 s).
      { rewrite <- (repr_scaled M t s Hst). field. lra. }
      rewrite Ez. apply Scale.
    + destruct (ulpExp_above q t E Ht ltac:(fold s; lia)) as (Hs & Hpw & Hlow).
      fold s in Hs.
      pose proof (repr_abs_lt M t HM) as Hz. apply Qabs_Qlt_condition in Hz.
      assert (Hsp : pow2 52 * pow2 s == pow2 (ilog2 q)).
      { rewrite <- pow2_add. replace (52 + s)%Z with (ilog2 q) by lia.
        reflexivity. }
      destruct (Qlt_le_dec q 0) as [Hn|Hn].
      * rewrite (Qabs_neg q) in Hlow by lra.
        eapply Qle_trans; [apply (Scale (- 2 ^ 52)%Z)|].
        rewrite inject_Z_opp, <- pow2_Z by lia.
        rewrite (Qabs_pos (_ - q)) by lra.
        rewrite (Qabs_pos (inject_Z M * pow2 t - q)) by lra. lra.
      * rewrite (Qabs_pos q Hn) in Hlow.
        eapply Qle_trans; [apply (Scale (2 ^ 52)%Z)|].
        rewrite <- pow2_Z by lia.
        rewrite (Qabs_neg (_ - q)) by lra.
        rewrite (Qabs_neg (inject_Z M * pow2 t - q)) by lra. lra.
Qed.

Lemma rnd_nearest (q z : Q) :
  representable z -> Qabs (rnd q - q) <= Qabs (z - q).
Proof.
  intros (M & t & HM & Ht & Hz). unfold rnd.
  pose proof (Qred_correct q) as Hr.
  pose proof (rndReduced_nearest (Qred q) M t HM Ht) as H.
  assert (E1 : rndReduced (Qred q) - q == rndReduced (Qred q) - Qred q)
    by (apply Qplus_comp; [reflexivity | apply Qopp_comp; symmetry; exact Hr]).
  assert (E2 : z - q == inject_Z M * pow2 t - Qred q).
  { apply Qplus_comp; [exact Hz | apply Qopp_comp; symmetry; exact Hr]. }
  rewrite E1, E2. exact H.
Qed.

(** The result of rounding is a binary64 value. *)
Lemma rndReduced_representable (q : Q) : representable (rndReduced q).
Proof.
  destruct (Qeq_dec q 0) as [E|E].
  - assert (rndReduced q = 0) as ->.
    { unfold rndReduced. apply Qeq_bool_iff in E. now rewrite E. }
    apply (representable_int 0). lia.
  - apply (representable_comp _ _ (Qeq_sym _ _ (rndReduced_correct q E))).
    set (s := ulpExp q). pose proof (pow2_pos s) as Hp.
    destruct (ulpExp_ge q) as [Hs1 Hs2]. fold s in Hs1, Hs2.
    pose proof (ilog2_upper q E) as Hup.
    assert (Hb : pow2 (ilog2 q + 1) <= pow2 53 * pow2 s).
    { rewrite <- pow2_add. apply pow2_le. lia. }
    rewrite (pow2_Z 53) in Hb by lia.
    apply Qabs_Qlt_condition in Hup.
    assert (Hx1 : q / pow2 s <= inject_Z (2 ^ 53)).
    { apply Qle_shift_div_r; [exact Hp|]. lra. }
    assert (Hx2 : inject_Z (- 2 ^ 53) <= q / pow2 s).
    { apply Qle_shift_div_l; [exact Hp|]. rewrite inject_Z_opp. lra. }
    apply roundHalfEven_le in Hx1. apply roundHalfEven_ge in Hx2.
    set (R := roundHalfEven (q / pow2 s)) in *.
    destruct (Z_lt_le_dec (Z.abs R) (2 ^ 53)) as [HR|HR].
    + exists R, s. split; [exact HR|]. split; [exact Hs1 | reflexivity].
    + exists (R / 2)%Z, (s + 1)%Z.
      assert (ER : (R = 2 * (R / 2))%Z).
      { assert (HR' : (R = 2 ^ 53 \/ R = - 2 ^ 53)%Z) by lia.
        destruct HR' as [-> | ->]; reflexivity. }
      split; [|split; [lia|]].
      * assert (HR' : (R = 2 ^ 53 \/ R = - 2 ^ 53)%Z) by lia.
        destruct HR' as [-> | ->]; vm_compute; reflexivity.
      * rewrite ER at 1. rewrite inject_Z_mult, Z.add_comm, pow2_add.
        change (pow2 1) with 2. change (inject_Z 2) with 2. ring.
Qed.

Lemma rnd_representable (q : Q) : representable (rnd q).
Proof. unfold rnd. apply rndReduced_representable. Qed.

(** Rounding is monotone. *)
Lemma rnd_mono (x y : Q) : x <= y -> rnd x <= rnd y.
Proof.
  intros Hxy. destruct (Qlt_le_dec (rnd y) (rnd x)) as [Hlt|Hle]; [|exact Hle].
  exfalso.
  pose proof (rnd_representable x) as Rx. pose proof (rnd_representable y) as Ry.
  assert (Hax : rnd y < x).
  { destruct (Qlt_le_dec (rnd y) x) as [H|H]; [exact H|].
    pose proof (rnd_le_repr x (rnd y) Ry H). lra. }
  assert (Hyb : y < rnd x).
  { destruct (Qlt_le_dec y (rnd x)) as [H|H]; [exact H|].
    pose proof (rnd_ge_repr y (rnd x) Rx H). lra. }
  pose proof (rnd_nearest x (rnd y) Ry) as N1.
  pose proof (rnd_nearest y (rnd x) Rx) as N2.
  pose proof (rnd_ge_repr x (rnd y) Ry ltac:(lra)) as L1.
  pose proof (rnd_le_repr y (rnd x) Rx ltac:(lra)) as L2.
  rewrite (Qabs_pos (rnd x - x)) in N1 by lra.
  rewrite (Qabs_neg (rnd y - x)) in N1 by lra.
  rewrite (Qabs_neg (rnd y - y)) in N2 by lra.
  rewrite (Qabs_pos (rnd x - y)) in N2 by lra.
  assert (Exy : x == y) by lra.
  pose proof (rnd_comp x y Exy) as Heq. rewrite Heq in Hlt. lra.
Qed.

(** ** Combo, multiplier and score in play *)

Lemma rndReduced_integer (q : Q) (z : Z) :
  q == inject_Z z -> exists z', rndReduced q = inject_Z z'.
Proof.
  intros Hq. destruct (Qeq_dec q 0) as [E|E].
  - exists 0%Z. unfold rndReduced. apply Qeq_bool_iff in E. now rewrite E.
  - unfold rndReduced.
    destruct (Qeq_bool q 0) eqn:B; [apply Qeq_bool_iff in B; contradiction|].
    clear B.
    set (s := ulpExp q). pose proof (pow2_pos s) as Hp.
    destruct (Z_le_gt_dec s 0) as [Hs|Hs].
    + exists z. apply Qred_to_inject_Z.
      assert (Hd : q / pow2 s == inject_Z (z * 2 ^ (- s))).
      { rewrite inject_Z_mult, <- pow2_Z by lia. rewrite pow2_inv, Hq.
        reflexivity. }
      rewrite (roundHalfEven_comp _ _ Hd), roundHalfEven_Z.
      rewrite inject_Z_mult, <- pow2_Z by lia. rewrite pow2_inv. field. lra.
    + exists (roundHalfEven (q / pow2 s) * 2 ^ s)%Z. apply Qred_to_inject_Z.
      rewrite inject_Z_mult, <- pow2_Z by lia. reflexivity.
Qed.

(** An integer rounds to an integer. *)
Lemma rnd_integer (q : Q) (z : Z) :
  q == inject_Z z -> exists z', rnd q = inject_Z z'.
Proof.
  intros Hq. unfold rnd. apply (rndReduced_integer _ z).
  transitivity q; [apply Qred_correct | exact Hq].
Qed.

Lemma inject_Z_nonneg_inv (z : Z) : 0 <= inject_Z z -> (0 <= z)%Z.
Proof. intros H. rewrite Zle_Qle. exact H. Qed.

Lemma fadd_nat (h k : Z) :
  (0 <= h)%Z -> (0 <= k)%Z ->
  exists h', (0 <= h')%Z /\ fadd (inject_Z h) (inject_Z k) = inject_Z h'.
Proof.
  intros Hh Hk. unfold fadd.
  destruct (rnd_integer (inject_Z h + inject_Z k) (h + k)) as [h' E].
  { rewrite inject_Z_plus. reflexivity. }
  exists h'. split; [|exact E]. apply inject_Z_nonneg_inv. rewrite <- E.
  apply rnd_nonneg. rewrite <- inject_Z_plus. apply (Zle_to_Q 0). lia.
Qed.

Lemma calculateNewMultiplier_0 : calculateNewMultiplier 0 = 1.
Proof. vm_compute. reflexivity. Qed.

Lemma MULTIPLIER_INCREASE_pos : 0 < Constants.MULTIPLIER_INCREASE.
Proof. vm_compute. reflexivity. Qed.

Lemma toFixed1_nonneg (x : Q) :
  0 <= x -> toFixed1 x = inject_Z (Qfloor (x * 10 + (1 # 2))) / 10.
Proof.
  intros Hx. unfold toFixed1. apply Qle_bool_iff in Hx as Hb. rewrite Hb.
  assert (E : Qfloor (Qabs x * 10 + (1 # 2)) = Qfloor (x * 10 + (1 # 2))).
  { apply Qfloor_comp. rewrite (Qabs_pos x Hx). reflexivity. }
  now rewrite E.
Qed.

Lemma Qfloor_ge (x : Q) (k : Z) : inject_Z k <= x -> (k <= Qfloor x)%Z.
Proof.
  intros H. pose proof (Qfloor_resp_le _ _ H) as H'.
  now rewrite Qfloor_Z in H'.
Qed.

Lemma rawMultiplier_mono (x y : num) :
  x <= y -> rawMultiplier x <= rawMultiplier y.
Proof.
  intros Hxy. unfold rawMultiplier, fadd, fmul, fdiv, Math_floor.
  pose proof MULTIPLIER_INCREASE_pos as Hd.
  apply rnd_mono. apply Qplus_le_r. apply rnd_mono.
  apply Qmult_le_compat_r; [|apply Qlt_le_weak, Hd].
  rewrite <- Zle_Qle. apply Qfloor_resp_le. apply rnd_mono.
  apply Qmult_le_compat_r; [exact Hxy|]. discriminate.
Qed.

Lemma rawMultiplier_ge_1 (x : num) : 0 <= x -> 1 <= rawMultiplier x.
Proof.
  intros Hx. unfold rawMultiplier, fadd, fmul, fdiv, Math_floor.
  pose proof MULTIPLIER_INCREASE_pos as Hd.
  apply (rnd_ge_int _ 1); [lia|].
  assert (H0 : 0 <= rnd (x / Constants.HITS_PER_MULTIPLIER_INCREASE)).
  { apply rnd_nonneg. apply Qle_shift_div_l; [reflexivity|].
    rewrite Qmult_0_l. exact Hx. }
  assert (Hk : 0 <= inject_Z (Qfloor (rnd (x / Constants.HITS_PER_MULTIPLIER_INCREASE)))).
  { apply (Zle_to_Q 0). apply Qfloor_ge, H0. }
  set (k := inject_Z (Qfloor (rnd (x / Constants.HITS_PER_MULTIPLIER_INCREASE)))) in *.
  set (d := Constants.MULTIPLIER_INCREASE) in *.
  assert (Hp : 0 <= rnd (k * d)).
  { apply rnd_nonneg. apply Qmult_le_0_compat; [exact Hk | apply Qlt_le_weak, Hd]. }
  unfold Constants.BASE_MULTIPLIER. change (inject_Z 1) with 1. lra.
Qed.

Lemma calculateNewMultiplier_raw (h : num) :
  calculateNewMultiplier h = rnd (toFixed1 (rawMultiplier h)).
Proof. reflexivity. Qed.

Lemma calculateNewMultiplier_ge_1 (x : num) :
  0 <= x -> 1 <= calculateNewMultiplier x.
Proof.
  intros Hx. rewrite calculateNewMultiplier_raw.
  pose proof (rawMultiplier_ge_1 x Hx) as Hr.
  set (r := rawMultiplier x) in *. clearbody r.
  rewrite toFixed1_nonneg by lra.
  apply (rnd_ge_int _ 1); [lia|].
  assert (Hf : (10 <= Qfloor (r * 10 + (1 # 2)))%Z).
  { apply Qfloor_ge. change (inject_Z 10) with 10. lra. }
  apply (Zle_to_Q 10) in Hf. change (inject_Z 10) with 10 in Hf.
  change (inject_Z 1) with 1.
  apply Qle_shift_div_l; [reflexivity | lra].
Qed.

Lemma calculateNewMultiplier_mono (x y : num) :
  0 <= x -> x <= y -> calculateNewMultiplier x <= calculateNewMultiplier y.
Proof.
  intros Hx Hxy. rewrite !calculateNewMultiplier_raw.
  pose proof (rawMultiplier_ge_1 x Hx) as Hr.
  pose proof (rawMultiplier_mono x y Hxy) as Hm.
  set (r := rawMultiplier x) in *. set (r' := rawMultiplier y) in *.
  clearbody r r'.
  rewrite !toFixed1_nonneg by lra.
  apply rnd_mono. apply Qmult_le_compat_r; [|discriminate].
  rewrite <- Zle_Qle. apply Qfloor_resp_le. lra.
Qed.

(** What [updateHitsAndMultiplier] returns on integer counts. *)
Lemma updateHitsAndMultiplier_inv (isMiss : bool) (h k : Z) :
  (0 <= h)%Z -> (0 <= k)%Z ->
  let r := updateHitsAndMultiplier isMiss (inject_Z h) (inject_Z k) in
  (exists h', (0 <= h')%Z /\ fst r = inject_Z h') /\
  snd r = calculateNewMultiplier (fst r) /\
  1 <= snd r.
Proof.
  intros Hh Hk. cbv zeta. unfold updateHitsAndMultiplier.
  destruct isMiss; cbn [fst snd].
  - split; [exists 0%Z; split; [lia | reflexivity]|].
    split; [symmetry; exact calculateNewMultiplier_0 | discriminate].
  - destruct (fadd_nat h k Hh Hk) as (h' & Hh' & E). rewrite E.
    split; [exists h'; split; [exact Hh' | reflexivity]|].
    split; [reflexivity|]. apply calculateNewMultiplier_ge_1.
    apply (Zle_to_Q 0). exact Hh'.
Qed.

(** Adding points for [n >= 0] notes at multiplier [m >= 0] keeps the
    score a non-negative number and never lowers it. *)
Lemma score_step (sc n m : num) :
  representable sc -> 0 <= sc -> 0 <= n -> 0 <= m ->
  let sc' := fadd sc (fmul (fmul n Constants.SCORE_INCREASE) m) in
  representable sc' /\ 0 <= sc' /\ sc <= sc'.
Proof.
  intros Hr Hs Hn Hm. cbv zeta. unfold fadd, fmul.
  assert (H1 : 0 <= rnd (n * Constants.SCORE_INCREASE)).
  { apply rnd_nonneg. apply Qmult_le_0_compat; [exact Hn | discriminate]. }
  assert (H2 : 0 <= rnd (rnd (n * Constants.SCORE_INCREASE) * m)).
  { apply rnd_nonneg. apply Qmult_le_0_compat; assumption. }
  split; [apply rnd_representable|].
  assert (H3 : sc <= rnd (sc + rnd (rnd (n * Constants.SCORE_INCREASE) * m))).
  { apply rnd_ge_repr; [exact Hr | lra]. }
  split; lra.
Qed.

(** [hash] of a non-negative seed lies in [0, 2^31). *)
Lemma hash_range (seed : num) :
  0 <= seed -> 0 <= RNG.hash seed < inject_Z (2 ^ 31).
Proof.
  intros Hs. unfold RNG.hash, fmod, fadd, fmul.
  set (x := rnd (rnd (RNG.a * seed) + RNG.c)).
  assert (Hx : 0 <= x).
  { unfold x. apply rnd_nonneg.
    assert (0 <= rnd (RNG.a * seed)).
    { apply rnd_nonneg. apply Qmult_le_0_compat; [discriminate | exact Hs]. }
    unfold RNG.c. lra. }
  assert (Hq : 0 <= x / RNG.m).
  { apply Qle_shift_div_l; [reflexivity | lra]. }
  unfold Qtrunc. apply Qle_bool_iff in Hq as Hb. rewrite Hb.
  rewrite (Qred_correct _).
  pose proof (Qfloor_le (x / RNG.m)) as Hf.
  pose proof (Qlt_floor (x / RNG.m)) as Hl.
  rewrite inject_Z_plus in Hl. change (inject_Z 1) with 1 in Hl.
  set (f := inject_Z (Qfloor (x / RNG.m))) in *.
  assert (Hm : 0 < RNG.m) by reflexivity.
  assert (E : x == x / RNG.m * RNG.m).
  { unfold num in *. field. discriminate. }
  change (inject_Z (2 ^ 31)) with RNG.m.
  split.
  - apply (Qmult_le_r _ _ RNG.m Hm) in Hf. lra.
  - apply (Qmult_lt_r _ _ RNG.m Hm) in Hl. lra.
Qed.

Lemma comboInvariant_intro (s s' : State) (isMiss : bool) (k : Z) :
  comboInvariant s -> (0 <= k)%Z ->
  (consecutiveHits s', multiplier s')
  = updateHitsAndMultiplier isMiss (consecutiveHits s) (inject_Z k) ->
  (representable (score s') /\ 0 <= score s') ->
  (0 <= randomNumber s' < inject_Z (2 ^ 31)) ->
  comboInvariant s'.
Proof.
  intros ((h & Hh & Eh) & _) Hk Hu Hsc Hr.
  rewrite Eh in Hu.
  destruct (updateHitsAndMultiplier_inv isMiss h k Hh Hk) as (H1 & H2 & H3).
  rewrite <- Hu in H1, H2, H3. cbn [fst snd] in H1, H2, H3.
  unfold comboInvariant. tauto.
Qed.

Lemma addRandomBgCircle_seed (isMiss : bool) (r : num) (bg : list BgCircle) :
  0 <= r < inject_Z (2 ^ 31) ->
  0 <= fst (addRandomBgCircle isMiss r bg) < inject_Z (2 ^ 31).
Proof.
  intros Hr. unfold addRandomBgCircle. destruct isMiss; cbn [fst].
  - apply hash_range. tauto.
  - exact Hr.
Qed.

Lemma comboInvariant_Tick elapsed s :
  comboInvariant s ->
  comboInvariant (Tick.apply elapsed s) /\ score s <= score (Tick.apply elapsed s).
Proof.
  intros Hinv. pose proof Hinv as (_ & _ & _ & Hrep & Hs0 & Hrn).
  unfold Tick.apply.
  set (fp := filter Tick.isTailFullyPlayed (tails s)).
  set (miss := Nat.ltb 0 _).
  destruct (updateHitsAndMultiplier miss (consecutiveHits s) (len fp))
    as [h' m'] eqn:Eu.
  assert (Hc : comboInvariant
                 {| backgroundCircles := [];
                    circles := []; playedCircles := []; tails := [];
                    finishedTails := []; exit := []; objCount := 0;
                    score := 0; consecutiveHits := h'; multiplier := m';
                    randomNumber := randomNumber s; gameEnd := false |}).
  { apply (comboInvariant_intro s _ miss (Z.of_nat (List.length fp)));
      [exact Hinv | lia | symmetry; exact Eu | | exact Hrn].
    cbn [score]. split; [apply (representable_int 0); lia | apply Qle_refl]. }
  destruct Hc as (C1 & C2 & C3 & _). cbn [consecutiveHits multiplier] in C1, C2, C3.
  destruct (score_step (score s) (len fp) m' Hrep Hs0) as (S1 & S2 & S3).
  { apply (Zle_to_Q 0). lia. }
  { lra. }
  split; [|exact S3].
  unfold comboInvariant. cbn [consecutiveHits multiplier score randomNumber].
  tauto.
Qed.

Lemma comboInvariant_PressKey key s :
  comboInvariant s ->
  comboInvariant (PressKey.apply key s) /\ score s <= score (PressKey.apply key s).
Proof.
  intros Hinv. pose proof Hinv as (_ & _ & _ & Hrep & Hs0 & Hrn).
  unfold PressKey.apply.
  destruct (Nat.ltb 0 _); [split; [exact Hinv | apply Qle_refl]|].
  set (al := alignedCircles (initialisePressAndHoldKey s key)).
  set (miss := Nat.eqb _ 0).
  destruct (updateHitsAndMultiplier miss (consecutiveHits s) 1)
    as [h' m'] eqn:Eu.
  pose proof (addRandomBgCircle_seed miss (randomNumber s) (backgroundCircles s) Hrn)
    as Hseed.
  destruct (addRandomBgCircle miss (randomNumber s) (backgroundCircles s))
    as [r' bg'] eqn:Er. cbn [fst] in Hseed.
  assert (Hc : comboInvariant
                 {| backgroundCircles := [];
                    circles := []; playedCircles := []; tails := [];
                    finishedTails := []; exit := []; objCount := 0;
                    score := 0; consecutiveHits := h'; multiplier := m';
                    randomNumber := r'; gameEnd := false |}).
  { apply (comboInvariant_intro s _ miss 1);
      [exact Hinv | lia | symmetry; exact Eu | | exact Hseed].
    cbn [score]. split; [apply (representable_int 0); lia | apply Qle_refl]. }
  destruct Hc as (C1 & C2 & C3 & _). cbn [consecutiveHits multiplier] in C1, C2, C3.
  destruct (score_step (score s) (len al) m' Hrep Hs0) as (S1 & S2 & S3).
  { apply (Zle_to_Q 0). lia. }
  { lra. }
  split; [|exact S3].
  unfold comboInvariant. cbn [consecutiveHits multiplier score randomNumber].
  tauto.
Qed.

Lemma comboInvariant_ReleaseKey key s :
  comboInvariant s ->
  comboInvariant (ReleaseKey.apply key s) /\ score (ReleaseKey.apply key s) = score s.
Proof.
  intros Hinv. pose proof Hinv as (_ & _ & _ & Hrep & Hs0 & Hrn).
  unfold ReleaseKey.apply.
  destruct (_ && _); [split; [exact Hinv | reflexivity]|].
  set (miss := Nat.eqb _ 0).
  destruct (updateHitsAndMultiplier miss (consecutiveHits s) 0)
    as [h' m'] eqn:Eu.
  pose proof (addRandomBgCircle_seed miss (randomNumber s) (backgroundCircles s) Hrn)
    as Hseed.
  destruct (addRandomBgCircle miss (randomNumber s) (backgroundCircles s))
    as [r' bg'] eqn:Er. cbn [fst] in Hseed.
  split; [|reflexivity].
  apply (comboInvariant_intro s _ miss 0);
    [exact Hinv | lia | symmetry; exact Eu | | exact Hseed].
  cbn [score]. split; assumption.
Qed.

Lemma comboInvariant_same (s s' : State) :
  consecutiveHits s' = consecutiveHits s -> multiplier s' = multiplier s ->
  score s' = score s -> randomNumber s' = randomNumber s ->
  comboInvariant s ->
  comboInvariant s' /\ score s <= score s'.
Proof.
  unfold comboInvariant. intros -> -> -> -> H. split; [exact H | apply Qle_refl].
Qed.

(** Every action keeps combo, multiplier, score and seed in step and never
    lowers the score. *)
Lemma comboInvariant_apply (action : Action) (s : State) :
  comboInvariant s ->
  comboInvariant (apply action s) /\ score s <= score (apply action s).
Proof.
  intros Hinv. destruct action; cbn [apply].
  - apply comboInvariant_Tick, Hinv.
  - apply comboInvariant_same; try exact Hinv;
      unfold CreateCircle.apply;
      destruct (getColumnAndColour noteData minPitch maxPitch); reflexivity.
  - apply comboInvariant_same; try exact Hinv; reflexivity.
  - apply comboInvariant_PressKey, Hinv.
  - apply comboInvariant_same; try exact Hinv;
      unfold HoldKey.apply; destruct (Nat.eqb _ 0); reflexivity.
  - destruct (comboInvariant_ReleaseKey key s Hinv) as [H E].
    split; [exact H | rewrite E; apply Qle_refl].
  - apply comboInvariant_same; try exact Hinv; reflexivity.
Qed.

Lemma comboInvariant_reduceState (s : State) (action : Action) :
  comboInvariant s ->
  comboInvariant (reduceState s action) /\ score s <= score (reduceState s action).
Proof.
  intros Hinv. unfold reduceState. destruct (gameEnd s).
  - split; [exact Hinv | apply Qle_refl].
  - apply comboInvariant_apply, Hinv.
Qed.

Lemma comboInvariant_initialState : comboInvariant initialState.
Proof.
  unfold comboInvariant. cbn [initialState consecutiveHits multiplier score randomNumber].
  split; [exists 0%Z; split; [lia | reflexivity]|].
  split; [symmetry; exact calculateNewMultiplier_0|].
  split; [discriminate|].
  split; [apply (representable_int 0); lia|].
  split; [apply Qle_refl|].
  vm_compute. split; [discriminate | reflexivity].
Qed.

Lemma fold_reduceState_invariant (actions : list Action) :
  forall s, comboInvariant s ->
  comboInvariant (fold_left reduceState actions s) /\
  score s <= score (fold_left reduceState actions s).
Proof.
  induction actions as [|a actions IH]; intros s Hinv; cbn [fold_left].
  - split; [exact Hinv | apply Qle_refl].
  - destruct (comboInvariant_reduceState s a Hinv) as [H1 H2].
    destruct (IH _ H1) as [H3 H4]. split; [exact H3 | lra].
Qed.

Lemma play_app (actions more : list Action) :
  play (actions ++ more) = fold_left reduceState more (play actions).
Proof. unfold play. apply fold_left_app. Qed.

(** X1. In every state reached in play the combo is a non-negative
    integer, the multiplier is the one computed from it and is at least 1,
    the score is non-negative, and the seed lies in [0, 2^31). *)
Theorem play_combo_invariant (actions : list Action) :
  let s := play actions in
  (exists h : Z, (0 <= h)%Z /\ consecutiveHits s = inject_Z h) /\
  multiplier s = calculateNewMultiplier (consecutiveHits s) /\
  1 <= multiplier s /\
  0 <= score s /\
  0 <= randomNumber s < inject_Z (2 ^ 31).
Proof.
  cbv zeta.
  destruct (fold_reduceState_invariant actions initialState
              comboInvariant_initialState) as [(H1 & H2 & H3 & _ & H5 & H6) _].
  fold (play actions) in *. tauto.
Qed.

(** X2. The score never goes down: whatever is played next, the score
    after it is at least the score before. *)
Theorem play_score_never_decreases (actions more : list Action) :
  score (play actions) <= score (play (actions ++ more)).
Proof.
  rewrite play_app.
  destruct (fold_reduceState_invariant actions initialState
              comboInvariant_initialState) as [Hinv _].
  apply (fold_reduceState_invariant more), Hinv.
Qed.

(** X3. The multiplier grows with the combo: more consecutive hits never
    give a smaller multiplier, and no combo gives less than 1. *)
Theorem calculateNewMultiplier_monotone (h h' : num) :
  0 <= h -> h <= h' ->
  1 <= calculateNewMultiplier h /\
  calculateNewMultiplier h <= calculateNewMultiplier h'.
Proof.
  intros H0 Hle. split.
  - apply calculateNewMultiplier_ge_1, H0.
  - apply calculateNewMultiplier_mono; assumption.
Qed.

Lemma calculateNewMultiplier_monotone_witness :
  0 <= 9 /\ 9 <= 10 /\
  calculateNewMultiplier 9 <= calculateNewMultiplier 10.
Proof.
  split; [discriminate|]. split; [discriminate|].
  apply (calculateNewMultiplier_monotone 9 10); discriminate.
Defined.

(** ** Entity ids in play *)

Lemma filter_partition_perm {A : Type} (p : A -> bool) (l : list A) :
  Permutation (filter p l ++ filter (fun x => negb (p x)) l) l.
Proof.
  induction l as [|a l IH]; cbn [filter]; [constructor|].
  destruct (p a); cbn [negb app].
  - constructor. exact IH.
  - apply Permutation_sym, Permutation_cons_app, Permutation_sym, IH.
Qed.

Lemma filter_filter_and {A : Type} (p q : A -> bool) (l : list A) :
  filter q (filter p l) = filter (fun x => p x && q x) l.
Proof.
  induction l as [|a l IH]; cbn [filter]; [reflexivity|].
  destruct (p a); cbn [filter andb]; [destruct (q a)|]; now rewrite IH.
Qed.

Lemma existsb_map_compose {A B : Type} (f : B -> bool) (g : A -> B) (l : list A) :
  existsb f (map g l) = existsb (fun x => f (g x)) l.
Proof. induction l as [|a l IH]; cbn; [reflexivity | now rewrite IH]. Qed.

Lemma existsb_same {A : Type} (f g : A -> bool) (l : list A) :
  (forall x, f x = g x) -> existsb f l = existsb g l.
Proof.
  intros H. induction l as [|a l IH]; cbn; [reflexivity|]. now rewrite H, IH.
Qed.

Lemma NoDup_map_eq {A : Type} (f : A -> string) (l : list A) (x y : A) :
  NoDup (map f l) -> In x l -> In y l -> f x = f y -> x = y.
Proof.
  induction l as [|a l IH]; cbn; intros Hnd Hx Hy E; [contradiction|].
  inversion Hnd as [|? ? Hna Hnd']; subst.
  destruct Hx as [<-|Hx], Hy as [<-|Hy]; try reflexivity.
  - exfalso. apply Hna. rewrite E. apply in_map, Hy.
  - exfalso. apply Hna. rewrite <- E. apply in_map, Hx.
  - apply IH; assumption.
Qed.

(** With distinct ids, "some selected element has the id of [t]" says that
    [t] itself is selected. *)
Lemma existsb_same_id {A : Type} (f : A -> string) (p : A -> bool)
    (l : list A) (t : A) :
  NoDup (map f l) -> In t l ->
  existsb (fun y => String.eqb (f y) (f t)) (filter p l) = p t.
Proof.
  intros Hnd Ht. destruct (p t) eqn:Ep.
  - apply existsb_exists. exists t. split; [apply filter_In; auto|].
    apply String.eqb_refl.
  - apply not_true_is_false. intros H. apply existsb_exists in H.
    destruct H as (y & Hy & E). apply filter_In in Hy. destruct Hy as [Hy Hpy].
    apply String.eqb_eq in E.
    rewrite (NoDup_map_eq f l y t Hnd Hy Ht E) in Hpy. congruence.
Qed.

Lemma NoDup_map_filter {A : Type} (f : A -> string) (p : A -> bool) (l : list A) :
  NoDup (map f l) -> NoDup (map f (filter p l)).
Proof.
  induction l as [|a l IH]; cbn [map filter]; intros H; [exact H|].
  inversion H as [|? ? Hna Hnd]; subst.
  destruct (p a); cbn [map]; [|apply IH, Hnd].
  constructor; [|apply IH, Hnd].
  intros Hin. apply Hna. apply in_map_iff in Hin.
  destruct Hin as (x & E & Hx). apply filter_In in Hx.
  apply in_map_iff. exists x. tauto.
Qed.

Lemma NoDup_app_filter {A B : Type} (f : A -> string) (g : B -> string)
    (p : A -> bool) (l1 : list A) (l2 : list B) :
  NoDup (map f l1 ++ map g l2) -> NoDup (map f (filter p l1) ++ map g l2).
Proof.
  induction l1 as [|a l1 IH]; cbn [map filter app]; intros H; [exact H|].
  inversion H as [|? ? Hna Hnd]; subst.
  destruct (p a); cbn [map app]; [|apply IH, Hnd].
  constructor; [|apply IH, Hnd].
  intros Hin. apply Hna. apply in_or_app. apply in_app_or in Hin.
  destruct Hin as [Hin|Hin]; [left|right; exact Hin].
  apply in_map_iff in Hin. destruct Hin as (x & E & Hx).
  apply filter_In in Hx. apply in_map_iff. exists x. tauto.
Qed.

Lemma NoDup_app_filter_r {A B : Type} (f : A -> string) (g : B -> string)
    (q : B -> bool) (l1 : list A) (l2 : list B) :
  NoDup (map f l1 ++ map g l2) -> NoDup (map f l1 ++ map g (filter q l2)).
Proof.
  intros H. apply (Permutation_NoDup (l := map g (filter q l2) ++ map f l1));
    [apply Permutation_app_comm|].
  apply NoDup_app_filter.
  apply (Permutation_NoDup (l := map f l1 ++ map g l2));
    [apply Permutation_app_comm | exact H].
Qed.

Lemma map_id_moved {A : Type} (f : A -> string) (g : A -> A) (l : list A) :
  (forall x, f (g x) = f x) -> map f (map g l) = map f l.
Proof.
  intros H. rewrite map_map. apply map_ext. exact H.
Qed.

(** The tails after [ReleaseKey] and after [HoldKey]: the selected ones
    first, updated, then the others. *)
Lemma remaining_by_id (p : Tail -> bool) (T : list Tail) :
  NoDup (map Tail.id T) ->
  filter
    (fun t =>
       negb (existsb (fun y => String.eqb (Tail.id y) (Tail.id t)) (filter p T)))
    T
  = filter (fun t => negb (p t)) T.
Proof.
  intros Hnd. apply filter_ext_in. intros t Ht.
  now rewrite (existsb_same_id Tail.id p T t Hnd Ht).
Qed.

Lemma ReleaseKey_tails key s :
  NoDup (map Tail.id (tails s)) ->
  tails (ReleaseKey.apply key s) = tails s \/
  exists p,
    tails (ReleaseKey.apply key s)
    = map (fun t => setPlayed (if isTailEndAligned t (keyToColumn key)
                               then true else false) (Tail.isStartNote t) t)
        (filter p (tails s))
      ++ filter (fun t => negb (p t)) (tails s).
Proof.
  intros Hnd. unfold ReleaseKey.apply.
  destruct (_ && _); [left; reflexivity|]. right.
  exists (fun t => Tail.isPlayed t && String.eqb (Tail.x1 t) (keyToColumn key)).
  destruct (updateHitsAndMultiplier _ _ _) as [h' m'].
  destruct (addRandomBgCircle _ _ _) as [r' bg'].
  cbn [tails]. unfold ReleaseKey.playedTailsOf.
  rewrite filter_filter_and. rewrite (remaining_by_id _ _ Hnd). reflexivity.
Qed.

Lemma HoldKey_tails key s :
  NoDup (map Tail.id (tails s)) ->
  tails (HoldKey.apply key s) = tails s \/
  exists p,
    tails (HoldKey.apply key s)
    = map (setPlayed true true) (filter p (tails s))
      ++ filter (fun t => negb (p t)) (tails s).
Proof.
  intros Hnd. unfold HoldKey.apply.
  destruct (Nat.eqb _ 0); [left; reflexivity|]. right.
  set (a := fun t : Tail =>
              existsb (fun c => String.eqb (Circle.id c) (Circle.id (Tail.circle t)))
                (alignedTailCircles (initialisePressAndHoldKey s key))).
  exists a. cbn [tails]. f_equal.
  unfold Util.except, Util.not, Util.elem.
  rewrite <- (remaining_by_id a _ Hnd).
  apply filter_ext. intros t. f_equal.
  rewrite existsb_map_compose. apply existsb_same.
  intros y. cbn [setPlayed Tail.id]. apply String.eqb_sym.
Qed.

Lemma selected_first_ids (g : Tail -> Tail) (p : Tail -> bool) (T : list Tail) :
  (forall t, Tail.id (g t) = Tail.id t) ->
  Permutation
    (map Tail.id (map g (filter p T) ++ filter (fun t => negb (p t)) T))
    (map Tail.id T).
Proof.
  intros Hg. rewrite map_app, (map_id_moved Tail.id g _ Hg), <- map_app.
  apply Permutation_map, filter_partition_perm.
Qed.

Lemma ReleaseKey_tail_ids key s :
  NoDup (map Tail.id (tails s)) ->
  Permutation (map Tail.id (tails (ReleaseKey.apply key s)))
    (map Tail.id (tails s)).
Proof.
  intros Hnd. destruct (ReleaseKey_tails key s Hnd) as [E|(p & E)]; rewrite E.
  - reflexivity.
  - apply selected_first_ids. reflexivity.
Qed.

Lemma HoldKey_tail_ids key s :
  NoDup (map Tail.id (tails s)) ->
  Permutation (map Tail.id (tails (HoldKey.apply key s)))
    (map Tail.id (tails s)).
Proof.
  intros Hnd. destruct (HoldKey_tails key s Hnd) as [E|(p & E)]; rewrite E.
  - reflexivity.
  - apply selected_first_ids. reflexivity.
Qed.

Lemma filter_true {A : Type} (l : list A) : filter (fun _ => true) l = l.
Proof. apply filter_all. reflexivity. Qed.

(** A state whose circles and tails are, up to order and up to changes that
    keep ids, selections of those of a state with well-formed ids has
    well-formed ids. *)
Lemma idInvariant_selection (s s' : State)
    (pc : Circle -> bool) (pt : Tail -> bool) :
  objCount s' = objCount s ->
  Permutation (map Circle.id (circles s')) (map Circle.id (filter pc (circles s))) ->
  Permutation (map Tail.id (tails s')) (map Tail.id (filter pt (tails s))) ->
  (forall t', In t' (tails s') ->
     exists t, In t (tails s) /\ Tail.id t' = Tail.id t /\
               Circle.id (Tail.circle t') = Circle.id (Tail.circle t)) ->
  idInvariant s -> idInvariant s'.
Proof.
  intros Hn Hc Ht Hpair ((Hbc & Hbt) & Hnd & Hp). split; [split|split].
  - intros c' Hin. rewrite Hn.
    assert (Hid : In (Circle.id c') (map Circle.id (filter pc (circles s)))).
    { apply (Permutation_in _ Hc). apply in_map, Hin. }
    apply in_map_iff in Hid. destruct Hid as (c & E & Hcin).
    apply filter_In in Hcin. destruct (Hbc c (proj1 Hcin)) as (k & Hk & Ek).
    exists k. split; [exact Hk | congruence].
  - intros t' Hin. rewrite Hn.
    destruct (Hpair t' Hin) as (t & Htin & E & _).
    destruct (Hbt t Htin) as (k & Hk & Ek).
    exists k. split; [exact Hk | congruence].
  - unfold liveIds in *.
    apply (Permutation_NoDup
             (l := map Circle.id (filter pc (circles s))
                   ++ map Tail.id (filter pt (tails s)))).
    + apply Permutation_sym, Permutation_app; assumption.
    + apply NoDup_app_filter, NoDup_app_filter_r, Hnd.
  - intros t' Hin. destruct (Hpair t' Hin) as (t & Htin & E1 & E2).
    destruct (Hp t Htin) as (k & Ek1 & Ek2). exists k. split; congruence.
Qed.

Lemma liveIds_tails_NoDup (s : State) :
  NoDup (liveIds s) -> NoDup (map Tail.id (tails s)).
Proof. apply NoDup_app_remove_l. Qed.

Lemma in_map_source {A : Type} (g : A -> A) (l : list A) (x : A) :
  In x (map g l) -> exists y, In y l /\ x = g y.
Proof.
  intros H. apply in_map_iff in H. destruct H as (y & E & Hy). eauto.
Qed.

Lemma idInvariant_Tick elapsed s : idInvariant s -> idInvariant (Tick.apply elapsed s).
Proof.
  apply (idInvariant_selection s _
           (Util.not Tick.isCircleExpired)
           (fun t => Util.not Tick.isTailExpired t
                     && Util.not Tick.isTailFullyPlayed t)).
  - unfold Tick.apply. destruct (updateHitsAndMultiplier _ _ _). reflexivity.
  - unfold Tick.apply. destruct (updateHitsAndMultiplier _ _ _). cbn [circles].
    rewrite map_id_moved; reflexivity.
  - rewrite tails_Tick. unfold tickTails.
    rewrite !map_id_moved, filter_filter_and; try reflexivity.
    intros t. unfold Tick.moveTail, Tick.movePlayedTail, Tick.moveUnplayedTail.
    destruct (Tail.isPlayed t); reflexivity.
  - rewrite tails_Tick. unfold tickTails. intros t' Hin.
    apply in_map_source in Hin. destruct Hin as (t1 & Hin & ->).
    apply in_map_source in Hin. destruct Hin as (t & Hin & ->).
    apply filter_In in Hin. destruct Hin as [Hin _].
    apply filter_In in Hin. destruct Hin as [Hin _].
    exists t. split; [exact Hin|].
    unfold Tick.moveTail, Tick.movePlayedTail, Tick.moveUnplayedTail.
    destruct (Tail.isPlayed (Tick.clearStartNote t)); split; reflexivity.
Qed.

Lemma idInvariant_PressKey key s : idInvariant s -> idInvariant (PressKey.apply key s).
Proof.
  intros Hinv. unfold PressKey.apply.
  destruct (Nat.ltb 0 _); [exact Hinv|].
  destruct (updateHitsAndMultiplier _ _ _) as [h' m'].
  destruct (addRandomBgCircle _ _ _) as [r' bg'].
  apply (idInvariant_selection s _
           (fun c => negb (isCircleAligned c (keyToColumn key)))
           (fun _ => true)); try exact Hinv.
  - reflexivity.
  - reflexivity.
  - cbn [tails]. rewrite filter_true. reflexivity.
  - cbn [tails]. intros t' Hin. exists t'. auto.
Qed.

Lemma idInvariant_HoldKey key s : idInvariant s -> idInvariant (HoldKey.apply key s).
Proof.
  intros Hinv. pose proof Hinv as (_ & Hnd & _).
  apply liveIds_tails_NoDup in Hnd.
  apply (idInvariant_selection s _
           (fun c => if Nat.eqb (List.length
                                   (alignedTailCircles
                                      (initialisePressAndHoldKey s key))) 0
                     then true
                     else negb (isCircleAligned c (keyToColumn key)))
           (fun _ => true)); try exact Hinv.
  - unfold HoldKey.apply. destruct (Nat.eqb _ 0); reflexivity.
  - unfold HoldKey.apply. destruct (Nat.eqb _ 0).
    + rewrite filter_true. reflexivity.
    + reflexivity.
  - rewrite filter_true. apply HoldKey_tail_ids, Hnd.
  - intros t' Hin.
    destruct (HoldKey_tails key s Hnd) as [E|(p & E)]; rewrite E in Hin.
    + exists t'. auto.
    + apply in_app_or in Hin. destruct Hin as [Hin|Hin].
      * apply in_map_source in Hin. destruct Hin as (t & Hin & ->).
        apply filter_In in Hin. exists t. split; [tauto | split; reflexivity].
      * apply filter_In in Hin. exists t'. tauto.
Qed.

Lemma idInvariant_ReleaseKey key s :
  idInvariant s -> idInvariant (ReleaseKey.apply key s).
Proof.
  intros Hinv. pose proof Hinv as (_ & Hnd & _).
  apply liveIds_tails_NoDup in Hnd.
  apply (idInvariant_selection s _ (fun _ => true) (fun _ => true));
    try exact Hinv.
  - unfold ReleaseKey.apply. destruct (_ && _); [reflexivity|].
    destruct (updateHitsAndMultiplier _ _ _) as [h' m'].
    destruct (addRandomBgCircle _ _ _) as [r' bg']. reflexivity.
  - rewrite filter_true. unfold ReleaseKey.apply.
    destruct (_ && _); [reflexivity|].
    destruct (updateHitsAndMultiplier _ _ _) as [h' m'].
    destruct (addRandomBgCircle _ _ _) as [r' bg']. reflexivity.
  - rewrite filter_true. apply ReleaseKey_tail_ids, Hnd.
  - intros t' Hin.
    destruct (ReleaseKey_tails key s Hnd) as [E|(p & E)]; rewrite E in Hin.
    + exists t'. auto.
    + apply in_app_or in Hin. destruct Hin as [Hin|Hin].
      * apply in_map_source in Hin. destruct Hin as (t & Hin & ->).
        apply filter_In in Hin. exists t. split; [tauto | split; reflexivity].
      * apply filter_In in Hin. exists t'. tauto.
Qed.

Lemma tailsPaired_CreateCircle noteData minPitch maxPitch s (n : N) :
  objCount s = inject_Z (Z.of_N n) -> (Z.of_N n <= 2 ^ 53)%Z ->
  tailsPaired s -> tailsPaired (CreateCircle.apply noteData minPitch maxPitch s).
Proof.
  intros Hn Hle Hp. unfold tailsPaired, CreateCircle.apply.
  destruct (getColumnAndColour noteData minPitch maxPitch) as [column colour].
  cbn [Circle.hasTail tails].
  destruct (gtb _ _); [|exact Hp].
  rewrite Hn, (Number_toString_counter n Hle).
  intros t Hin. apply in_app_or in Hin. destruct Hin as [Hin|[<-|[]]].
  - apply Hp, Hin.
  - exists n. split; reflexivity.
Qed.

Lemma objCount_CreateCircle noteData minPitch maxPitch s :
  objCount (CreateCircle.apply noteData minPitch maxPitch s)
  = fadd (objCount s) 1.
Proof.
  unfold CreateCircle.apply.
  destruct (getColumnAndColour noteData minPitch maxPitch). reflexivity.
Qed.

(** Only [CreateCircle] writes the counter. *)
Lemma objCount_apply (action : Action) (s : State) :
  objCount (apply action s)
  = match action with
    | CreateCircle _ _ _ => fadd (objCount s) 1
    | _ => objCount s
    end.
Proof.
  destruct action; cbn [apply]; try reflexivity.
  - apply objCount_CreateCircle.
  - unfold PressKey.apply. destruct (Nat.ltb 0 _); [reflexivity|].
    destruct (updateHitsAndMultiplier _ _ _).
    destruct (addRandomBgCircle _ _ _). reflexivity.
  - unfold HoldKey.apply. destruct (Nat.eqb _ 0); reflexivity.
  - unfold ReleaseKey.apply. destruct (_ && _); [reflexivity|].
    destruct (updateHitsAndMultiplier _ _ _).
    destruct (addRandomBgCircle _ _ _). reflexivity.
Qed.

(** Every action keeps the ids well formed; [CreateCircle] does when the
    counter is below 2^53. *)
Lemma idInvariant_apply (action : Action) (s : State) (n : N) :
  objCount s = inject_Z (Z.of_N n) -> (Z.of_N n < 2 ^ 53)%Z ->
  idInvariant s -> idInvariant (apply action s).
Proof.
  intros Hn Hlt Hinv. destruct action; cbn [apply].
  - apply idInvariant_Tick, Hinv.
  - destruct Hinv as (Hb & Hnd & Hp).
    destruct (CreateCircle_ids noteData minPitch maxPitch s n Hn Hlt Hb Hnd)
      as (_ & Hb' & Hnd').
    split; [exact Hb' | split; [exact Hnd'|]].
    apply (tailsPaired_CreateCircle _ _ _ s n Hn); [lia | exact Hp].
  - exact Hinv.
  - apply idInvariant_PressKey, Hinv.
  - apply idInvariant_HoldKey, Hinv.
  - apply idInvariant_ReleaseKey, Hinv.
  - exact Hinv.
Qed.

Lemma idInvariant_initialState : idInvariant initialState.
Proof.
  split; [split; intros x []|]. split; [constructor | intros x []].
Qed.

Lemma countedIdInvariant_apply (action : Action) (s : State) (m : nat) :
  countedIdInvariant m s -> countedIdInvariant (S m) (apply action s).
Proof.
  intros (n & Hn & Hm & Hle & Hinv).
  destruct (Z.eq_dec (Z.of_N n) (2 ^ 53)) as [Estall|Hne].
  - exists n. rewrite objCount_apply, Hn.
    split; [|split; [lia | split; [exact Hle | intros Hc; lia]]].
    destruct action; try reflexivity.
    rewrite Estall. apply counter_stalls.
  - assert (Hlt : (Z.of_N n < 2 ^ 53)%Z) by lia.
    pose proof (idInvariant_apply action s n Hn Hlt (Hinv Hlt)) as Hinv'.
    destruct action;
      try (exists n; rewrite objCount_apply;
           split; [exact Hn | split; [lia | split; [exact Hle | intros _; exact Hinv']]]).
    exists (n + 1)%N. rewrite objCount_apply, Hn.
    split; [apply counter_advances, Hlt|].
    split; [lia | split; [lia | intros _; exact Hinv']].
Qed.

Lemma countedIdInvariant_weaken (s : State) (m : nat) :
  countedIdInvariant m s -> countedIdInvariant (S m) s.
Proof.
  intros (n & Hn & Hm & H). exists n. split; [exact Hn | split; [lia | exact H]].
Qed.

Lemma countedIdInvariant_fold (actions : list Action) :
  forall (s : State) (m : nat),
    countedIdInvariant m s ->
    countedIdInvariant (m + List.length actions)
      (fold_left reduceState actions s).
Proof.
  induction actions as [|a actions IH]; intros s m Hinv; cbn [fold_left List.length].
  - rewrite Nat.add_0_r. exact Hinv.
  - rewrite Nat.add_succ_r. apply (IH _ (S m)).
    unfold reduceState. destruct (gameEnd s).
    + apply countedIdInvariant_weaken, Hinv.
    + apply countedIdInvariant_apply, Hinv.
Qed.

(** X4. In every state reached in play, whatever the actions were, the
    counter [objCount] is a natural number, at most the number of actions
    and at most 2^53; as long as it is below 2^53, every live circle or
    tail id is "circle" or "tail" followed by a counter below [objCount],
    no two live entities share an id, and every tail carries the counter of
    its own circle. *)
Theorem play_ids_distinct (actions : list Action) :
  exists n : N,
    objCount (play actions) = inject_Z (Z.of_N n) /\
    (n <= N.of_nat (List.length actions))%N /\
    (Z.of_N n <= 2 ^ 53)%Z /\
    ((Z.of_N n < 2 ^ 53)%Z ->
     idsBelowCount (play actions) /\
     NoDup (liveIds (play actions)) /\
     tailsPaired (play actions)).
Proof.
  apply (countedIdInvariant_fold actions initialState 0).
  exists 0%N. split; [reflexivity|]. split; [lia|]. split; [lia|].
  intros _. exact idInvariant_initialState.
Qed.

Lemma play_ids_distinct_witness :
  NoDup
    (liveIds
       (play [CreateCircle longNote 40 80; Tick 0;
              CreateCircle shortNote 40 80; PressKey KeyH])).
Proof.
  destruct (play_ids_distinct
              [CreateCircle longNote 40 80; Tick 0;
               CreateCircle shortNote 40 80; PressKey KeyH])
    as (n & _ & Hle & _ & H).
  cbn [List.length] in Hle.
  exact (proj1 (proj2 (H ltac:(lia)))).
Defined.

(** X5. [HoldKey] and [ReleaseKey] neither add nor drop a tail: when the
    tail ids are distinct, the ids after the action are those before, in
    another order. *)
Theorem hold_release_keep_tails (key : ColumnKey) (s : State) :
  NoDup (map Tail.id (tails s)) ->
  Permutation (map Tail.id (tails (HoldKey.apply key s)))
    (map Tail.id (tails s)) /\
  Permutation (map Tail.id (tails (ReleaseKey.apply key s)))
    (map Tail.id (tails s)).
Proof.
  intros Hnd. split; [apply HoldKey_tail_ids | apply ReleaseKey_tail_ids];
    exact Hnd.
Qed.

(** ** Key presses *)

Lemma filter_twice_none {A : Type} (p : A -> bool) (l : list A) :
  filter p (filter (fun x => negb (p x)) l) = [].
Proof.
  apply filter_none. intros x Hx. apply filter_In in Hx.
  destruct Hx as [_ Hx]. now destruct (p x).
Qed.

Lemma length_pos_nil {A : Type} (l : list A) :
  Nat.ltb 0 (List.length l) = negb (Nat.eqb (List.length l) 0).
Proof. destruct l; reflexivity. Qed.

(** X6. [PressKey] and [HoldKey] are both issued on a key-down, and at
    most one of them acts: either [PressKey] leaves the state as it is (a
    tailed circle is aligned), or [HoldKey] does, also when it comes after
    the [PressKey]. *)
Theorem press_and_hold_exclusive (key : ColumnKey) (s : State) :
  PressKey.apply key s = s \/
  (HoldKey.apply key s = s /\
   HoldKey.apply key (PressKey.apply key s) = PressKey.apply key s).
Proof.
  destruct (Nat.eqb (List.length
                       (alignedTailCircles (initialisePressAndHoldKey s key))) 0)
    eqn:E.
  - right. split.
    + unfold HoldKey.apply. now rewrite E.
    + unfold HoldKey.apply at 1.
      assert (H : alignedTailCircles
                    (initialisePressAndHoldKey (PressKey.apply key s) key) = []).
      { unfold PressKey.apply. rewrite length_pos_nil, E. cbn [negb].
        destruct (updateHitsAndMultiplier _ _ _) as [h' m'].
        destruct (addRandomBgCircle _ _ _) as [r' bg'].
        unfold initialisePressAndHoldKey at 1.
        cbn [circles alignedTailCircles remainingCircles initialisePressAndHoldKey].
        rewrite (filter_twice_none (fun c => isCircleAligned c (keyToColumn key))).
        reflexivity. }
      rewrite H. reflexivity.
  - left. unfold PressKey.apply. rewrite length_pos_nil, E. reflexivity.
Qed.

(** X7. [PressKey] never loses a circle: when it acts, the circles it
    leaves on the board together with those it puts in [playedCircles] are
    the circles that were on the board. *)
Theorem PressKey_keeps_circles (key : ColumnKey) (s : State) :
  PressKey.apply key s = s \/
  Permutation
    (playedCircles (PressKey.apply key s) ++ circles (PressKey.apply key s))
    (circles s).
Proof.
  unfold PressKey.apply. destruct (Nat.ltb 0 _); [left; reflexivity|]. right.
  destruct (updateHitsAndMultiplier _ _ _) as [h' m'].
  destruct (addRandomBgCircle _ _ _) as [r' bg'].
  cbn [playedCircles circles initialisePressAndHoldKey alignedCircles
         remainingCircles].
  apply filter_partition_perm.
Qed.

(** X8. [HoldKey], when it acts, takes every aligned circle of the column
    off the board but puts only the tailed ones in [playedCircles]: of a
    tailless and a tailed circle aligned together both leave [circles],
    the tailed one for [playedCircles], the tailless one without reaching
    [playedCircles] or [exit], and nothing is scored. *)
Theorem HoldKey_drops_tailless_circle (key : ColumnKey) (s : State)
    (c held : Circle) :
  In c (circles s) -> In held (circles s) ->
  isCircleAligned c (keyToColumn key) = true ->
  isCircleAligned held (keyToColumn key) = true ->
  Circle.hasTail c = false -> Circle.hasTail held = true ->
  let s' := HoldKey.apply key s in
  ~ In c (circles s') /\
  ~ In held (circles s') /\
  In held (playedCircles s') /\
  (~ In c (playedCircles s) -> ~ In c (playedCircles s')) /\
  exit s' = exit s /\
  score s' = score s /\
  consecutiveHits s' = consecutiveHits s.
Proof.
  intros Hc Hh Ac Ah Tc Th. cbv zeta. unfold HoldKey.apply.
  assert (Hal : In held (alignedTailCircles (initialisePressAndHoldKey s key))).
  { cbn [initialisePressAndHoldKey alignedTailCircles].
    apply filter_In. split; [apply filter_In; auto | exact Th]. }
  destruct (Nat.eqb _ 0) eqn:E.
  { apply length_zero_nil in E. rewrite E in Hal. contradiction. }
  cbn [circles playedCircles exit score consecutiveHits].
  split; [|split; [|split; [|split; [|repeat split]]]].
  - cbn [initialisePressAndHoldKey remainingCircles]. intros Hin.
    apply filter_In in Hin. rewrite Ac in Hin. destruct Hin. discriminate.
  - cbn [initialisePressAndHoldKey remainingCircles]. intros Hin.
    apply filter_In in Hin. rewrite Ah in Hin. destruct Hin. discriminate.
  - apply in_or_app. right. exact Hal.
  - intros Hn Hin. apply in_app_or in Hin. destruct Hin as [Hin|Hin];
      [exact (Hn Hin)|].
    cbn [initialisePressAndHoldKey alignedTailCircles] in Hin.
    apply filter_In in Hin. rewrite Tc in Hin. destruct Hin. discriminate.
Qed.

Lemma HoldKey_drops_tailless_circle_witness :
  let c := sampleCircle 8 "20%" 350 false in
  let s' := HoldKey.apply KeyH chordState in
  In c (circles chordState) /\
  ~ In c (circles s') /\ ~ In c (playedCircles s') /\ exit s' = [].
Proof.
  cbv zeta.
  destruct (HoldKey_drops_tailless_circle KeyH chordState
              (sampleCircle 8 "20%" 350 false) (sampleCircle 7 "20%" 350 true))
    as (H1 & _ & _ & H3 & H4 & _).
  - right. left. reflexivity.
  - left. reflexivity.
  - vm_compute. reflexivity.
  - vm_compute. reflexivity.
  - reflexivity.
  - reflexivity.
  - split; [right; left; reflexivity|]. split; [exact H1|].
    split; [apply H3; intros [] | exact H4].
Defined.

(** X9. [HoldKey] starts the tails of the aligned tailed circles: a tail
    whose circle has the id of such a circle is in the resulting tails with
    [isPlayed] and [isStartNote] set, and the circle is moved from
    [circles] to [playedCircles]. *)
Theorem HoldKey_starts_tail (key : ColumnKey) (s : State)
    (held : Circle) (t : Tail) :
  In held (circles s) ->
  isCircleAligned held (keyToColumn key) = true ->
  Circle.hasTail held = true ->
  In t (tails s) ->
  Circle.id (Tail.circle t) = Circle.id held ->
  let s' := HoldKey.apply key s in
  In (setPlayed true true t) (tails s') /\
  In held (playedCircles s') /\
  ~ In held (circles s').
Proof.
  intros Hh Ah Th Ht Eid. cbv zeta. unfold HoldKey.apply.
  assert (Hal : In held (alignedTailCircles (initialisePressAndHoldKey s key))).
  { cbn [initialisePressAndHoldKey alignedTailCircles].
    apply filter_In. split; [apply filter_In; auto | exact Th]. }
  destruct (Nat.eqb _ 0) eqn:E.
  { apply length_zero_nil in E. rewrite E in Hal. contradiction. }
  cbn [circles playedCircles tails]. split; [|split].
  - apply in_or_app. left. apply in_map. apply filter_In. split; [exact Ht|].
    apply existsb_exists. exists held. split; [exact Hal|].
    rewrite Eid. apply String.eqb_refl.
  - apply in_or_app. right. exact Hal.
  - cbn [initialisePressAndHoldKey remainingCircles]. intros Hin.
    apply filter_In in Hin. rewrite Ah in Hin. destruct Hin. discriminate.
Qed.

Lemma HoldKey_starts_tail_witness :
  let s' := HoldKey.apply KeyH chordState in
  In (setPlayed true true (sampleTail 7 "20%" 350 (-50) false)) (tails s') /\
  In (sampleCircle 7 "20%" 350 true) (playedCircles s').
Proof.
  cbv zeta.
  destruct (HoldKey_starts_tail KeyH chordState
              (sampleCircle 7 "20%" 350 true)
              (sampleTail 7 "20%" 350 (-50) false))
    as (H1 & H2 & _).
  - left. reflexivity.
  - vm_compute. reflexivity.
  - reflexivity.
  - left. reflexivity.
  - reflexivity.
  - split; assumption.
Defined.

Lemma hold_release_keep_tails_witness :
  NoDup (map Tail.id (tails chordState)) /\
  Permutation (map Tail.id (tails (HoldKey.apply KeyH chordState)))
    (map Tail.id (tails chordState)).
Proof.
  assert (H : NoDup (map Tail.id (tails chordState))).
  { repeat constructor; cbn; intros H; repeat destruct H as [H|H];
      try discriminate H; exact H. }
  split; [exact H|]. apply (hold_release_keep_tails KeyH chordState H).
Defined.

(** ** Falling circles *)

Lemma fadd_int (z k : Z) :
  (Z.abs (z + k) < 2 ^ 53)%Z ->
  fadd (inject_Z z) (inject_Z k) = inject_Z (z + k).
Proof.
  intros H. unfold fadd. apply rnd_int; [exact H|].
  rewrite inject_Z_plus. reflexivity.
Qed.

Lemma Qle_bool_int (a b : Z) : Qle_bool (inject_Z a) (inject_Z b) = (a <=? b)%Z.
Proof.
  destruct (Z.leb_spec a b) as [H|H].
  - apply Qle_bool_iff. rewrite <- Zle_Qle. exact H.
  - apply not_true_is_false. intros E. apply Qle_bool_iff in E.
    rewrite <- Zle_Qle in E. lia.
Qed.

Lemma gtb_int (a b : Z) : gtb (inject_Z a) (inject_Z b) = (b <? a)%Z.
Proof. unfold gtb. rewrite Qle_bool_int. apply eq_sym, Z.ltb_antisym. Qed.

Lemma window_bounds :
  fsub Constants.TARGET_CY Constants.TARGET_RANGE = inject_Z 330 /\
  fadd Constants.TARGET_CY Constants.TARGET_RANGE = inject_Z 370 /\
  Constants.EXPIRE_LIMIT = inject_Z 400 /\
  Constants.TARGET_CY = inject_Z 350.
Proof. vm_compute. repeat split; reflexivity. Qed.

Lemma isCircleAligned_at (c : Circle) (z : Z) (cx : string) :
  isCircleAligned (circleAt c z) cx
  = String.eqb (Circle.cx c) cx && (330 <=? z)%Z && (z <=? 370)%Z.
Proof.
  destruct window_bounds as (E1 & E2 & _).
  unfold isCircleAligned, geb, leb. rewrite E1, E2.
  cbn [circleAt setCy Circle_HasCy Circle.cx Circle.cy].
  now rewrite !Qle_bool_int.
Qed.

Lemma isMissed_at (c : Circle) (z : Z) :
  Tick.isMissed (circleAt c z) = (370 <? z)%Z.
Proof.
  destruct window_bounds as (_ & E2 & _).
  unfold Tick.isMissed. rewrite E2.
  cbn [circleAt setCy Circle_HasCy Circle.cy]. apply gtb_int.
Qed.

Lemma isCircleExpired_at (c : Circle) (z : Z) :
  Tick.isCircleExpired (circleAt c z) = (400 <? z)%Z.
Proof.
  unfold Tick.isCircleExpired.
  cbn [circleAt setCy Circle_HasCy Circle.cy]. apply (gtb_int z 400).
Qed.

Lemma moveCircle_at (c : Circle) (z : Z) :
  (Z.abs (z + 1) < 2 ^ 53)%Z ->
  Tick.moveCircle (circleAt c z) = circleAt c (z + 1).
Proof.
  intros H. unfold Tick.moveCircle, circleAt.
  cbn [setCy getCy Circle_HasCy Circle.id Circle.r Circle.cx Circle.cy
         Circle.style Circle.class Circle.note Circle.hasTail].
  change Note.MOVEMENT with (inject_Z 1). now rewrite (fadd_int z 1 H).
Qed.

Lemma circleAt_start (c : Circle) :
  Circle.cy c = Note.START_CY -> circleAt c 0 = c.
Proof. destruct c. cbn. intros ->. reflexivity. Qed.

Lemma circles_Tick elapsed s :
  circles (Tick.apply elapsed s)
  = map Tick.moveCircle (filter (Util.not Tick.isCircleExpired) (circles s)).
Proof.
  unfold Tick.apply. destruct (updateHitsAndMultiplier _ _ _). reflexivity.
Qed.

Lemma exit_Tick elapsed s :
  exit (Tick.apply elapsed s)
  = map inl (filter Tick.isCircleExpired (circles s))
    ++ map inr (filter Tick.isTailExpired (tails s)).
Proof.
  unfold Tick.apply. destruct (updateHitsAndMultiplier _ _ _). reflexivity.
Qed.

Lemma ticks_S (n : nat) (s : State) : ticks (S n) s = Tick.apply 0 (ticks n s).
Proof. reflexivity. Qed.

(** With only the clock running, a circle at height [z <= 400] is at
    height [z + n] after [n] ticks, as long as [z + n <= 401]. *)
Lemma circle_after_ticks (s : State) (c : Circle) (z : Z) (n : nat) :
  In (circleAt c z) (circles s) -> (- 2 ^ 52 < z)%Z ->
  (z + Z.of_nat n <= 401)%Z ->
  In (circleAt c (z + Z.of_nat n)) (circles (ticks n s)).
Proof.
  intros Hin Hz. induction n as [|n IH]; intros Hn.
  - rewrite Z.add_0_r. exact Hin.
  - rewrite ticks_S.
    rewrite circles_Tick.
    replace (z + Z.of_nat (S n))%Z with (z + Z.of_nat n + 1)%Z by lia.
    rewrite <- moveCircle_at by lia.
    apply in_map. apply filter_In. split; [apply IH; lia|].
    unfold Util.not. rewrite isCircleExpired_at.
    destruct (Z.ltb_spec 400 (z + Z.of_nat n)); [lia | reflexivity].
Qed.

(** X10. The hit window in ticks.  With only the clock running, a circle
    spawned at the top is at height [n] after [n] ticks (up to 401); at
    height [z] it is aligned for its column exactly when
    [330 <= z <= 370] and counts as missed exactly when [z > 370]; the
    tick after it has passed height 400 puts it in [exit]. *)
Theorem circle_hit_window (s : State) (c : Circle) :
  In c (circles s) -> Circle.cy c = Note.START_CY ->
  (forall n : nat, (n <= 401)%nat ->
     In (circleAt c (Z.of_nat n)) (circles (ticks n s))) /\
  (forall (z : Z) (cx : string),
     isCircleAligned (circleAt c z) cx
     = String.eqb (Circle.cx c) cx && (330 <=? z)%Z && (z <=? 370)%Z) /\
  (forall z : Z, Tick.isMissed (circleAt c z) = (370 <? z)%Z) /\
  In (inl (circleAt c 401)) (exit (ticks 402 s)).
Proof.
  intros Hin Hcy. rewrite <- (circleAt_start c Hcy) in Hin.
  assert (Hat : forall n : nat, (n <= 401)%nat ->
                  In (circleAt c (Z.of_nat n)) (circles (ticks n s))).
  { intros n Hn. apply (circle_after_ticks s c 0 n Hin); lia. }
  split; [exact Hat|]. split; [intros; apply isCircleAligned_at|].
  split; [intros; apply isMissed_at|].
  rewrite (ticks_S 401), exit_Tick. apply in_or_app. left. apply in_map.
  apply filter_In. split; [exact (Hat 401%nat (le_n _))|].
  rewrite isCircleExpired_at. reflexivity.
Qed.

Lemma circle_hit_window_witness :
  let c := sampleCircle 3 "40%" 0 false in
  let s := comboState [c] [] [] in
  In (circleAt c 350) (circles (ticks 350 s)) /\
  isCircleAligned (circleAt c 350) "40%" = true /\
  isCircleAligned (circleAt c 371) "40%" = false.
Proof.
  cbv zeta.
  destruct (circle_hit_window
              (comboState [sampleCircle 3 "40%" 0 false] [] [])
              (sampleCircle 3 "40%" 0 false))
    as (H1 & H2 & _).
  - left. reflexivity.
  - reflexivity.
  - split; [apply (H1 350%nat); lia|]. split; rewrite H2; reflexivity.
Defined.

(** X11. A circle that nobody hits costs the combo 31 times: with only the
    clock running, each of the ticks 372 to 402 after it was spawned finds
    it past the window and resets combo and multiplier. *)
Theorem unhit_circle_resets_combo_31_ticks (s : State) (c : Circle) (n : nat) :
  In c (circles s) -> Circle.cy c = Note.START_CY ->
  (371 <= n <= 401)%nat ->
  consecutiveHits (ticks (S n) s) = 0 /\ multiplier (ticks (S n) s) = 1.
Proof.
  intros Hin Hcy Hn. rewrite <- (circleAt_start c Hcy) in Hin.
  assert (Hat : In (circleAt c (Z.of_nat n)) (circles (ticks n s))).
  { apply (circle_after_ticks s c 0 n Hin); lia. }
  rewrite ticks_S.
  destruct (Tick_miss 0 (ticks n s) _ Hat) as (H1 & H2 & _); [|auto].
  rewrite isMissed_at. destruct (Z.ltb_spec 370 (Z.of_nat n)); [reflexivity | lia].
Qed.

Lemma unhit_circle_resets_combo_31_ticks_witness :
  let s := comboState [sampleCircle 3 "40%" 0 false] [] [] in
  consecutiveHits (ticks 372 s) = 0 /\ multiplier (ticks 372 s) = 1 /\
  consecutiveHits (ticks 402 s) = 0 /\ multiplier (ticks 402 s) = 1.
Proof.
  cbv zeta.
  destruct (unhit_circle_resets_combo_31_ticks
              (comboState [sampleCircle 3 "40%" 0 false] [] [])
              (sampleCircle 3 "40%" 0 false) 371) as [H1 H2];
    [left; reflexivity | reflexivity | lia |].
  destruct (unhit_circle_resets_combo_31_ticks
              (comboState [sampleCircle 3 "40%" 0 false] [] [])
              (sampleCircle 3 "40%" 0 false) 401) as [H3 H4];
    [left; reflexivity | reflexivity | lia |].
  tauto.
Defined.

(** ** Background circles under the clock *)

Lemma backgroundCircles_Tick elapsed s :
  backgroundCircles (Tick.apply elapsed s)
  = filter (fun c => leb (BgCircle.cy c) Constants.TARGET_CY)
      (map Tick.moveCircle (backgroundCircles s)).
Proof.
  unfold Tick.apply. destruct (updateHitsAndMultiplier _ _ _). reflexivity.
Qed.

Lemma bgHeight_at (b : BgCircle) (z : Z) : bgHeight (bgCircleAt b z) = z.
Proof. unfold bgHeight, bgCircleAt. cbn. apply Qfloor_Z. Qed.

Lemma bgCircleAt_twice (b : BgCircle) (z z' : Z) :
  bgCircleAt (bgCircleAt b z) z' = bgCircleAt b z'.
Proof. reflexivity. Qed.

Lemma moveCircle_bg (b : BgCircle) :
  BgCircle.cy b = inject_Z (bgHeight b) -> (- 2 ^ 52 < bgHeight b)%Z ->
  (bgHeight b <= 350)%Z ->
  Tick.moveCircle b = bgCircleAt b (bgHeight b + 1).
Proof.
  intros E H1 H2. unfold Tick.moveCircle, bgCircleAt.
  cbn [setCy getCy BgCircle_HasCy]. rewrite E at 1.
  change Note.MOVEMENT with (inject_Z 1). rewrite fadd_int by lia. reflexivity.
Qed.

Lemma moveCircle_bg_removed (b : BgCircle) :
  BgCircle.cy b = inject_Z (bgHeight b) -> (350 <= bgHeight b)%Z ->
  leb (BgCircle.cy (Tick.moveCircle b)) Constants.TARGET_CY = false.
Proof.
  intros E H. unfold Tick.moveCircle, leb.
  cbn [setCy getCy BgCircle_HasCy BgCircle.cy]. rewrite E.
  apply not_true_is_false. intros Hle. apply Qle_bool_iff in Hle.
  pose proof (rnd_ge_int (inject_Z (bgHeight b) + Note.MOVEMENT) 351 ltac:(lia))
    as Hge.
  unfold fadd in Hle.
  assert (H0 : inject_Z 351 <= inject_Z (bgHeight b) + Note.MOVEMENT).
  { change Note.MOVEMENT with (inject_Z 1). rewrite <- inject_Z_plus.
    apply Zle_to_Q. lia. }
  specialize (Hge H0).
  change Constants.TARGET_CY with (inject_Z 350) in Hle.
  assert (Hc : inject_Z 351 <= inject_Z 350) by exact (Qle_trans _ _ _ Hge Hle).
  rewrite <- Zle_Qle in Hc. lia.
Qed.

(** One tick on background circles at integer heights. *)
Lemma bg_one_tick (l : list BgCircle) :
  bgIntegerHeights l ->
  filter (fun c => leb (BgCircle.cy c) Constants.TARGET_CY)
    (map Tick.moveCircle l)
  = map (fun b => bgCircleAt b (bgHeight b + 1))
      (filter (fun b => (bgHeight b + 1 <=? 350)%Z) l).
Proof.
  induction l as [|b l IH]; intros H; [reflexivity|].
  assert (Hl : bgIntegerHeights l) by (intros x Hx; apply H; right; exact Hx).
  destruct (H b (or_introl eq_refl)) as [E Hlow].
  cbn [map filter]. rewrite (IH Hl).
  destruct (Z.leb_spec (bgHeight b + 1) 350) as [Hh|Hh].
  - rewrite (moveCircle_bg b E Hlow ltac:(lia)).
    unfold leb. cbn [bgCircleAt setCy BgCircle_HasCy BgCircle.cy].
    change Constants.TARGET_CY with (inject_Z 350).
    rewrite Qle_bool_int.
    destruct (Z.leb_spec (bgHeight b + 1) 350); [reflexivity | lia].
  - rewrite (moveCircle_bg_removed b E ltac:(lia)). reflexivity.
Qed.

Lemma filter_map_swap {A B : Type} (f : A -> B) (q : B -> bool) (l : list A) :
  filter q (map f l) = map f (filter (fun x => q (f x)) l).
Proof.
  induction l as [|a l IH]; cbn [map filter]; [reflexivity|].
  destruct (q (f a)); cbn [map]; now rewrite IH.
Qed.

Lemma bg_ticks (l : list BgCircle) (n : nat) :
  bgIntegerHeights l ->
  Nat.iter (S n)
    (fun l => filter (fun c => leb (BgCircle.cy c) Constants.TARGET_CY)
                (map Tick.moveCircle l)) l
  = map (fun b => bgCircleAt b (bgHeight b + Z.of_nat (S n)))
      (filter (fun b => (bgHeight b + Z.of_nat (S n) <=? 350)%Z) l).
Proof.
  intros H. induction n as [|n IH].
  - cbn [Nat.iter]. apply bg_one_tick, H.
  - change (Nat.iter (S (S n)) ?f l) with (f (Nat.iter (S n) f l)).
    rewrite IH. rewrite bg_one_tick.
    + rewrite filter_map_swap, filter_filter_and, map_map.
      assert (Hf : forall b,
                 In b l ->
                 (bgHeight b + Z.of_nat (S n) <=? 350)%Z
                 && (bgHeight (bgCircleAt b (bgHeight b + Z.of_nat (S n))) + 1
                     <=? 350)%Z
                 = (bgHeight b + Z.of_nat (S (S n)) <=? 350)%Z).
      { intros b _. rewrite bgHeight_at.
        destruct (Z.leb_spec (bgHeight b + Z.of_nat (S n)) 350);
          destruct (Z.leb_spec (bgHeight b + Z.of_nat (S n) + 1) 350);
          destruct (Z.leb_spec (bgHeight b + Z.of_nat (S (S n))) 350);
          try reflexivity; lia. }
      rewrite (filter_ext_in _ _ l Hf). apply map_ext.
      intros b. rewrite bgHeight_at, bgCircleAt_twice. f_equal. lia.
    + intros b' Hin. apply in_map_iff in Hin. destruct Hin as (b & <- & Hb).
      apply filter_In in Hb. destruct Hb as [Hb _].
      destruct (H b Hb) as [_ Hlow]. rewrite bgHeight_at.
      split; [reflexivity | lia].
Qed.

Lemma backgroundCircles_ticks (n : nat) (s : State) :
  backgroundCircles (ticks n s)
  = Nat.iter n
      (fun l => filter (fun c => leb (BgCircle.cy c) Constants.TARGET_CY)
                  (map Tick.moveCircle l))
      (backgroundCircles s).
Proof.
  induction n as [|n IH]; [reflexivity|].
  rewrite ticks_S, backgroundCircles_Tick, IH. reflexivity.
Qed.

(** X12. Background circles under the clock.  When the background circles
    sit at integer heights above [-2^52] (where adding 1 to a height is
    exact), after [n >= 1] ticks the list holds exactly
    those whose height plus [n] is at most 350, in order, each moved down
    by [n]: a circle spawned at the top stays for 350 ticks, and a filler,
    spawned on the target line, is gone after the next tick. *)
Theorem background_circles_after_ticks (s : State) (n : nat) :
  bgIntegerHeights (backgroundCircles s) -> (1 <= n)%nat ->
  backgroundCircles (ticks n s)
  = map (fun b => bgCircleAt b (bgHeight b + Z.of_nat n))
      (filter (fun b => (bgHeight b + Z.of_nat n <=? 350)%Z)
         (backgroundCircles s)).
Proof.
  intros H Hn. destruct n as [|n]; [lia|].
  rewrite backgroundCircles_ticks. apply bg_ticks, H.
Qed.

Lemma background_circles_after_ticks_witness :
  bgIntegerHeights (backgroundCircles fillerState) /\
  List.length (backgroundCircles fillerState) = 2%nat /\
  List.length (backgroundCircles (ticks 1 fillerState)) = 1%nat.
Proof.
  assert (H : bgIntegerHeights (backgroundCircles fillerState)).
  { intros b Hb. vm_compute in Hb.
    destruct Hb as [<-|[<-|[]]]; (split; [vm_compute; reflexivity | vm_compute; reflexivity]). }
  split; [exact H|]. split; [vm_compute; reflexivity|].
  rewrite (background_circles_after_ticks fillerState 1 H (le_n 1)).
  vm_compute. reflexivity.
Defined.

(** ** Filler notes *)

Lemma fsub_m_1 : fsub RNG.m 1 = inject_Z 2147483647.
Proof. vm_compute. reflexivity. Qed.

Lemma representable_dyadic (M t : Z) (z : Q) :
  (Z.abs M < 2 ^ 53)%Z -> (-1074 <= t)%Z -> z == inject_Z M * pow2 t ->
  representable z.
Proof. intros HM Ht Hz. exists M, t. auto. Qed.

(** The seed scaled to the unit interval stays a full unit in the last
    place below 1 as long as the seed is at most [m - 2]. *)
Lemma unit_range (seed : num) :
  0 <= seed -> seed <= 2147483646 ->
  0 <= fdiv seed (fsub RNG.m 1) <= 4294967295 # 4294967296.
Proof.
  intros H0 H1. rewrite fsub_m_1. unfold fdiv. split.
  - apply rnd_nonneg. apply Qle_shift_div_l; [reflexivity | lra].
  - apply rnd_le_repr.
    + apply (representable_dyadic 4294967295 (-32)); [lia | lia | reflexivity].
    + apply Qle_shift_div_r; [reflexivity|].
      change (inject_Z 2147483647) with 2147483647.
      assert (E : (4294967295 # 4294967296) * 2147483647
                  == 9223372030412324865 # 4294967296) by reflexivity.
      rewrite E.
      assert (L : 2147483646 <= 9223372030412324865 # 4294967296)
        by (vm_compute; discriminate).
      lra.
Qed.

(** [scaleToRange] between integers [lo] and [lo + d]: the result is at
    least [lo] and at most [lo + d - d * 2^-32]. *)
Lemma scaleToRange_range (seed hi : num) (lo d : Z) :
  0 <= seed -> seed <= 2147483646 ->
  (0 <= lo < 2 ^ 20)%Z -> (0 < d < 2 ^ 20)%Z ->
  fsub hi (inject_Z lo) = inject_Z d ->
  inject_Z lo <= RNG.scaleToRange seed (inject_Z lo) hi /\
  RNG.scaleToRange seed (inject_Z lo) hi < inject_Z (lo + d).
Proof.
  intros H0 H1 Hlo Hd E. unfold RNG.scaleToRange. rewrite E.
  destruct (unit_range seed H0 H1) as [U0 U1].
  set (u := fdiv seed (fsub RNG.m 1)) in *. clearbody u.
  assert (Dpos : 0 < inject_Z d).
  { change 0 with (inject_Z 0). apply Zlt_to_Q. lia. }
  assert (P0 : 0 <= fmul u (inject_Z d)).
  { unfold fmul. apply rnd_nonneg. apply Qmult_le_0_compat; lra. }
  assert (P1 : fmul u (inject_Z d)
               <= inject_Z (d * 2 ^ 32 - d) * pow2 (-32)).
  { unfold fmul. apply rnd_le_repr.
    - apply (representable_dyadic (d * 2 ^ 32 - d) (-32)); [lia | lia | reflexivity].
    - unfold Z.sub. rewrite inject_Z_plus, inject_Z_opp, inject_Z_mult.
      change (pow2 (-32)) with (1 # 4294967296).
      change (inject_Z (2 ^ 32)) with 4294967296.
      assert (Hm : u * inject_Z d <= (4294967295 # 4294967296) * inject_Z d).
      { apply Qmult_le_compat_r; lra. }
      set (D := inject_Z d) in *. clearbody D. lra. }
  set (p := fmul u (inject_Z d)) in *. clearbody p.
  split.
  - unfold fadd. apply rnd_ge_int; [lia | lra].
  - apply Qle_lt_trans
      with (inject_Z ((lo + d) * 2 ^ 32 - d) * pow2 (-32)).
    + unfold fadd. apply rnd_le_repr.
      * apply (representable_dyadic ((lo + d) * 2 ^ 32 - d) (-32));
          [lia | lia | reflexivity].
      * unfold Z.sub in *.
        rewrite !inject_Z_plus, !inject_Z_opp, !inject_Z_mult, !inject_Z_plus in *.
        change (pow2 (-32)) with (1 # 4294967296) in *.
        change (inject_Z (2 ^ 32)) with 4294967296 in *.
        set (D := inject_Z d) in *. set (L := inject_Z lo) in *.
        clearbody D L. lra.
    + unfold Z.sub.
      rewrite !inject_Z_plus, !inject_Z_opp, !inject_Z_mult, !inject_Z_plus.
      change (pow2 (-32)) with (1 # 4294967296).
      change (inject_Z (2 ^ 32)) with 4294967296.
      set (D := inject_Z d) in *. set (L := inject_Z lo) in *.
      clearbody D L. lra.
Qed.

Lemma scaleToRange_floor (seed hi : num) (lo d : Z) :
  0 <= seed -> seed <= 2147483646 ->
  (0 <= lo < 2 ^ 20)%Z -> (0 < d < 2 ^ 20)%Z ->
  fsub hi (inject_Z lo) = inject_Z d ->
  (lo <= Qfloor (RNG.scaleToRange seed (inject_Z lo) hi) < lo + d)%Z.
Proof.
  intros H0 H1 Hlo Hd E.
  destruct (scaleToRange_range seed hi lo d H0 H1 Hlo Hd E) as [A B].
  split.
  - apply Qfloor_ge, A.
  - pose proof (Qfloor_le (RNG.scaleToRange seed (inject_Z lo) hi)) as F.
    rewrite Zlt_Qlt. eapply Qle_lt_trans; [exact F | exact B].
Qed.

Lemma arrayAt_instruments (i : Z) :
  (0 <= i < 7)%Z -> In (arrayAt instruments i) instruments.
Proof.
  intros H.
  assert (C : (i = 0 \/ i = 1 \/ i = 2 \/ i = 3 \/ i = 4 \/ i = 5 \/ i = 6)%Z)
    by lia.
  destruct C as [-> | [-> | [-> | [-> | [-> | [-> | ->]]]]]]; cbn; tauto.
Qed.

Lemma scaleToRange_length (seed : num) :
  0 <= seed -> seed <= 2147483646 ->
  0 <= RNG.scaleToRange seed 0 (rnd (5 # 10)) < 1 # 2.
Proof.
  intros H0 H1. unfold RNG.scaleToRange.
  assert (E : fsub (rnd (5 # 10)) 0 = 1 # 2) by (vm_compute; reflexivity).
  rewrite E.
  destruct (unit_range seed H0 H1) as [U0 U1].
  set (u := fdiv seed (fsub RNG.m 1)) in *. clearbody u.
  assert (R : representable (4294967295 # 8589934592)).
  { apply (representable_dyadic 4294967295 (-33)); [lia | lia | reflexivity]. }
  assert (P0 : 0 <= fmul u (1 # 2)).
  { unfold fmul. apply rnd_nonneg. lra. }
  assert (P1 : fmul u (1 # 2) <= 4294967295 # 8589934592).
  { unfold fmul. apply rnd_le_repr; [exact R | lra]. }
  set (p := fmul u (1 # 2)) in *. clearbody p.
  split.
  - unfold fadd. apply rnd_nonneg. lra.
  - apply Qle_lt_trans with (4294967295 # 8589934592); [| reflexivity].
    unfold fadd. apply rnd_le_repr; [exact R | lra].
Qed.

(** X13. Filler notes.  For every seed in [0, 2^31 - 2] the note made by
    [generateRandomNote] names one of the seven loaded instruments, has an
    integer velocity in 30..126 and pitch in 30..89, starts at 0 and lasts
    less than half a second, and is not user played.  At the seed
    [2^31 - 1] the instrument index is 7, past the end of the array, and
    the instrument name is [undefined]. *)
Theorem generateRandomNote_ranges :
  (forall seed : num,
     0 <= seed -> seed <= 2147483646 ->
     let n := BgCircle.note (generateRandomNote seed) in
     In (instrumentName n) instruments /\
     (exists v : Z, velocity n = inject_Z v /\ (30 <= v <= 126)%Z) /\
     (exists p : Z, pitch n = inject_Z p /\ (30 <= p <= 89)%Z) /\
     start n = 0 /\ 0 <= end_ n /\ end_ n < 1 # 2 /\
     userPlayed n = false) /\
  instrumentName (BgCircle.note (generateRandomNote 2147483647))
  = "undefined"%string.
Proof.
  split; [| vm_compute; reflexivity].
  intros seed H0 H1. cbv zeta. unfold generateRandomNote.
  cbn [BgCircle.note instrumentName velocity pitch start end_ userPlayed].
  split; [| split; [| split; [| split; [reflexivity|]]]].
  - apply arrayAt_instruments.
    exact (scaleToRange_floor seed (inject_Z 7) 0 7 H0 H1
             ltac:(lia) ltac:(lia) ltac:(vm_compute; reflexivity)).
  - eexists. split; [reflexivity|].
    destruct (scaleToRange_floor seed 127 30 97 H0 H1
                ltac:(lia) ltac:(lia) ltac:(vm_compute; reflexivity))
      as [A B].
    split; [exact A | apply Z.lt_succ_r; exact B].
  - eexists. split; [reflexivity|].
    destruct (scaleToRange_floor seed 90 30 60 H0 H1
                ltac:(lia) ltac:(lia) ltac:(vm_compute; reflexivity))
      as [A B].
    split; [exact A | apply Z.lt_succ_r; exact B].
  - destruct (scaleToRange_length seed H0 H1) as [A B].
    split; [exact A | split; [exact B | reflexivity]].
Qed.

Lemma generateRandomNote_ranges_witness :
  0 <= 1000000 /\ 1000000 <= 2147483646 /\
  In (instrumentName (BgCircle.note (generateRandomNote 1000000))) instruments.
Proof.
  split; [discriminate|]. split; [discriminate|].
  destruct generateRandomNote_ranges as [H _].
  exact (proj1 (H 1000000 ltac:(discriminate) ltac:(discriminate))).
Defined.

(** ** Columns *)

Lemma fsub_int (a b : Z) :
  (Z.abs (a - b) < 2 ^ 53)%Z ->
  fsub (inject_Z a) (inject_Z b) = inject_Z (a - b).
Proof.
  intros H. unfold fsub. apply rnd_int; [exact H|].
  unfold Z.sub. rewrite inject_Z_plus, inject_Z_opp. reflexivity.
Qed.

(** The quotient of two integers, rounded, has the floor of the exact
    quotient when the divisor is a quarter of a small integer. *)
Lemma floor_quarter_quotient (o d : Z) (I : Q) :
  (0 <= o < 2 ^ 25)%Z -> (0 < d < 2 ^ 25)%Z -> I == inject_Z d / 4 ->
  Qfloor (fdiv (inject_Z o) I) = (4 * o / d)%Z.
Proof.
  intros Ho Hd HI.
  set (j := (4 * o / d)%Z).
  assert (Hj : (0 <= j < 2 ^ 27)%Z).
  { unfold j. split.
    - apply Z.div_pos; lia.
    - apply Z.div_lt_upper_bound; nia. }
  assert (Hlow : (d * j <= 4 * o)%Z) by (apply Z.mul_div_le; lia).
  assert (Hup : (4 * o <= d * j + d - 1)%Z).
  { pose proof (Z.div_mod (4 * o) d ltac:(lia)) as Hdm.
    pose proof (Z.mod_pos_bound (4 * o) d ltac:(lia)) as Hmod.
    fold j in Hdm. lia. }
  assert (Dpos : 0 < inject_Z d).
  { change 0 with (inject_Z 0). apply Zlt_to_Q. lia. }
  assert (Ipos : 0 < I).
  { rewrite HI. apply Qlt_shift_div_l; [reflexivity |].
    rewrite Qmult_0_l. exact Dpos. }
  assert (Eq : inject_Z o / I == inject_Z (4 * o) / inject_Z d).
  { rewrite HI, inject_Z_mult. change (inject_Z 4) with 4.
    field. repeat split; try discriminate.
    intros Hz. rewrite Hz in Dpos. discriminate Dpos. }
  assert (E4 : inject_Z (4 * o) == 4 * inject_Z o)
    by (rewrite inject_Z_mult; reflexivity).
  assert (Hlow' : inject_Z d * inject_Z j <= 4 * inject_Z o).
  { rewrite <- E4, <- inject_Z_mult. apply Zle_to_Q, Hlow. }
  assert (Hup' : 4 * inject_Z o <= inject_Z d * inject_Z j + inject_Z d - 1).
  { rewrite <- E4, <- inject_Z_mult, <- inject_Z_plus.
    change 1 with (inject_Z 1). unfold Qminus.
    rewrite <- inject_Z_opp, <- inject_Z_plus. apply Zle_to_Q. lia. }
  rewrite E4 in Eq.
  assert (D25 : inject_Z d <= 33554432).
  { change 33554432 with (inject_Z (2 ^ 25)). apply Zle_to_Q. lia. }
  apply Qfloor_unique.
  - unfold fdiv. apply rnd_ge_int; [lia|]. rewrite Eq.
    apply Qle_shift_div_l; [exact Dpos|].
    set (D := inject_Z d) in *. set (J := inject_Z j) in *.
    set (O := inject_Z o) in *. clearbody D J O. lra.
  - apply Qle_lt_trans
      with (inject_Z ((j + 1) * 2 ^ 25 - 1) * pow2 (-25)).
    + unfold fdiv. apply rnd_le_repr.
      * apply (representable_dyadic ((j + 1) * 2 ^ 25 - 1) (-25));
          [lia | lia | reflexivity].
      * rewrite Eq. apply Qle_shift_div_r; [exact Dpos|].
        unfold Z.sub.
        rewrite !inject_Z_plus, !inject_Z_opp, !inject_Z_mult, !inject_Z_plus.
        change (pow2 (-25)) with (1 # 33554432).
        change (inject_Z (2 ^ 25)) with 33554432.
        change (inject_Z 1) with 1.
        set (D := inject_Z d) in *. set (J := inject_Z j) in *.
        set (O := inject_Z o) in *. clearbody D J O. nra.
    + unfold Z.sub.
      rewrite !inject_Z_plus, !inject_Z_opp, !inject_Z_mult, !inject_Z_plus.
      change (pow2 (-25)) with (1 # 33554432).
      change (inject_Z (2 ^ 25)) with 33554432.
      change (inject_Z 1) with 1.
      set (J := inject_Z j) in *. clearbody J. lra.
Qed.

(** The column index for integer pitches. *)
Lemma getColumnAndColour_int (noteData : NoteData) (p mn mx : Z) :
  pitch noteData = inject_Z p ->
  (- 2 ^ 24 < mn)%Z -> (mn <= p)%Z -> (p < 2 ^ 24)%Z ->
  (mn < mx)%Z -> (mx < 2 ^ 24)%Z ->
  let i := Z.min (4 * (p - mn) / (mx - mn)) 3 in
  (0 <= i <= 3)%Z /\
  getColumnAndColour noteData (inject_Z mn) (inject_Z mx)
  = (arrayAt ["20%"; "40%"; "60%"; "80%"]%string i,
     arrayAt ["green"; "red"; "blue"; "yellow"]%string i).
Proof.
  intros Hp H1 H2 H3 H4 H5 i.
  assert (Hi : (0 <= 4 * (p - mn) / (mx - mn))%Z)
    by (apply Z.div_pos; lia).
  split; [unfold i; lia|].
  unfold getColumnAndColour. cbv zeta. rewrite Hp.
  rewrite (fsub_int mx mn) by lia. rewrite (fsub_int p mn) by lia.
  assert (HI : fdiv (inject_Z (mx - mn)) 4 == inject_Z (mx - mn) / 4).
  { unfold fdiv. apply rnd_repr.
    apply (representable_dyadic (mx - mn) (-2)); [lia | lia |].
    change (pow2 (-2)) with (1 # 4). unfold Qdiv.
    change (/ 4) with (1 # 4). reflexivity. }
  set (I := fdiv (inject_Z (mx - mn)) 4) in *. clearbody I.
  assert (Dpos : 0 < inject_Z (mx - mn)).
  { change 0 with (inject_Z 0). apply Zlt_to_Q. lia. }
  assert (Hne : eqb I 0 = false).
  { unfold eqb. destruct (Qeq_bool I 0) eqn:B; [|reflexivity].
    apply Qeq_bool_eq in B. rewrite B in HI.
    assert (Hc : 0 < inject_Z (mx - mn) / 4)
      by (apply Qlt_shift_div_l; [reflexivity | rewrite Qmult_0_l; exact Dpos]).
    rewrite <- HI in Hc. discriminate Hc. }
  rewrite Hne.
  rewrite (floor_quarter_quotient (p - mn) (mx - mn) I) by (lia || exact HI).
  reflexivity.
Qed.

(** X14. Columns.  For integer pitches [mn <= p] and [mn < mx] (below
    [2^24] in size) the column and colour of a note of pitch [p] are the
    entries [i] of the two four-element arrays, with
    [i = min(3, floor(4 * (p - mn) / (mx - mn)))]: the range of pitches is
    cut into four equal bins.  The lowest pitch gets the first column, and
    the highest pitch and anything above it the last. *)
Theorem getColumnAndColour_bins (noteData : NoteData) (p mn mx : Z) :
  pitch noteData = inject_Z p ->
  (- 2 ^ 24 < mn)%Z -> (mn <= p)%Z -> (p < 2 ^ 24)%Z ->
  (mn < mx)%Z -> (mx < 2 ^ 24)%Z ->
  let i := Z.min (4 * (p - mn) / (mx - mn)) 3 in
  (0 <= i <= 3)%Z /\
  getColumnAndColour noteData (inject_Z mn) (inject_Z mx)
  = (arrayAt ["20%"; "40%"; "60%"; "80%"]%string i,
     arrayAt ["green"; "red"; "blue"; "yellow"]%string i) /\
  (p = mn -> i = 0%Z) /\ (mx <= p -> i = 3%Z)%Z.
Proof.
  intros Hp H1 H2 H3 H4 H5 i.
  destruct (getColumnAndColour_int noteData p mn mx Hp H1 H2 H3 H4 H5)
    as [A B].
  split; [exact A|]. split; [exact B|]. split.
  - intros ->. unfold i. rewrite Z.sub_diag. reflexivity.
  - intros Hge. unfold i.
    assert (4 <= 4 * (p - mn) / (mx - mn))%Z
      by (apply Z.div_le_lower_bound; lia).
    lia.
Qed.

Lemma getColumnAndColour_bins_witness :
  getColumnAndColour shortNote 40 80 = ("60%", "blue")%string.
Proof.
  exact (proj1 (proj2 (getColumnAndColour_bins shortNote 60 40 80 eq_refl
                  ltac:(lia) ltac:(lia) ltac:(lia) ltac:(lia) ltac:(lia)))).
Defined.

(** ** Notes of a single pitch *)

Lemma rnd_zero (q : Q) : q == 0 -> rnd q = 0.
Proof. intros H. rewrite (rnd_comp q 0 H). reflexivity. Qed.

Lemma getColumnAndColour_single_pitch (noteData : NoteData) (mn : num) :
  pitch noteData == mn ->
  getColumnAndColour noteData mn mn = ("undefined", "undefined")%string.
Proof.
  intros Hp. unfold getColumnAndColour. cbv zeta.
  assert (E1 : fsub mn mn = 0) by (apply rnd_zero; ring).
  assert (E2 : fsub (pitch noteData) mn = 0).
  { apply rnd_zero. rewrite Hp. ring. }
  rewrite E1, E2. reflexivity.
Qed.

Lemma undefined_not_a_column (key : ColumnKey) :
  String.eqb "undefined" (keyToColumn key) = false.
Proof. destruct key; reflexivity. Qed.

(** X15. A song of one pitch.  When the lowest and highest pitch agree and
    the note has that pitch, [getColumnAndColour] divides zero by zero and
    the arrays are read at [NaN]: [CreateCircle] appends a circle whose
    column is the text "undefined" and whose style is "fill: undefined",
    and at no height is that circle aligned with any of the four keys. *)
Theorem single_pitch_circle_unplayable
    (noteData : NoteData) (mn : num) (s : State) :
  pitch noteData == mn ->
  exists c : Circle,
    circles (CreateCircle.apply noteData mn mn s) = circles s ++ [c] /\
    Circle.cx c = "undefined"%string /\
    Circle.style c = "fill: undefined"%string /\
    forall (key : ColumnKey) (cy : num),
      isCircleAligned (setCy cy c) (keyToColumn key) = false.
Proof.
  intros Hp. unfold CreateCircle.apply.
  rewrite (getColumnAndColour_single_pitch noteData mn Hp).
  eexists. split; [reflexivity|]. split; [reflexivity|].
  split; [reflexivity|].
  intros key cy. unfold isCircleAligned.
  cbn [setCy Circle_HasCy Circle.cx].
  rewrite undefined_not_a_column. reflexivity.
Qed.

Lemma single_pitch_circle_unplayable_witness :
  exists c : Circle,
    circles (CreateCircle.apply shortNote 60 60 initialState) = [c] /\
    Circle.cx c = "undefined"%string /\
    Circle.style c = "fill: undefined"%string /\
    forall (key : ColumnKey) (cy : num),
      isCircleAligned (setCy cy c) (keyToColumn key) = false.
Proof.
  exact (single_pitch_circle_unplayable shortNote 60 initialState
           (Qeq_refl 60)).
Defined.

(** ** Tails at creation *)

Lemma tail_length_ge_200 (d : num) :
  1 < d ->
  200 <= Math_round
           (fdiv (fmul (fmul d 1000) Note.MOVEMENT) Constants.TICK_RATE_MS).
Proof.
  intros Hd.
  assert (A : inject_Z 1000 <= fmul d 1000).
  { unfold fmul. apply rnd_ge_int; [lia|].
    change (inject_Z 1000) with 1000. lra. }
  set (x := fmul d 1000) in *. clearbody x.
  assert (B : inject_Z 1000 <= fmul x Note.MOVEMENT).
  { unfold fmul. apply rnd_ge_int; [lia|].
    change Note.MOVEMENT with 1. lra. }
  set (y := fmul x Note.MOVEMENT) in *. clearbody y.
  assert (C : inject_Z 200 <= fdiv y Constants.TICK_RATE_MS).
  { unfold fdiv. apply rnd_ge_int; [lia|].
    change Constants.TICK_RATE_MS with 5.
    change (inject_Z 200) with 200. change (inject_Z 1000) with 1000 in B.
    unfold Qdiv. change (/ 5) with (1 # 5). lra. }
  set (z := fdiv y Constants.TICK_RATE_MS) in *. clearbody z.
  unfold Math_round. change 200 with (inject_Z 200).
  apply Zle_to_Q. apply Qfloor_ge.
  change (inject_Z 200) with 200 in *. lra.
Qed.

(** X16. Tails at creation.  [CreateCircle] appends a tail exactly when the
    rounded duration [end - start] is above one second.  The tail then
    carries the new circle, has the text of the number [objCount] in its
    id, is not played, starts at height 0 and ends at height -200 or
    higher up: at one unit per tick it takes at least 200 ticks to pass a
    point. *)
Theorem CreateCircle_tail (noteData : NoteData) (mn mx : num) (s : State) :
  let s' := CreateCircle.apply noteData mn mx s in
  let d := fsub (end_ noteData) (start noteData) in
  (d <= 1 -> tails s' = tails s) /\
  (1 < d ->
   exists (t : Tail) (c : Circle),
     tails s' = tails s ++ [t] /\
     circles s' = circles s ++ [c] /\
     Tail.circle t = c /\ Circle.hasTail c = true /\
     Tail.x1 t = Circle.cx c /\ Tail.x2 t = Circle.cx c /\
     Tail.id t = String.append "tail" (Number_toString (objCount s)) /\
     Tail.isPlayed t = false /\
     Tail.y1 t = 0 /\ Tail.y2 t <= - (200)).
Proof.
  cbv zeta. unfold CreateCircle.apply.
  destruct (getColumnAndColour noteData mn mx) as [column colour].
  cbn [Circle.hasTail tails circles]. split.
  - intros Hd. unfold gtb, Note.DURATION_FOR_TAIL.
    apply Qle_bool_iff in Hd. rewrite Hd. reflexivity.
  - intros Hd.
    assert (G : gtb (fsub (end_ noteData) (start noteData))
                  Note.DURATION_FOR_TAIL = true).
    { unfold gtb, Note.DURATION_FOR_TAIL.
      destruct (Qle_bool _ _) eqn:E; [|reflexivity].
      apply Qle_bool_iff in E. exfalso. exact (Qlt_not_le _ _ Hd E). }
    rewrite G. eexists. eexists.
    split; [reflexivity|]. split; [reflexivity|].
    cbn [Tail.circle Tail.x1 Tail.x2 Tail.id Tail.isPlayed Tail.y1 Tail.y2
         Circle.hasTail Circle.cx].
    split; [reflexivity|]. split; [reflexivity|].
    split; [reflexivity|]. split; [reflexivity|].
    split; [reflexivity|]. split; [reflexivity|].
    split; [reflexivity|].
    pose proof (tail_length_ge_200 _ Hd) as L.
    set (len := Math_round _) in *. clearbody len.
    unfold fsub. change (- (200)) with (inject_Z (-200)).
    apply rnd_le_int; [lia|].
    change Note.START_CY with 0. change (inject_Z (-200)) with (- (200)).
    lra.
Qed.

Lemma CreateCircle_tail_witness :
  tails (CreateCircle.apply shortNote 40 80 initialState) = [] /\
  exists (t : Tail) (c : Circle),
    tails (CreateCircle.apply longNote 40 80 initialState) = [t] /\
    Tail.circle t = c /\ Tail.y1 t = 0 /\ Tail.y2 t <= - (200).
Proof.
  split.
  - apply (proj1 (CreateCircle_tail shortNote 40 80 initialState)).
    vm_compute. discriminate.
  - destruct (proj2 (CreateCircle_tail longNote 40 80 initialState))
      as (t & c & H1 & _ & H3 & _ & _ & _ & _ & _ & H9 & H10).
    + vm_compute. reflexivity.
    + exists t, c. auto.
Defined.

(** ** List difference *)

(** X17. [except eq a b] keeps, in order, exactly the elements of [a] that
    [eq] relates to no element of [b]; taking nothing away returns [a]. *)
Theorem except_spec {T : Type} (eq : T -> T -> bool) (a b : list T) :
  (forall x : T,
     In x (Util.except eq a b)
     <-> In x a /\ forall y : T, In y b -> eq x y = false) /\
  Util.except eq a [] = a /\
  (forall a' : list T,
     Util.except eq (a ++ a') b = Util.except eq a b ++ Util.except eq a' b).
Proof.
  split; [| split].
  - intros x. unfold Util.except, Util.not, Util.elem.
    rewrite filter_In. split.
    + intros [Hin Hn]. split; [exact Hin|]. intros y Hy.
      apply negb_true_iff in Hn.
      destruct (eq x y) eqn:E; [|reflexivity].
      assert (Hex : existsb (eq x) b = true)
        by (apply existsb_exists; exists y; auto).
      rewrite Hex in Hn. discriminate.
    + intros [Hin Hall]. split; [exact Hin|].
      apply negb_true_iff. apply not_true_is_false. intros Hex.
      apply existsb_exists in Hex. destruct Hex as (y & Hy & E).
      rewrite (Hall y Hy) in E. discriminate.
  - unfold Util.except, Util.not, Util.elem. cbn [existsb negb].
    apply filter_all. reflexivity.
  - intros a'. unfold Util.except. apply filter_app.
Qed.

Lemma except_spec_witness :
  In 1%Z (Util.except Z.eqb [1; 2; 3]%Z [2]%Z).
Proof.
  apply (proj1 (except_spec Z.eqb [1; 2; 3]%Z [2]%Z)).
  split; [left; reflexivity|].
  intros y [<-|[]]. reflexivity.
Defined.

(** ** Scoring on a tick *)

Lemma rnd_canonical (q : Q) : Qred (rnd q) = rnd q.
Proof.
  unfold rnd, rndReduced. destruct (Qeq_bool (Qred q) 0); [reflexivity|].
  apply Qred_involutive.
Qed.

(** Rounding a binary64 value returns it. *)
Lemma rnd_idem (q : Q) : rnd (rnd q) = rnd q.
Proof.
  transitivity (Qred (rnd (rnd q))); [symmetry; apply rnd_canonical|].
  transitivity (Qred (rnd q)); [| apply rnd_canonical].
  apply Qred_complete. apply rnd_repr, rnd_representable.
Qed.

Lemma fmul_1_r (q : Q) : fmul (rnd q) 1 = rnd q.
Proof.
  unfold fmul. rewrite (rnd_comp (rnd q * 1) (rnd q)) by ring.
  apply rnd_idem.
Qed.

Lemma fmul_fmul_1 (x y : num) : fmul (fmul x y) 1 = fmul x y.
Proof. change (fmul x y) with (rnd (x * y)). apply fmul_1_r. Qed.

(** X18. Scoring on a tick.  The tails whose ends have met are moved to
    [finishedTails] and each adds 10 points times the multiplier computed
    on that tick.  When no circle is past the hit window they also extend
    the combo, and the multiplier used is the one of the extended combo;
    when some circle is past the window the combo is reset in the same
    tick and the finished tails are paid at the base rate. *)
Theorem Tick_scores_finished_tails (elapsed : num) (s : State) :
  let s' := Tick.apply elapsed s in
  let n := len (finishedTails s') in
  finishedTails s' = filter Tick.isTailFullyPlayed (tails s) /\
  (filter Tick.isMissed (circles s) = [] ->
   consecutiveHits s' = fadd (consecutiveHits s) n /\
   multiplier s' = calculateNewMultiplier (consecutiveHits s') /\
   score s' = fadd (score s) (fmul (fmul n 10) (multiplier s'))) /\
  (forall c, In c (circles s) -> Tick.isMissed c = true ->
   consecutiveHits s' = 0 /\ multiplier s' = 1 /\
   score s' = fadd (score s) (fmul n 10)).
Proof.
  cbv zeta. split; [| split].
  - unfold Tick.apply. destruct (updateHitsAndMultiplier _ _ _). reflexivity.
  - intros H. unfold Tick.apply. rewrite H. cbn. repeat split; reflexivity.
  - intros c Hin Hm. unfold Tick.apply.
    rewrite (filter_some Tick.isMissed (circles s) c Hin Hm).
    cbn. repeat split; try reflexivity.
    change Constants.BASE_MULTIPLIER with 1.
    change Constants.SCORE_INCREASE with 10.
    rewrite fmul_fmul_1. reflexivity.
Qed.

Lemma Tick_scores_finished_tails_witness :
  let s := comboState [sampleCircle 3 "60%" 371 false]
             [sampleTail 0 "20%" 350 350 true] [] in
  consecutiveHits (Tick.apply 0 s) = 0 /\
  multiplier (Tick.apply 0 s) = 1 /\
  score (Tick.apply 0 s) = 310.
Proof.
  cbv zeta.
  destruct (Tick_scores_finished_tails 0
              (comboState [sampleCircle 3 "60%" 371 false]
                 [sampleTail 0 "20%" 350 350 true] [])) as (_ & _ & H).
  destruct (H (sampleCircle 3 "60%" 371 false) (or_introl eq_refl)
              ltac:(vm_compute; reflexivity)) as (A & B & C).
  split; [exact A|]. split; [exact B|]. rewrite C. vm_compute. reflexivity.
Defined.

(** ** The pitch range of a song *)

Lemma Math_min_spec (l : list num) (m : num) :
  Math_min l = Some m -> In m l /\ forall x, In x l -> m <= x.
Proof.
  revert m. induction l as [|a l IH]; intros m H; [discriminate|].
  cbn [Math_min] in H. destruct (Math_min l) as [m'|] eqn:E.
  - destruct (IH m' eq_refl) as [Hin Hle].
    destruct (Qle_bool a m') eqn:B; injection H as <-.
    + apply Qle_bool_iff in B. split; [left; reflexivity|].
      intros x [<-|Hx]; [apply Qle_refl|].
      eapply Qle_trans; [exact B | apply Hle, Hx].
    + assert (Hlt : m' < a).
      { apply Qnot_le_lt. intros Hc. apply Qle_bool_iff in Hc.
        rewrite Hc in B. discriminate. }
      split; [right; exact Hin|].
      intros x [<-|Hx]; [apply Qlt_le_weak, Hlt | apply Hle, Hx].
  - injection H as <-. destruct l as [|b l]; [|cbn in E; destruct (Math_min l); discriminate].
    split; [left; reflexivity|]. intros x [<-|[]]. apply Qle_refl.
Qed.

Lemma Math_max_spec (l : list num) (m : num) :
  Math_max l = Some m -> In m l /\ forall x, In x l -> x <= m.
Proof.
  revert m. induction l as [|a l IH]; intros m H; [discriminate|].
  cbn [Math_max] in H. destruct (Math_max l) as [m'|] eqn:E.
  - destruct (IH m' eq_refl) as [Hin Hle].
    destruct (Qle_bool m' a) eqn:B; injection H as <-.
    + apply Qle_bool_iff in B. split; [left; reflexivity|].
      intros x [<-|Hx]; [apply Qle_refl|].
      eapply Qle_trans; [apply Hle, Hx | exact B].
    + assert (Hlt : a < m').
      { apply Qnot_le_lt. intros Hc. apply Qle_bool_iff in Hc.
        rewrite Hc in B. discriminate. }
      split; [right; exact Hin|].
      intros x [<-|Hx]; [apply Qlt_le_weak, Hlt | apply Hle, Hx].
  - injection H as <-. destruct l as [|b l]; [|cbn in E; destruct (Math_max l); discriminate].
    split; [left; reflexivity|]. intros x [<-|[]]. apply Qle_refl.
Qed.

Lemma in_pitches (song : list NoteData) (q : num) :
  In q (pitches song) <->
  exists n, In n song /\ userPlayed n = true /\ pitch n = q.
Proof.
  unfold pitches. rewrite in_map_iff. split.
  - intros (n & E & Hn). apply filter_In in Hn. destruct Hn as [Hin Hu].
    exists n. auto.
  - intros (n & Hin & Hu & E). exists n. split; [exact E|].
    apply filter_In. auto.
Qed.

(** X19. The columns of a song.  [main] takes the lowest and the highest
    pitch of the user-played notes as the pitch range.  When these pitches
    are integers (below [2^24] in size) and not all the same, every
    user-played note gets one of the four columns with its colour; a note
    of the lowest pitch gets the first and a note of the highest pitch the
    last. *)
Theorem song_columns (song : list NoteData) (minPitch maxPitch : num) :
  (forall n, In n song -> userPlayed n = true ->
     exists p : Z, pitch n = inject_Z p /\ (- 2 ^ 24 < p < 2 ^ 24)%Z) ->
  Math_min (pitches song) = Some minPitch ->
  Math_max (pitches song) = Some maxPitch ->
  minPitch < maxPitch ->
  forall n, In n song -> userPlayed n = true ->
    In (getColumnAndColour n minPitch maxPitch)
       [("20%", "green"); ("40%", "red"); ("60%", "blue"); ("80%", "yellow")]%string /\
    (pitch n = minPitch ->
     getColumnAndColour n minPitch maxPitch = ("20%", "green")%string) /\
    (pitch n = maxPitch ->
     getColumnAndColour n minPitch maxPitch = ("80%", "yellow")%string).
Proof.
  intros Hint Hmin Hmax Hlt n Hn Hu.
  destruct (Math_min_spec _ _ Hmin) as [Imin Lmin].
  destruct (Math_max_spec _ _ Hmax) as [Imax Lmax].
  apply in_pitches in Imin. destruct Imin as (n1 & I1 & U1 & E1).
  apply in_pitches in Imax. destruct Imax as (n2 & I2 & U2 & E2).
  destruct (Hint n1 I1 U1) as (a & Ea & Ba).
  destruct (Hint n2 I2 U2) as (b & Eb & Bb).
  destruct (Hint n Hn Hu) as (p & Ep & Bp).
  assert (Pin : In (pitch n) (pitches song))
    by (apply in_pitches; exists n; auto).
  pose proof (Lmin _ Pin) as Lo. pose proof (Lmax _ Pin) as Hi.
  rewrite <- E1, Ea in *. rewrite <- E2, Eb in *. rewrite Ep in Lo, Hi.
  rewrite <- Zlt_Qlt in Hlt. rewrite <- Zle_Qle in Lo, Hi.
  destruct (getColumnAndColour_int n p a b Ep ltac:(lia) Lo ltac:(lia) Hlt
              ltac:(lia)) as [Ri Rv].
  split; [| split].
  - rewrite Rv. set (i := Z.min (4 * (p - a) / (b - a)) 3) in *.
    assert (C : (i = 0 \/ i = 1 \/ i = 2 \/ i = 3)%Z) by lia.
    destruct C as [-> | [-> | [-> | ->]]]; cbn; tauto.
  - intros E. rewrite Ep in E. apply (f_equal Qnum) in E. cbn in E.
    rewrite Rv. subst p. rewrite Z.sub_diag. reflexivity.
  - intros E. rewrite Ep in E. apply (f_equal Qnum) in E. cbn in E.
    rewrite Rv. subst p.
    assert (D : (4 * (b - a) / (b - a) = 4)%Z)
      by (apply Z.div_mul; lia).
    rewrite D. reflexivity.
Qed.

Lemma song_columns_witness :
  getColumnAndColour longNote 52 80 = ("20%", "green")%string /\
  In (getColumnAndColour shortNote 52 80)
     [("20%", "green"); ("40%", "red"); ("60%", "blue"); ("80%", "yellow")]%string.
Proof.
  assert (Hint : forall n, In n sampleSong -> userPlayed n = true ->
            exists p : Z, pitch n = inject_Z p /\ (- 2 ^ 24 < p < 2 ^ 24)%Z).
  { intros n [<-|[<-|[<-|[<-|[]]]]] _.
    - exists 60%Z. split; [reflexivity | lia].
    - exists 52%Z. split; [reflexivity | lia].
    - exists 72%Z. split; [reflexivity | lia].
    - exists 80%Z. split; [reflexivity | lia]. }
  split.
  - apply (song_columns sampleSong 52 80 Hint eq_refl eq_refl eq_refl
             longNote).
    + right; left; reflexivity.
    + reflexivity.
    + reflexivity.
  - apply (song_columns sampleSong 52 80 Hint eq_refl eq_refl eq_refl
             shortNote).
    + left; reflexivity.
    + reflexivity.
Defined.

(** ** Releasing near the end of a tail *)

Lemma setPlayed_same (t : Tail) :
  setPlayed (Tail.isPlayed t) (Tail.isStartNote t) t = t.
Proof. destruct t. reflexivity. Qed.

(** X20. Releasing near the end.  When the key of a held tail is released
    with the end of that tail at most 20 units above the target line, the
    tail stays held and unchanged, and nothing is counted as a miss: no
    filler is added, the seed and the score stay, and the combo is the old
    one plus zero (the same, when it is an integer below [2^53]). *)
Theorem ReleaseKey_near_end_keeps_tail (key : ColumnKey) (s : State) (t : Tail) :
  In t (tails s) -> Tail.isPlayed t = true ->
  isTailEndAligned t (keyToColumn key) = true ->
  let s' := ReleaseKey.apply key s in
  In t (tails s') /\
  backgroundCircles s' = backgroundCircles s /\
  randomNumber s' = randomNumber s /\
  score s' = score s /\
  consecutiveHits s' = fadd (consecutiveHits s) 0 /\
  multiplier s' = calculateNewMultiplier (consecutiveHits s') /\
  (forall h : Z, (Z.abs h < 2 ^ 53)%Z -> consecutiveHits s = inject_Z h ->
     consecutiveHits s' = consecutiveHits s).
Proof.
  intros Hin Hp Ha. cbv zeta. unfold ReleaseKey.apply.
  set (cx := keyToColumn key) in *.
  assert (Hx : String.eqb (Tail.x1 t) cx = true).
  { unfold isTailEndAligned in Ha.
    apply andb_true_iff in Ha. destruct Ha as [Ha _].
    apply andb_true_iff in Ha. destruct Ha as [Ha _]. exact Ha. }
  assert (Hpt : In t (ReleaseKey.playedTailsOf cx s)).
  { unfold ReleaseKey.playedTailsOf. apply filter_In. split; [|exact Hx].
    apply filter_In. auto. }
  set (pts := ReleaseKey.playedTailsOf cx s) in *.
  assert (G : Nat.eqb (List.length pts) 0
              && Nat.eqb (List.length (finishedTails s)) 0 = false).
  { apply andb_false_iff. left. destruct pts; [contradiction | reflexivity]. }
  rewrite G.
  set (upd := fun t0 : Tail =>
                setPlayed (if isTailEndAligned t0 cx then true else false)
                  (Tail.isStartNote t0) t0).
  assert (Hupd : upd t = t).
  { unfold upd. rewrite Ha, <- Hp. apply setPlayed_same. }
  rewrite (filter_map_same (fun t0 => isTailEndAligned t0 cx) upd)
    by reflexivity.
  assert (Hnz : Nat.eqb
                  (List.length
                     (map upd (filter (fun t0 => isTailEndAligned t0 cx) pts)))
                  0 = false).
  { assert (Hi : In (upd t)
                   (map upd (filter (fun t0 => isTailEndAligned t0 cx) pts))).
    { apply in_map. apply filter_In. auto. }
    destruct (map upd _); [contradiction | reflexivity]. }
  rewrite Hnz. cbn.
  split.
  - apply in_or_app. left. rewrite <- Hupd. apply in_map. exact Hpt.
  - repeat split; try reflexivity.
    intros h Hh E. rewrite E. change 0 with (inject_Z 0).
    rewrite fadd_int by (rewrite Z.add_0_r; exact Hh).
    now rewrite Z.add_0_r.
Qed.

Lemma ReleaseKey_near_end_keeps_tail_witness :
  let t := sampleTail 0 "20%" 350 340 true in
  let s := comboState [] [t] [] in
  In t (tails (ReleaseKey.apply KeyH s)) /\
  consecutiveHits (ReleaseKey.apply KeyH s) = 25 /\
  backgroundCircles (ReleaseKey.apply KeyH s) = [].
Proof.
  cbv zeta.
  destruct (ReleaseKey_near_end_keeps_tail KeyH
              (comboState [] [sampleTail 0 "20%" 350 340 true] [])
              (sampleTail 0 "20%" 350 340 true))
    as (H1 & H2 & _ & _ & _ & _ & H7).
  - left. reflexivity.
  - reflexivity.
  - vm_compute. reflexivity.
  - split; [exact H1|]. split; [| exact H2].
    apply (H7 25%Z); [lia | reflexivity].
Defined.

(** ** Tails under the clock *)

Lemma ticks_succ_r (n : nat) (s : State) :
  ticks (S n) s = ticks n (Tick.apply 0 s).
Proof. unfold ticks. apply Nat.iter_succ_r. Qed.

Lemma isTailExpired_int (t : Tail) (z : Z) :
  Tail.y2 t = inject_Z z -> Tick.isTailExpired t = (400 <? z)%Z.
Proof.
  intros E. unfold Tick.isTailExpired. rewrite E.
  change Constants.EXPIRE_LIMIT with (inject_Z 400). apply gtb_int.
Qed.

Lemma isTailFullyPlayed_int (t : Tail) (a b : Z) :
  Tail.y1 t = inject_Z a -> Tail.y2 t = inject_Z b ->
  Tick.isTailFullyPlayed t = (b =? a)%Z.
Proof.
  intros Ea Eb. unfold Tick.isTailFullyPlayed, eqb. rewrite Ea, Eb.
  destruct (Z.eqb_spec b a) as [->|N].
  - apply Qeq_bool_iff. reflexivity.
  - apply not_true_is_false. intros E. apply Qeq_bool_iff in E.
    apply (proj1 (inject_Z_injective b a)) in E. contradiction.
Qed.

(** A tail that is neither expired nor fully played is kept by a tick,
    moved. *)
Lemma tail_kept (t : Tail) (ts : list Tail) :
  In t ts -> Tick.isTailExpired t = false -> Tick.isTailFullyPlayed t = false ->
  In (Tick.moveTail (Tick.clearStartNote t)) (tickTails ts).
Proof.
  intros Hin He Hf. unfold tickTails. apply in_map. apply in_map.
  apply filter_In. split.
  - apply filter_In. split; [exact Hin|]. unfold Util.not. now rewrite He.
  - unfold Util.not. now rewrite Hf.
Qed.

Lemma move_held_tail (t : Tail) (z : Z) :
  Tail.isPlayed t = true -> Tail.y1 t = inject_Z 350 ->
  Tail.y2 t = inject_Z z -> (- 2 ^ 52 < z < 350)%Z ->
  Tick.moveTail (Tick.clearStartNote t) = tailAt t 350 (z + 1).
Proof.
  intros Hp E1 E2 Hz. unfold Tick.moveTail.
  change (Tail.isPlayed (Tick.clearStartNote t)) with (Tail.isPlayed t).
  rewrite Hp. unfold Tick.movePlayedTail.
  change (Tail.y1 (Tick.clearStartNote t)) with (Tail.y1 t).
  change (Tail.y2 (Tick.clearStartNote t)) with (Tail.y2 t).
  rewrite E1, E2. unfold geb, eqb.
  change Constants.TARGET_CY with (inject_Z 350).
  rewrite Qle_bool_int. cbn [Z.leb Z.compare Pos.compare Pos.compare_cont].
  assert (N : Qeq_bool (inject_Z z) (inject_Z 350) = false).
  { apply not_true_is_false. intros E. apply Qeq_bool_iff in E.
    apply (proj1 (inject_Z_injective z 350)) in E. lia. }
  rewrite N. unfold Tick.incrementY.
  change Note.MOVEMENT with (inject_Z 1). rewrite fadd_int by lia.
  reflexivity.
Qed.

Lemma move_unheld_tail (t : Tail) (a b : Z) :
  Tail.isPlayed t = false -> Tail.y1 t = inject_Z a ->
  Tail.y2 t = inject_Z b -> (Z.abs a < 2 ^ 52)%Z -> (Z.abs b < 2 ^ 52)%Z ->
  Tick.moveTail (Tick.clearStartNote t) = tailAt t (a + 1) (b + 1).
Proof.
  intros Hp E1 E2 Ha Hb. unfold Tick.moveTail.
  change (Tail.isPlayed (Tick.clearStartNote t)) with (Tail.isPlayed t).
  rewrite Hp. unfold Tick.moveUnplayedTail.
  change (Tail.y1 (Tick.clearStartNote t)) with (Tail.y1 t).
  change (Tail.y2 (Tick.clearStartNote t)) with (Tail.y2 t).
  rewrite E1, E2. unfold Tick.incrementY.
  change Note.MOVEMENT with (inject_Z 1). rewrite !fadd_int by lia.
  reflexivity.
Qed.

Lemma tailAt_twice (t : Tail) (a b c d : Z) :
  tailAt (tailAt t a b) c d = tailAt t c d.
Proof. reflexivity. Qed.

Lemma held_tail_step (s : State) (t : Tail) (z : Z) :
  In t (tails s) -> Tail.isPlayed t = true ->
  Tail.y1 t = inject_Z 350 -> Tail.y2 t = inject_Z z ->
  (- 2 ^ 52 < z < 350)%Z ->
  In (tailAt t 350 (z + 1)) (tails (Tick.apply 0 s)).
Proof.
  intros Hin Hp E1 E2 Hz. rewrite tails_Tick.
  rewrite <- (move_held_tail t z Hp E1 E2 Hz).
  apply tail_kept; [exact Hin | |].
  - rewrite (isTailExpired_int t z E2).
    destruct (Z.ltb_spec 400 z); [lia | reflexivity].
  - rewrite (isTailFullyPlayed_int t 350 z E1 E2).
    destruct (Z.eqb_spec z 350); [lia | reflexivity].
Qed.

(** With only the clock running, a held tail with its head on the target
    line and its end at [z] has its end at [z + n] after [n >= 1] ticks,
    as long as [z + n <= 350]. *)
Lemma held_tail_after_ticks (n : nat) :
  forall (s : State) (t : Tail) (z : Z),
    In t (tails s) -> Tail.isPlayed t = true ->
    Tail.y1 t = inject_Z 350 -> Tail.y2 t = inject_Z z ->
    (- 2 ^ 52 < z)%Z -> (z + Z.of_nat (S n) <= 350)%Z ->
    In (tailAt t 350 (z + Z.of_nat (S n))) (tails (ticks (S n) s)).
Proof.
  induction n as [|n IH]; intros s t z Hin Hp E1 E2 Hlow Hz.
  - change (ticks 1 s) with (Tick.apply 0 s).
    apply held_tail_step; auto. lia.
  - rewrite ticks_succ_r.
    assert (H1 : In (tailAt t 350 (z + 1)) (tails (Tick.apply 0 s)))
      by (apply held_tail_step; auto; lia).
    pose proof (IH (Tick.apply 0 s) (tailAt t 350 (z + 1)) (z + 1)%Z H1 Hp
                  eq_refl eq_refl ltac:(lia) ltac:(lia)) as H2.
    rewrite tailAt_twice in H2.
    replace (z + Z.of_nat (S (S n)))%Z with (z + 1 + Z.of_nat (S n))%Z by lia.
    exact H2.
Qed.

Lemma unheld_tail_step (s : State) (t : Tail) (a b : Z) :
  In t (tails s) -> Tail.isPlayed t = false ->
  Tail.y1 t = inject_Z a -> Tail.y2 t = inject_Z b ->
  (b < a)%Z -> (Z.abs a < 2 ^ 52)%Z -> (- 2 ^ 52 < b <= 400)%Z ->
  In (tailAt t (a + 1) (b + 1)) (tails (Tick.apply 0 s)).
Proof.
  intros Hin Hp E1 E2 Hab Ha Hb. rewrite tails_Tick.
  rewrite <- (move_unheld_tail t a b Hp E1 E2 Ha) by lia.
  apply tail_kept; [exact Hin | |].
  - rewrite (isTailExpired_int t b E2).
    destruct (Z.ltb_spec 400 b); [lia | reflexivity].
  - rewrite (isTailFullyPlayed_int t a b E1 E2).
    destruct (Z.eqb_spec b a); [lia | reflexivity].
Qed.

Lemma unheld_tail_after_ticks (n : nat) :
  forall (s : State) (t : Tail) (a b : Z),
    In t (tails s) -> Tail.isPlayed t = false ->
    Tail.y1 t = inject_Z a -> Tail.y2 t = inject_Z b ->
    (b < a)%Z -> (a + Z.of_nat (S n) < 2 ^ 52)%Z -> (- 2 ^ 52 < b)%Z ->
    (b + Z.of_nat (S n) <= 401)%Z ->
    In (tailAt t (a + Z.of_nat (S n)) (b + Z.of_nat (S n)))
       (tails (ticks (S n) s)).
Proof.
  induction n as [|n IH]; intros s t a b Hin Hp E1 E2 Hab Ha Hb Hn.
  - change (ticks 1 s) with (Tick.apply 0 s).
    apply unheld_tail_step; auto; lia.
  - rewrite ticks_succ_r.
    assert (H1 : In (tailAt t (a + 1) (b + 1)) (tails (Tick.apply 0 s)))
      by (apply unheld_tail_step; auto; lia).
    pose proof (IH (Tick.apply 0 s) (tailAt t (a + 1) (b + 1))
                  (a + 1)%Z (b + 1)%Z H1 Hp eq_refl eq_refl
                  ltac:(lia) ltac:(lia) ltac:(lia) ltac:(lia)) as H2.
    rewrite tailAt_twice in H2.
    replace (a + Z.of_nat (S (S n)))%Z with (a + 1 + Z.of_nat (S n))%Z by lia.
    replace (b + Z.of_nat (S (S n)))%Z with (b + 1 + Z.of_nat (S n))%Z by lia.
    exact H2.
Qed.

(** X21. Holding to the end.  With only the clock running, a held tail
    with its head on the target line (height 350) and its end [k >= 1]
    units above ([k < 2^51], so that heights add exactly) has its end
    [k - n] units above after [n] ticks, for
    [1 <= n <= k]; the ends meet after [k] ticks and tick [k + 1] moves the
    tail to [finishedTails]. *)
Theorem held_tail_finishes_after (s : State) (t : Tail) (k : nat) :
  In t (tails s) -> Tail.isPlayed t = true ->
  Tail.y1 t = inject_Z 350 ->
  Tail.y2 t = inject_Z (350 - Z.of_nat k) ->
  (1 <= k)%nat -> (Z.of_nat k < 2 ^ 51)%Z ->
  (forall n : nat, (1 <= n <= k)%nat ->
     In (tailAt t 350 (350 - Z.of_nat k + Z.of_nat n)) (tails (ticks n s))) /\
  In (tailAt t 350 350) (finishedTails (ticks (S k) s)).
Proof.
  intros Hin Hp E1 E2 Hk Hb.
  assert (Hat : forall n : nat, (1 <= n <= k)%nat ->
            In (tailAt t 350 (350 - Z.of_nat k + Z.of_nat n))
               (tails (ticks n s))).
  { intros n Hn. destruct n as [|n]; [lia|].
    apply held_tail_after_ticks; auto; lia. }
  split; [exact Hat|].
  rewrite ticks_S, finishedTails_Tick. apply filter_In. split.
  - specialize (Hat k ltac:(lia)).
    replace (350 - Z.of_nat k + Z.of_nat k)%Z with 350%Z in Hat by lia.
    exact Hat.
  - apply Qeq_bool_iff. reflexivity.
Qed.

Lemma held_tail_finishes_after_witness :
  let t := sampleTail 0 "20%" 350 50 true in
  let s := comboState [] [t] [] in
  In (tailAt t 350 51) (tails (ticks 1 s)) /\
  In (tailAt t 350 350) (finishedTails (ticks 301 s)).
Proof.
  cbv zeta.
  destruct (held_tail_finishes_after
              (comboState [] [sampleTail 0 "20%" 350 50 true] [])
              (sampleTail 0 "20%" 350 50 true) 300) as [H1 H2].
  - left. reflexivity.
  - reflexivity.
  - reflexivity.
  - reflexivity.
  - lia.
  - lia.
  - split; [exact (H1 1%nat ltac:(lia)) | exact H2].
Defined.

(** X22. A tail that is not held.  With only the clock running, a tail
    that is not played, with its end above its head (at integer heights
    between [-2^50] and [2^50], so that heights add exactly), moves down as
    a whole
    by one unit per tick until its end is at height 401, and at none of
    these positions does it count as fully played; the tick after its end
    has reached height 401 puts it in [exit]. *)
Theorem unheld_tail_moves_and_exits (s : State) (t : Tail) (a b : Z) :
  In t (tails s) -> Tail.isPlayed t = false ->
  Tail.y1 t = inject_Z a -> Tail.y2 t = inject_Z b ->
  (b < a)%Z -> (a < 2 ^ 50)%Z -> (- 2 ^ 50 < b)%Z ->
  (forall n : nat, (1 <= n)%nat -> (b + Z.of_nat n <= 401)%Z ->
     In (tailAt t (a + Z.of_nat n) (b + Z.of_nat n)) (tails (ticks n s)) /\
     Tick.isTailFullyPlayed (tailAt t (a + Z.of_nat n) (b + Z.of_nat n))
     = false) /\
  (forall n : nat, (1 <= n)%nat -> (b + Z.of_nat n = 401)%Z ->
     In (inr (tailAt t (a + Z.of_nat n) 401)) (exit (ticks (S n) s))).
Proof.
  intros Hin Hp E1 E2 Hab Ha Hb.
  assert (Hat : forall n : nat, (1 <= n)%nat -> (b + Z.of_nat n <= 401)%Z ->
            In (tailAt t (a + Z.of_nat n) (b + Z.of_nat n))
               (tails (ticks n s))).
  { intros n Hn Hz. destruct n as [|n]; [lia|].
    apply unheld_tail_after_ticks; auto; lia. }
  split.
  - intros n Hn Hz. split; [apply Hat; assumption|].
    rewrite (isTailFullyPlayed_int
               (tailAt t (a + Z.of_nat n) (b + Z.of_nat n))
               (a + Z.of_nat n) (b + Z.of_nat n) eq_refl eq_refl).
    destruct (Z.eqb_spec (b + Z.of_nat n) (a + Z.of_nat n)); [lia | reflexivity].
  - intros n Hn Hz. rewrite ticks_S, exit_Tick. apply in_or_app. right.
    apply in_map. apply filter_In. split.
    + rewrite <- Hz. apply Hat; [exact Hn | lia].
    + rewrite (isTailExpired_int (tailAt t (a + Z.of_nat n) 401) 401
                 eq_refl).
      reflexivity.
Qed.

Lemma unheld_tail_moves_and_exits_witness :
  let t := sampleTail 0 "20%" 0 (-300) false in
  let s := comboState [] [t] [] in
  In (tailAt t 350 50) (tails (ticks 350 s)) /\
  In (inr (tailAt t 701 401)) (exit (ticks 702 s)).
Proof.
  cbv zeta.
  destruct (unheld_tail_moves_and_exits
              (comboState [] [sampleTail 0 "20%" 0 (-300) false] [])
              (sampleTail 0 "20%" 0 (-300) false) 0 (-300)) as [H1 H2].
  - left. reflexivity.
  - reflexivity.
  - reflexivity.
  - reflexivity.
  - lia.
  - lia.
  - lia.
  - split.
    + exact (proj1 (H1 350%nat ltac:(lia) ltac:(lia))).
    + exact (H2 701%nat ltac:(lia) ltac:(lia)).
Defined.

(** ** Scaling a hash *)

(** X23. [RNG.scale] maps every hash in [0, 2^31 - 1] into [-1, 1], the
    smallest hash to -1 and the largest to 1. *)
Theorem scale_range :
  (forall h : num, 0 <= h -> h <= 2147483647 ->
     - (1) <= RNG.scale h /\ RNG.scale h <= 1) /\
  RNG.scale 0 = - (1) /\ RNG.scale 2147483647 = 1.
Proof.
  split; [| split; vm_compute; reflexivity].
  intros h H0 H1. unfold RNG.scale. rewrite fsub_m_1.
  assert (A0 : 0 <= fmul 2 h).
  { unfold fmul. apply rnd_nonneg. lra. }
  assert (A1 : fmul 2 h <= inject_Z 4294967294).
  { unfold fmul. apply rnd_le_int; [lia|].
    change (inject_Z 4294967294) with 4294967294. lra. }
  set (x := fmul 2 h) in *. clearbody x.
  change (inject_Z 4294967294) with 4294967294 in A1.
  assert (B0 : 0 <= fdiv x (inject_Z 2147483647)).
  { unfold fdiv. apply rnd_nonneg.
    apply Qle_shift_div_l; [reflexivity | lra]. }
  assert (B1 : fdiv x (inject_Z 2147483647) <= inject_Z 2).
  { unfold fdiv. apply rnd_le_int; [lia|].
    apply Qle_shift_div_r; [reflexivity|].
    change (inject_Z 2 * inject_Z 2147483647) with (4294967294 * 1).
    lra. }
  set (y := fdiv x (inject_Z 2147483647)) in *. clearbody y.
  change (inject_Z 2) with 2 in B1.
  split.
  - unfold fsub. change (- (1)) with (inject_Z (-1)).
    apply rnd_ge_int; [lia|]. change (inject_Z (-1)) with (- (1)). lra.
  - unfold fsub. change 1 with (inject_Z 1) at 2.
    apply rnd_le_int; [lia|]. change (inject_Z 1) with 1. lra.
Qed.

Lemma scale_range_witness :
  - (1) <= RNG.scale 1000000 /\ RNG.scale 1000000 <= 1.
Proof.
  apply (proj1 scale_range); discriminate.
Defined.
